(** * TH9401: a pooled client for a line-oriented search protocol

    Shallow embedding of the Go sources
      - [connection.go] and its pooled twin (type [Conn]): the wire codec
        and the connection,
      - the connection pool ([ConnPool]),
      - the facades [SearchClient] and [IngestClient],
    followed by the properties of the specification that were checked
    against them.

    Conventions.
      - A Go [string] is a sequence of bytes: [list ascii].
      - A Go [int] is a [Z]; the only arithmetic performed on one is
        [cmdMaxBytes/2] (truncating: [Z.quot]) and index arithmetic bounded
        by twice the length of a string held in memory, so no 64-bit
        wrap-around is reachable and none is written.  [uint32] counters
        wrap modulo [2^32], written out.
      - A run-time panic is an outcome of its own ([Panic]); a loop that may
        run forever takes fuel and answers [OutOfFuel] when it is exhausted.
      - [*Conn] pointers are indices into a heap of [Conn] records. *)

From Stdlib Require Import ZArith NArith Ascii String Bool Lia Arith.
From Stdlib Require DecimalString.
From Stdlib Require Import List.
Import Corelib.Init.Datatypes List ListNotations.

Local Open Scope Z_scope.

(** ** Outcomes of Go code that can panic or loop *)

Inductive outcome (A : Type) : Type :=
| Returned (a : A)   (* the call returns *)
| Panic              (* a run-time panic *)
| Blocked            (* a channel operation or a read that never completes *)
| OutOfFuel.         (* the loop was still running when the fuel ran out *)
Arguments Returned {A} a.
Arguments Panic {A}.
Arguments Blocked {A}.
Arguments OutOfFuel {A}.

(** Code that reads and writes a state of type [S]. *)
Definition M (S A : Type) : Type := S -> outcome (A * S).

Definition ret {S A} (a : A) : M S A := fun s => Returned (a, s).

Definition bind {S A B} (m : M S A) (k : A -> M S B) : M S B :=
  fun s =>
    match m s with
    | Returned (a, s') => k a s'
    | Panic => Panic
    | Blocked => Blocked
    | OutOfFuel => OutOfFuel
    end.

Definition gets {S A} (f : S -> A) : M S A := fun s => Returned (f s, s).
Definition modify {S} (f : S -> S) : M S unit := fun s => Returned (tt, f s).
Definition panic {S A} : M S A := fun _ => Panic.
Definition block {S A} : M S A := fun _ => Blocked.
Definition outOfFuel {S A} : M S A := fun _ => OutOfFuel.

Declare Scope go_scope.
Delimit Scope go_scope with go.
Notation "x <- m ;; k" := (bind m (fun x => k))
  (at level 61, m at next level, right associativity) : go_scope.
Notation "m ;; k" := (bind m (fun _ => k))
  (at level 61, right associativity) : go_scope.

(** ** The pieces of the Go standard library the sources call *)

Module Go.

Definition gostring := list ascii.

(** A literal. *)
Definition bytes (s : String.string) : gostring :=
  String.list_ascii_of_string s.
Arguments bytes s%_string.

Definition len (s : gostring) : Z := Z.of_nat (length s).

Definition backslash : ascii := "\"%char.
Definition newline : ascii := "010"%char.
Definition dquote : ascii := "034"%char.

(** [strings.HasPrefix(s, prefix)] *)
Fixpoint HasPrefix (s prefix : gostring) {struct prefix} : bool :=
  match prefix with
  | [] => true
  | p :: prefix' =>
      match s with
      | [] => false
      | c :: s' => Ascii.eqb c p && HasPrefix s' prefix'
      end
  end.

(** [strings.Replace(s, old, new, -1)] for a non-empty [old]: every
    non-overlapping occurrence of [old], found from the left, is replaced.
    [skip] counts the bytes of a matched occurrence still to be dropped. *)
Fixpoint replaceFrom (old new : gostring) (skip : nat) (s : gostring)
  : gostring :=
  match s with
  | [] => []
  | c :: s' =>
      match skip with
      | S k => replaceFrom old new k s'
      | O =>
          if HasPrefix s old
          then new ++ replaceFrom old new (pred (length old)) s'
          else c :: replaceFrom old new O s'
      end
  end.

Definition Replace (s old new : gostring) : gostring :=
  replaceFrom old new O s.

(** [s[i]]: panics outside [0 <= i < len(s)]. *)
Definition index (s : gostring) (i : Z) : option ascii :=
  if (i <? 0) then None else nth_error s (Z.to_nat i).

(** [s[lo:hi]]: panics unless [0 <= lo <= hi <= len(s)]. *)
Definition slice (s : gostring) (lo hi : Z) : option gostring :=
  if (0 <=? lo) && (lo <=? hi) && (hi <=? len s)
  then Some (firstn (Z.to_nat (hi - lo)) (skipn (Z.to_nat lo) s))
  else None.

(** [s[lo:]] *)
Definition sliceFrom (s : gostring) (lo : Z) : option gostring :=
  slice s lo (len s).

(** [utf8.RuneStart(b)]: [b&0xC0 != 0x80]. *)
Definition RuneStart (b : ascii) : bool :=
  negb (N.eqb (N.land (N_of_ascii b) 192) 128).

(** [strings.Split(s, sep)] for a one-byte [sep]: the fields between the
    occurrences of [sep]; always at least one field. *)
Fixpoint Split (s : gostring) (sep : ascii) : list gostring :=
  match s with
  | [] => [[]]
  | c :: s' =>
      if Ascii.eqb c sep then [] :: Split s' sep
      else match Split s' sep with
           | [] => [[c]]
           | f :: fs => (c :: f) :: fs
           end
  end.

(** [xs[n:]] on a slice whose capacity is its length, as [strings.Split]
    returns it: panics when [n] exceeds the length. *)
Definition sliceListFrom {A} (xs : list A) (n : nat) : option (list A) :=
  if (n <=? length xs)%nat then Some (skipn n xs) else None.

(** Byte tests. *)
Definition code (b : ascii) : N := N_of_ascii b.

Definition between (lo x hi : N) : bool := (lo <=? x)%N && (x <=? hi)%N.

(** [utf8.ValidString(s)]: the well-formed byte sequences of the Unicode
    standard (no overlong form, no surrogate, nothing above U+10FFFF). *)
Fixpoint ValidString (s : gostring) : bool :=
  match s with
  | [] => true
  | a :: s1 =>
      let x := code a in
      if (x <? 0x80)%N then ValidString s1
      else
        match s1 with
        | [] => false
        | b :: s2 =>
            let y := code b in
            if between 0xC2 x 0xDF then between 0x80 y 0xBF && ValidString s2
            else
              match s2 with
              | [] => false
              | c :: s3 =>
                  let z := code c in
                  if between 0xE0 x 0xEF then
                    between (if (x =? 0xE0)%N then 0xA0 else 0x80) y
                            (if (x =? 0xED)%N then 0x9F else 0xBF)
                    && between 0x80 z 0xBF && ValidString s3
                  else
                    match s3 with
                    | [] => false
                    | d :: s4 =>
                        let w := code d in
                        between 0xF0 x 0xF4
                        && between (if (x =? 0xF0)%N then 0x90 else 0x80) y
                                   (if (x =? 0xF4)%N then 0x8F else 0xBF)
                        && between 0x80 z 0xBF && between 0x80 w 0xBF
                        && ValidString s4
                    end
              end
        end
  end.

(** The callback both handshakes pass to [strings.FieldsFunc]:
    [unicode.IsSpace(r) || r == '(' || r == ')'], read on the UTF-8
    encoding.  The answer is the width in bytes of the separator rune that
    starts the text, [0] when none does.  The white-space runes are
    U+0009..U+000D, U+0020, U+0085, U+00A0, U+1680, U+2000..U+200A, U+2028,
    U+2029, U+202F, U+205F and U+3000.  Each starts with a byte that is
    never a continuation byte, so the decoder of [FieldsFunc] stops at
    every place where one of them is written. *)
Definition sepWidth (s : gostring) : nat :=
  match s with
  | [] => O
  | a :: s1 =>
      let x := code a in
      if between 9 x 13 || (x =? 32)%N || (x =? 40)%N || (x =? 41)%N
      then 1%nat
      else
        match s1 with
        | [] => O
        | b :: s2 =>
            let y := code b in
            if (x =? 0xC2)%N then
              if (y =? 0x85)%N || (y =? 0xA0)%N then 2%nat else O
            else
              match s2 with
              | [] => O
              | c :: _ =>
                  let z := code c in
                  if ((x =? 0xE1)%N && (y =? 0x9A)%N && (z =? 0x80)%N)
                     || ((x =? 0xE2)%N && (y =? 0x80)%N
                         && (between 0x80 z 0x8A || (z =? 0xA8)%N
                             || (z =? 0xA9)%N || (z =? 0xAF)%N))
                     || ((x =? 0xE2)%N && (y =? 0x81)%N && (z =? 0x9F)%N)
                     || ((x =? 0xE3)%N && (y =? 0x80)%N && (z =? 0x80)%N)
                  then 3%nat else O
              end
        end
  end.

(** [strings.FieldsFunc(s, f)] for that callback: the maximal runs of
    bytes between separators; no field is empty.  [cur] is the field being
    read, [skip] the bytes of a separator still to be passed. *)
Fixpoint fieldsFrom (skip : nat) (cur : gostring) (s : gostring)
  : list gostring :=
  match s with
  | [] => match cur with [] => [] | _ => [cur] end
  | c :: s' =>
      match skip with
      | S k => fieldsFrom k cur s'
      | O =>
          match sepWidth s with
          | O => fieldsFrom O (cur ++ [c]) s'
          | S w =>
              match cur with
              | [] => fieldsFrom w [] s'
              | _ => cur :: fieldsFrom w [] s'
              end
          end
      end
  end.

Definition FieldsFunc (s : gostring) : list gostring := fieldsFrom O [] s.

(** [ss[len(ss)-1]]: panics on an empty slice. *)
Definition lastField (ss : list gostring) : option gostring :=
  match ss with
  | [] => None
  | _ => Some (last ss [])
  end.

(** [strconv.Atoi]: an optional sign, then one or more decimal digits,
    the value within [int] (64 bits); anything else is an error. *)
Definition digit (c : ascii) : option Z :=
  let x := code c in
  if between 48 x 57 then Some (Z.of_N x - 48) else None.

Fixpoint digitsFrom (acc : Z) (s : gostring) : option Z :=
  match s with
  | [] => Some acc
  | c :: s' =>
      match digit c with
      | Some d => digitsFrom (10 * acc + d) s'
      | None => None
      end
  end.

Definition digits (s : gostring) : option Z :=
  match s with
  | [] => None
  | _ => digitsFrom 0 s
  end.

Definition inInt (v : Z) : option Z :=
  if (- 2 ^ 63 <=? v) && (v <? 2 ^ 63) then Some v else None.

Definition Atoi (s : gostring) : option Z :=
  match s with
  | [] => None
  | c :: s' =>
      let v :=
        if Ascii.eqb c "+"%char then digits s'
        else if Ascii.eqb c "-"%char then option_map Z.opp (digits s')
        else digits s in
      match v with
      | Some v => inInt v
      | None => None
      end
  end.

(** [strconv.Itoa] *)
Definition Itoa (n : Z) : gostring :=
  bytes (DecimalString.NilZero.string_of_int (Z.to_int n)).

End Go.

(** ** The wire codec *)

Module Codec.
Import Go.

(** [PATTERNS]: pattern and replacement, in the order of the source. *)
Definition PATTERNS : list (gostring * gostring) :=
  [ ([backslash], [backslash; backslash]);
    ([newline],   [backslash; "n"%char]);
    ([dquote],    [backslash; dquote]) ].

(** [patternReplace]: the loop over [PATTERNS]. *)
Definition patternReplace (text : gostring) : gostring :=
  fold_left (fun text v => Replace text (fst v) (snd v)) PATTERNS text.

(** What one byte of the payload becomes. *)
Definition escapeByte (c : ascii) : gostring :=
  if Ascii.eqb c backslash then [backslash; backslash]
  else if Ascii.eqb c newline then [backslash; "n"%char]
  else if Ascii.eqb c dquote then [backslash; dquote]
  else [c].

(** Reading an escaped text from the left: a backslash opens a two-byte
    escape whose second byte is a backslash, [n] or a double quote; a
    newline or a double quote met outside an escape is unescaped. *)
Fixpoint wellEscaped (s : gostring) : bool :=
  match s with
  | [] => true
  | c :: s' =>
      if Ascii.eqb c backslash then
        match s' with
        | [] => false
        | d :: s'' =>
            (Ascii.eqb d backslash || Ascii.eqb d "n"%char
             || Ascii.eqb d dquote) && wellEscaped s''
        end
      else negb (Ascii.eqb c newline) && negb (Ascii.eqb c dquote)
           && wellEscaped s'
  end.

(** The reverse substitution.  The repository holds no decoder (the
    server decodes); this one follows the specification's words: the three
    substitutions reversed, applied once, from the left, never to its own
    output.  A backslash that opens none of the three escapes is kept. *)
Fixpoint unescape (s : gostring) : gostring :=
  match s with
  | [] => []
  | c :: s' =>
      if Ascii.eqb c backslash then
        match s' with
        | [] => [c]
        | d :: s'' =>
            if Ascii.eqb d backslash then backslash :: unescape s''
            else if Ascii.eqb d "n"%char then newline :: unescape s''
            else if Ascii.eqb d dquote then dquote :: unescape s''
            else c :: unescape s'
        end
      else c :: unescape s'
  end.

(** The inner loop of [splitText], [for !utf8.RuneStart(s[r]) { r-- }],
    from an index [r >= 0]: the nearest rune start at or before [r].
    [None] is the panic of [s[r]]: [r] beyond the text, or the walk
    passing below index 0. *)
Fixpoint backToRuneStart (s : gostring) (r : nat) : option nat :=
  match nth_error s r with
  | None => None
  | Some b =>
      if RuneStart b then Some r
      else match r with
           | O => None
           | S r' => backToRuneStart s r'
           end
  end.

Definition runeStartBefore (s : gostring) (r : Z) : option Z :=
  if r <? 0 then None
  else option_map Z.of_nat (backToRuneStart s (Z.to_nat r)).

(** The outer loop of [splitText], entered with the current [l], [r] and
    [splits]; one unit of fuel per iteration. *)
Fixpoint splitLoop (fuel : nat) (longString : gostring) (maxLen l r : Z)
         (splits : list gostring) : outcome (list gostring) :=
  if r <? len longString then
    match fuel with
    | O => OutOfFuel
    | S fuel' =>
        match runeStartBefore longString r with
        | None => Panic
        | Some r' =>
            match slice longString l r' with
            | None => Panic
            | Some chunk =>
                splitLoop fuel' longString maxLen r' (r' + maxLen)
                          (splits ++ [chunk])
            end
        end
    end
  else
    match sliceFrom longString l with
    | None => Panic
    | Some chunk => Returned (splits ++ [chunk])
    end.

(** [splitText(longString, maxLen)] *)
Definition splitText (fuel : nat) (longString : gostring) (maxLen : Z)
  : outcome (list gostring) :=
  splitLoop fuel longString maxLen 0 maxLen [].

(** What both callers pass as [maxLen]: [cmdMaxBytes/2], Go's division
    truncating towards zero. *)
Definition targetLen (cmdMaxBytes : Z) : Z := Z.quot cmdMaxBytes 2.

Definition runeStartAt (s : gostring) (p : Z) : Prop :=
  exists b, index s p = Some b /\ RuneStart b = true.

(** A rune start at the index or within the three bytes before it, for
    every index of the text. *)
Definition runeGap (s : gostring) : Prop :=
  forall r, (r < length s)%nat ->
    exists r0 b, (r0 <= r <= r0 + 3)%nat
                 /\ nth_error s r0 = Some b /\ RuneStart b = true.

(** A character of [w] bytes at index [p]: a rune start, then
    continuation bytes. *)
Definition charAt (s : gostring) (p w : Z) : Prop :=
  runeStartAt s p
  /\ p + w <= len s
  /\ forall i, p < i < p + w ->
       exists b, index s i = Some b /\ RuneStart b = false.

(** The loop of [splitText], entered at [l0], comes to enter an iteration
    at [l]. *)
Inductive reach (s : gostring) (maxLen : Z) : Z -> Z -> Prop :=
| reach_here l : reach s maxLen l l
| reach_step l0 l1 l c :
    l0 + maxLen < len s ->
    runeStartBefore s (l0 + maxLen) = Some l1 ->
    slice s l0 l1 = Some c ->
    reach s maxLen l1 l ->
    reach s maxLen l0 l.

(** Two payloads with a three-byte character (the euro sign). *)
Definition euroText : gostring :=
  ["a"%char; "226"%char; "130"%char; "172"%char].

Definition abcEuroDef : gostring :=
  bytes "abc" ++ ["226"%char; "130"%char; "172"%char] ++ bytes "def".

(** Five continuation bytes: not UTF-8. *)
Definition strayBytes : gostring := repeat "128"%char 5.

(** What [splitText] computes, as a relation: the chunks cut from position
    [pos] on. *)
Inductive chunked (s : gostring) (maxLen : Z) : Z -> list gostring -> Prop :=
| chunked_last pos c :
    len s <= pos + maxLen ->
    sliceFrom s pos = Some c ->
    chunked s maxLen pos [c]
| chunked_next pos r' c cs :
    pos + maxLen < len s ->
    runeStartBefore s (pos + maxLen) = Some r' ->
    slice s pos r' = Some c ->
    chunked s maxLen r' cs ->
    chunked s maxLen pos (c :: cs).

(** [getSearchResults(line, eventType)] *)
Definition getSearchResults (line eventType : gostring)
  : outcome (list gostring) :=
  if HasPrefix line (bytes "EVENT " ++ eventType) then
    match sliceListFrom (Split line " "%char) 3 with
    | Some results => Returned results
    | None => Panic
    end
  else Returned [].


(** The two kinds of search ([searchCommands]). *)
Definition query : gostring := bytes "QUERY".
Definition suggest : gostring := bytes "SUGGEST".

End Codec.


(** ** Errors *)

Inductive error : Type :=
| ErrClosed                           (* "sonic: client is closed" *)
| ErrPoolTimeout                      (* "sonic: connection pool timeout" *)
| BadConnError                        (* "sonic: bad connection" *)
| EOF                                 (* [io.EOF] *)
| ServerError (msg : Go.gostring)     (* [errors.New(str[4:])] *)
| StartedError (line : Go.gostring)   (* "Unable to parse STARTED response" *)
| NumError (s : Go.gostring)          (* the error of [strconv.Atoi] *)
| NetError (code : nat)               (* any other error of package [net] *)
| CtxError.                           (* [ctx.Err()] *)

Definition isEOF (e : error) : bool :=
  match e with EOF => true | _ => false end.

(** A Go pair [(value, err)] of which one side is set. *)
Inductive result (A : Type) : Type :=
| Ok (a : A)
| Err (e : error).
Arguments Ok {A} a.
Arguments Err {A} e.

(** ** The connection ([Conn]) *)

Module Connection.
Import Go Codec.
Local Open Scope go_scope.

(** What the peer does on one socket.  [Line s ahead] is a line [s]
    (its terminator removed, its fragments joined) after which [ahead]
    bytes already received stay unread in the [bufio.Reader]; an
    exhausted script is a peer that stays silent. *)
Inductive ReadEvent : Type :=
| Line (s : gostring) (ahead : nat)
| ReadFails (e : error).

Record NetConn : Type := mkNetConn {
  incoming : list ReadEvent;          (* what [ReadLine] will meet *)
  writeErrs : list (option error);    (* the results of the next calls on
                                         the socket that can fail: the
                                         writes, and [Close] *)
  sent : list gostring;               (* what was written *)
}.

Record Conn : Type := mkConn {
  createdAt : Z;              (* [time.Time], nanoseconds *)
  usedAt : Z;                 (* Unix seconds *)
  pooled : bool;
  Reader : option nat;        (* [nil], or a reader and its [Buffered()] *)
  netConn : option NetConn;   (* [nil], or the socket *)
  cmdMaxBytes : Z;
  closed : bool;
}.

Definition second : Z := 1000000000.

(** [tm.Unix()] *)
Definition Unix (tm : Z) : Z := tm / second.

(** [GetUsedAt]: [time.Unix(usedAt, 0)] *)
Definition GetUsedAt (cn : Conn) : Z := usedAt cn * second.

Definition setUsedAt (tm : Z) (cn : Conn) : Conn :=
  mkConn (createdAt cn) (Unix tm) (pooled cn) (Reader cn) (netConn cn)
         (cmdMaxBytes cn) (closed cn).

Definition GetCreatedAt (cn : Conn) : Z := createdAt cn.

Definition setPooled (b : bool) (cn : Conn) : Conn :=
  mkConn (createdAt cn) (usedAt cn) b (Reader cn) (netConn cn)
         (cmdMaxBytes cn) (closed cn).

Definition setCmdMaxBytes (n : Z) (cn : Conn) : Conn :=
  mkConn (createdAt cn) (usedAt cn) (pooled cn) (Reader cn) (netConn cn)
         n (closed cn).

Definition setIO (rd : option nat) (nc : option NetConn) (cn : Conn) : Conn :=
  mkConn (createdAt cn) (usedAt cn) (pooled cn) rd nc
         (cmdMaxBytes cn) (closed cn).

(** [Buffered]: [cn.Reader.Buffered()], a nil [Reader] panics. *)
Definition Buffered : M Conn Z :=
  fun cn =>
    match Reader cn with
    | Some n => Returned (Z.of_nat n, cn)
    | None => Panic
    end.

(** [Close]: the connection it leaves ... *)
Definition Close (cn : Conn) : Conn :=
  mkConn (createdAt cn) (usedAt cn) (pooled cn) None None
         (cmdMaxBytes cn) true.

(** ... and the error it returns: that of the socket's own [Close], [nil]
    when there is no socket. *)
Definition closeErr (cn : Conn) : option error :=
  match netConn cn with
  | Some nc => hd None (writeErrs nc)
  | None => None
  end.

(** [read] *)
Definition read : M Conn (result gostring) :=
  fun cn =>
    if closed cn then Returned (Err ErrClosed, cn)
    else
      match Reader cn, netConn cn with
      | Some _, Some nc =>
          match incoming nc with
          | [] => Blocked
          | ReadFails e :: rest =>
              let cn' :=
                setIO (Reader cn)
                      (Some (mkNetConn rest (writeErrs nc) (sent nc))) cn in
              Returned (Err e, if isEOF e then Close cn' else cn')
          | Line str ahead :: rest =>
              let cn' :=
                setIO (Some ahead)
                      (Some (mkNetConn rest (writeErrs nc) (sent nc))) cn in
              if HasPrefix str (bytes "ERR ")
              then Returned (Err (ServerError (skipn 4 str)), cn')
              else Returned (Ok str, cn')
          end
      | _, _ => Panic
      end.

Definition crlf : gostring := ["013"%char; "010"%char].

(** [write] *)
Definition write (str : gostring) : M Conn (option error) :=
  fun cn =>
    if closed cn then Returned (Some ErrClosed, cn)
    else
      match netConn cn with
      | None => Panic
      | Some nc =>
          let out := sent nc ++ [str ++ crlf] in
          match writeErrs nc with
          | [] =>
              Returned (None,
                        setIO (Reader cn) (Some (mkNetConn (incoming nc) [] out)) cn)
          | r :: rest =>
              Returned (r,
                        setIO (Reader cn) (Some (mkNetConn (incoming nc) rest out)) cn)
          end
      end.

(** The body of [NewConn] after the allocation: the handshake. *)
Definition handshake (ch password : gostring) : M Conn (option error) :=
  err <- write (bytes "START " ++ ch ++ bytes " " ++ password) ;;
  match err with
  | Some e => ret (Some e)
  | None =>
      _ <- read ;;                       (* CONNECTED; its error is dropped *)
      r <- read ;;                       (* STARTED *)
      match r with
      | Err e => ret (Some e)
      | Ok line =>
          match lastField (FieldsFunc line) with
          | None => panic                (* ss[len(ss)-1] on no field *)
          | Some f =>
              match Atoi f with
              | None => ret (Some (StartedError line))
              | Some bufferSize =>
                  modify (setCmdMaxBytes bufferSize) ;; ret None
              end
          end
      end
  end.

(** [NewConn(netConn, ch, password)], called at time [now]. *)
Definition NewConn (now : Z) (nc : NetConn) (ch password : gostring)
  : outcome (result Conn) :=
  let conn :=
    setUsedAt now (mkConn now (Unix now) false (Some O) (Some nc) 0 false) in
  match handshake ch password conn with
  | Returned (None, conn') => Returned (Ok conn')
  | Returned (Some e, _) => Returned (Err e)
  | Panic => Panic
  | Blocked => Blocked
  | OutOfFuel => OutOfFuel
  end.

(** [connection.read] of connection.go, which parses the STARTED line
    itself. *)
Definition connection_read : M Conn (result gostring) :=
  r <- read ;;
  match r with
  | Err e => ret (Err e)
  | Ok str =>
      if HasPrefix str (bytes "STARTED ") then
        match lastField (FieldsFunc str) with
        | None => panic
        | Some f =>
            match Atoi f with
            | None => ret (Err (StartedError str))
            | Some bufferSize =>
                modify (setCmdMaxBytes bufferSize) ;; ret (Ok str)
            end
        end
      else ret (Ok str)
  end.

(** [Conn.splitText] *)
Definition splitText (fuel : nat) (c : Conn) (longString : gostring)
  : outcome (list gostring) :=
  Codec.splitText fuel longString (targetLen (cmdMaxBytes c)).

(** [strconv.Atoi(r[7:])], the tail of [Count] and of the three flushes. *)
Definition parseCount (r : gostring) : outcome (result Z) :=
  match sliceFrom r 7 with
  | None => Panic
  | Some digits =>
      match Atoi digits with
      | Some n => Returned (Ok n)
      | None => Returned (Err (NumError digits))
      end
  end.


(** The three handshakes of connection.go ([search], [ingest], [control]):
    [START], then two reads of which only the second error counts. *)
Definition start (ch password : gostring) : M Conn (option error) :=
  err <- write (bytes "START " ++ ch ++ bytes " " ++ password) ;;
  match err with
  | Some e => ret (Some e)
  | None =>
      _ <- connection_read ;;
      r <- connection_read ;;
      match r with
      | Err e => ret (Some e)
      | Ok _ => ret None
      end
  end.

End Connection.

(** ** The connection pool ([ConnPool]) *)

Module Pool.
Import Go Connection.
Local Open Scope go_scope.

(** A [*Conn]: [nil] or an address in the heap. *)
Definition ptr : Type := option nat.

Definition ptr_eqb (a b : ptr) : bool :=
  match a, b with
  | None, None => true
  | Some i, Some j => Nat.eqb i j
  | _, _ => false
  end.

(** [Options].  [Dialer] is read as an oracle: the result of its [n]-th
    call.  [Connector] is, in both facades, [NewConn(netConn, ch,
    password)]: the options keep the channel and the password it closes
    over.  [OnClose] is [nil] in both facades. *)
Record Options : Type := mkOptions {
  Dialer : nat -> result NetConn;
  channel : gostring;
  password : gostring;
  PoolSize : Z;
  MinIdleConns : Z;
  MaxConnAge : Z;
  PoolTimeout : Z;
  IdleTimeout : Z;
  IdleCheckFrequency : Z;
}.

Record Stats : Type := mkStats {
  Hits : Z;
  Misses : Z;
  Timeouts : Z;
  StaleConns : Z;
}.

Record ConnPool : Type := mkPool {
  opt : Options;
  dialErrorsNum : Z;                 (* uint32 *)
  lastDialError : option error;
  queue : Z;                         (* tokens in the channel *)
  conns : list ptr;
  idleConns : list ptr;
  poolSize : Z;
  idleConnsLen : Z;
  stats : Stats;
  _closed : Z;                       (* uint32 *)
}.

(** The goroutines the pool starts. *)
Inductive Task : Type :=
| AddIdleConnTask     (* the [go func()] of [checkMinIdleConns] *)
| TryDialTask         (* [go p.tryDial()] *)
| ReaperTask.         (* [go p.reaper(frequency)], at its next tick *)

(** The pool, the [Conn] objects, the clock, the number of calls made to
    the dialer, and the goroutines started and not yet run. *)
Record World : Type := mkWorld {
  pool : ConnPool;
  heap : list Conn;
  now : Z;
  dials : nat;
  tasks : list Task;
}.

Definition uint32 (x : Z) : Z := x mod 2 ^ 32.

(** *** Field updates *)

Definition withPool (f : ConnPool -> ConnPool) (w : World) : World :=
  mkWorld (f (pool w)) (heap w) (now w) (dials w) (tasks w).

Definition setDialErrors (n : Z) (e : option error) (p : ConnPool) : ConnPool :=
  mkPool (opt p) n e (queue p) (conns p) (idleConns p) (poolSize p)
         (idleConnsLen p) (stats p) (_closed p).

Definition setQueue (q : Z) (p : ConnPool) : ConnPool :=
  mkPool (opt p) (dialErrorsNum p) (lastDialError p) q (conns p)
         (idleConns p) (poolSize p) (idleConnsLen p) (stats p) (_closed p).

Definition setConns (cs : list ptr) (p : ConnPool) : ConnPool :=
  mkPool (opt p) (dialErrorsNum p) (lastDialError p) (queue p) cs
         (idleConns p) (poolSize p) (idleConnsLen p) (stats p) (_closed p).

Definition setIdleConns (cs : list ptr) (p : ConnPool) : ConnPool :=
  mkPool (opt p) (dialErrorsNum p) (lastDialError p) (queue p) (conns p)
         cs (poolSize p) (idleConnsLen p) (stats p) (_closed p).

Definition setPoolSize (n : Z) (p : ConnPool) : ConnPool :=
  mkPool (opt p) (dialErrorsNum p) (lastDialError p) (queue p) (conns p)
         (idleConns p) n (idleConnsLen p) (stats p) (_closed p).

Definition setIdleConnsLen (n : Z) (p : ConnPool) : ConnPool :=
  mkPool (opt p) (dialErrorsNum p) (lastDialError p) (queue p) (conns p)
         (idleConns p) (poolSize p) n (stats p) (_closed p).

Definition setStats (s : Stats) (p : ConnPool) : ConnPool :=
  mkPool (opt p) (dialErrorsNum p) (lastDialError p) (queue p) (conns p)
         (idleConns p) (poolSize p) (idleConnsLen p) s (_closed p).

Definition setClosed (c : Z) (p : ConnPool) : ConnPool :=
  mkPool (opt p) (dialErrorsNum p) (lastDialError p) (queue p) (conns p)
         (idleConns p) (poolSize p) (idleConnsLen p) (stats p) c.

Definition addHit (s : Stats) : Stats :=
  mkStats (uint32 (Hits s + 1)) (Misses s) (Timeouts s) (StaleConns s).
Definition addMiss (s : Stats) : Stats :=
  mkStats (Hits s) (uint32 (Misses s + 1)) (Timeouts s) (StaleConns s).
Definition addTimeout (s : Stats) : Stats :=
  mkStats (Hits s) (Misses s) (uint32 (Timeouts s + 1)) (StaleConns s).
Definition addStale (n : Z) (s : Stats) : Stats :=
  mkStats (Hits s) (Misses s) (Timeouts s) (uint32 (StaleConns s + n)).

Definition spawn (t : Task) : M World unit :=
  modify (fun w => mkWorld (pool w) (heap w) (now w) (dials w) (tasks w ++ [t])).

(** [time.Sleep], and the time spent waiting in a [select]. *)
Definition sleep (d : Z) : M World unit :=
  modify (fun w => mkWorld (pool w) (heap w) (now w + Z.max 0 d) (dials w) (tasks w)).

(** *** The heap *)

Fixpoint setNth {A} (i : nat) (x : A) (xs : list A) : list A :=
  match xs, i with
  | [], _ => []
  | _ :: xs', O => x :: xs'
  | y :: xs', S i' => y :: setNth i' x xs'
  end.

(** [*cn]: a nil pointer panics. *)
Definition load (cn : ptr) : M World Conn :=
  fun w =>
    match cn with
    | None => Panic
    | Some i =>
        match nth_error (heap w) i with
        | Some c => Returned (c, w)
        | None => Panic
        end
    end.

Definition store (cn : ptr) (c : Conn) : M World unit :=
  fun w =>
    match cn with
    | None => Panic
    | Some i =>
        Returned (tt, mkWorld (pool w) (setNth i c (heap w)) (now w)
                              (dials w) (tasks w))
    end.

(** [&Conn{...}] *)
Definition alloc (c : Conn) : M World ptr :=
  fun w =>
    Returned (Some (length (heap w)),
              mkWorld (pool w) (heap w ++ [c]) (now w) (dials w) (tasks w)).

(** A method of [Conn] called through the pointer. *)
Definition onConn {A} (cn : ptr) (m : M Conn A) : M World A :=
  c <- load cn ;;
  fun w =>
    match m c with
    | Returned (a, c') => (store cn c' ;; ret a) w
    | Panic => Panic
    | Blocked => Blocked
    | OutOfFuel => OutOfFuel
    end.

(** *** The pool's methods *)

Definition closed : M World bool :=
  gets (fun w => _closed (pool w) =? 1).

Definition setLastDialError (err : error) : M World unit :=
  modify (withPool (fun p => setDialErrors (dialErrorsNum p) (Some err) p)).

Definition getLastDialError : M World (option error) :=
  gets (fun w => lastDialError (pool w)).

(** [getTurn]: [p.queue <- struct{}{}]; a full channel blocks. *)
Definition getTurn : M World unit :=
  fun w =>
    if queue (pool w) <? PoolSize (opt (pool w))
    then Returned (tt, withPool (setQueue (queue (pool w) + 1)) w)
    else Blocked.

(** [freeTurn]: [<-p.queue]; an empty channel blocks. *)
Definition freeTurn : M World unit :=
  fun w =>
    if 0 <? queue (pool w)
    then Returned (tt, withPool (setQueue (queue (pool w) - 1)) w)
    else Blocked.

(** The caller's context: never done, done already, or not done yet and
    done [d] nanoseconds after the call. *)
Inductive Ctx : Type :=
| Background
| Canceled
| CancelsAfter (d : positive).

(** [waitTurn].  Nothing else runs while the caller waits, so a full
    queue stays full: the slow path ends with the context or the timer,
    whichever comes first. *)
Definition waitTurn (ctx : Ctx) : M World (option error) :=
  match ctx with
  | Canceled => ret (Some CtxError)
  | _ =>
      fun w =>
        let p := pool w in
        if queue p <? PoolSize (opt p)
        then Returned (None, withPool (setQueue (queue p + 1)) w)
        else
          let timeout :=
            sleep (PoolTimeout (opt p)) ;;
            modify (withPool (fun p => setStats (addTimeout (stats p)) p)) ;;
            ret (Some ErrPoolTimeout) in
          match ctx with
          | CancelsAfter d =>
              if Z.pos d <? PoolTimeout (opt p)
              then (sleep (Z.pos d) ;; ret (Some CtxError)) w
              else timeout w
          | _ => timeout w
          end
  end.

(** The loop of [checkMinIdleConns]; [PoolSize - poolSize] iterations at
    most. *)
Fixpoint warmUp (fuel : nat) : M World unit :=
  fun w =>
    let p := pool w in
    if (poolSize p <? PoolSize (opt p))
       && (idleConnsLen p <? MinIdleConns (opt p))
    then
      match fuel with
      | O => OutOfFuel
      | S fuel' =>
          (modify (withPool (fun p =>
             setIdleConnsLen (idleConnsLen p + 1)
                             (setPoolSize (poolSize p + 1) p))) ;;
           spawn AddIdleConnTask ;;
           warmUp fuel') w
      end
    else Returned (tt, w).

Definition checkMinIdleConns : M World unit :=
  fun w =>
    let p := pool w in
    if MinIdleConns (opt p) =? 0 then Returned (tt, w)
    else warmUp (Z.to_nat (PoolSize (opt p) - poolSize p)) w.

(** [popIdle] *)
Definition popIdle : M World ptr :=
  fun w =>
    let p := pool w in
    match idleConns p with
    | [] => Returned (None, w)
    | _ =>
        let cn := last (idleConns p) None in
        (modify (withPool (fun p =>
           setIdleConnsLen (idleConnsLen p - 1)
                           (setIdleConns (removelast (idleConns p)) p))) ;;
         checkMinIdleConns ;;
         ret cn) w
    end.

(** [isStaleConn] *)
Definition isStaleConn (cn : ptr) : M World bool :=
  fun w =>
    let o := opt (pool w) in
    if (IdleTimeout o =? 0) && (MaxConnAge o =? 0) then Returned (false, w)
    else
      (idle <-
         (if 0 <? IdleTimeout o
          then c <- load cn ;; ret (IdleTimeout o <=? now w - GetUsedAt c)
          else ret false) ;;
       if idle : bool then ret true
       else if 0 <? MaxConnAge o
            then c <- load cn ;; ret (MaxConnAge o <=? now w - GetCreatedAt c)
            else ret false) w.

(** The search of [removeConn]: the list without its first [cn]. *)
Fixpoint removeFirst (cn : ptr) (cs : list ptr) : option (list ptr) :=
  match cs with
  | [] => None
  | c :: cs' =>
      if ptr_eqb c cn then Some cs'
      else option_map (cons c) (removeFirst cn cs')
  end.

(** [removeConn] (and [removeConnWithLock]) *)
Definition removeConn (cn : ptr) : M World unit :=
  fun w =>
    match removeFirst cn (conns (pool w)) with
    | None => Returned (tt, w)
    | Some cs =>
        (modify (withPool (setConns cs)) ;;
         c <- load cn ;;
         if pooled c
         then modify (withPool (fun p => setPoolSize (poolSize p - 1) p)) ;;
              checkMinIdleConns
         else ret tt) w
    end.

(** [closeConn]: [cn.Close()], whose error it returns. *)
Definition closeConn (cn : ptr) : M World (option error) :=
  c <- load cn ;; store cn (Close c) ;; ret (closeErr c).

(** [Remove] *)
Definition Remove (cn : ptr) (reason : option error) : M World unit :=
  removeConn cn ;; freeTurn ;; closeConn cn ;; ret tt.

(** [CloseConn] *)
Definition CloseConn (cn : ptr) : M World (option error) :=
  removeConn cn ;; closeConn cn.

(** [Put] *)
Definition Put (cn : ptr) : M World unit :=
  b <- onConn cn Buffered ;;
  if 0 <? b then Remove cn (Some BadConnError)
  else
    c <- load cn ;;
    if negb (pooled c) then Remove cn None
    else
      modify (withPool (fun p =>
        setIdleConnsLen (idleConnsLen p + 1)
                        (setIdleConns (idleConns p ++ [cn]) p))) ;;
      freeTurn.

(** [dialConn].  The answer [Ok None] is Go's [(nil, nil)], returned when
    the threshold is reached with no error recorded. *)
Definition dialConn (pooled : bool) : M World (result ptr) :=
  cl <- closed ;;
  if cl : bool then ret (Err ErrClosed)
  else
    fun w =>
      let p := pool w in
      if uint32 (PoolSize (opt p)) <=? dialErrorsNum p then
        match lastDialError p with
        | Some e => Returned (Err e, w)
        | None => Returned (Ok None, w)
        end
      else
        let w1 := mkWorld p (heap w) (now w) (S (dials w)) (tasks w) in
        match Dialer (opt p) (dials w) with
        | Err e =>
            (setLastDialError e ;;
             modify (withPool (fun p =>
               setDialErrors (uint32 (dialErrorsNum p + 1))
                             (lastDialError p) p)) ;;
             n <- gets (fun w => dialErrorsNum (pool w)) ;;
             (if n =? uint32 (PoolSize (opt p))
              then spawn TryDialTask else ret tt) ;;
             ret (Err e)) w1
        | Ok netConn =>
            match NewConn (now w) netConn (channel (opt p))
                          (password (opt p)) with
            | Returned (Ok cn) =>
                (a <- alloc (setPooled pooled cn) ;; ret (Ok a)) w1
            | Returned (Err e) => Returned (Err e, w1)
            | Panic => Panic
            | Blocked => Blocked
            | OutOfFuel => OutOfFuel
            end
        end.

(** [tryDial]; one unit of fuel per dial. *)
Fixpoint tryDial (fuel : nat) : M World unit :=
  cl <- closed ;;
  if cl : bool then ret tt
  else
    fun w =>
      let p := pool w in
      let w1 := mkWorld p (heap w) (now w) (S (dials w)) (tasks w) in
      match Dialer (opt p) (dials w) with
      | Err e =>
          (setLastDialError e ;;
           sleep second ;;
           match fuel with
           | O => outOfFuel
           | S fuel' => tryDial fuel'
           end) w1
      | Ok _ =>
          (modify (withPool (fun p => setDialErrors 0 (lastDialError p) p)))
            w1
      end.

(** [newConn] *)
Definition newConn (pooled : bool) : M World (result ptr) :=
  r <- dialConn pooled ;;
  match r with
  | Err e => ret (Err e)
  | Ok cn =>
      modify (withPool (fun p => setConns (conns p ++ [cn]) p)) ;;
      (if pooled then
         fun w =>
           let p := pool w in
           if PoolSize (opt p) <=? poolSize p
           then (c <- load cn ;; store cn (setPooled false c)) w
           else Returned (tt, withPool (setPoolSize (poolSize p + 1)) w)
       else ret tt) ;;
      ret (Ok cn)
  end.

(** [NewConn] of the pool *)
Definition NewConn : M World (result ptr) := newConn false.

(** [addIdleConn] *)
Definition addIdleConn : M World (option error) :=
  r <- dialConn true ;;
  match r with
  | Err e => ret (Some e)
  | Ok cn =>
      modify (withPool (fun p =>
        setIdleConns (idleConns p ++ [cn]) (setConns (conns p ++ [cn]) p))) ;;
      ret None
  end.

(** The goroutine started by [checkMinIdleConns]. *)
Definition addIdleConnTask : M World unit :=
  err <- addIdleConn ;;
  match err with
  | Some _ =>
      modify (withPool (fun p =>
        setIdleConnsLen (idleConnsLen p - 1) (setPoolSize (poolSize p - 1) p)))
  | None => ret tt
  end.

(** The loop of [Get] over the idle connections; each iteration pops
    one, so the length of [idleConns] is fuel enough. *)
Fixpoint idleLoop (fuel : nat) : M World ptr :=
  cn <- popIdle ;;
  match cn with
  | None => ret None
  | Some _ =>
      stale <- isStaleConn cn ;;
      if stale : bool then
        CloseConn cn ;;
        match fuel with
        | O => outOfFuel
        | S fuel' => idleLoop fuel'
        end
      else ret cn
  end.

(** [Get] *)
Definition Get (ctx : Ctx) : M World (result ptr) :=
  cl <- closed ;;
  if cl : bool then ret (Err ErrClosed)
  else
    err <- waitTurn ctx ;;
    match err with
    | Some e => ret (Err e)
    | None =>
        n <- gets (fun w => length (idleConns (pool w))) ;;
        cn <- idleLoop n ;;
        match cn with
        | Some _ =>
            modify (withPool (fun p => setStats (addHit (stats p)) p)) ;;
            ret (Ok cn)
        | None =>
            modify (withPool (fun p => setStats (addMiss (stats p)) p)) ;;
            r <- newConn true ;;
            match r with
            | Err e => freeTurn ;; ret (Err e)
            | Ok newcn => ret (Ok newcn)
            end
        end
    end.

(** [reapStaleConn] *)
Definition reapStaleConn : M World ptr :=
  fun w =>
    match idleConns (pool w) with
    | [] => Returned (None, w)
    | cn :: rest =>
        (stale <- isStaleConn cn ;;
         if stale : bool then
           modify (withPool (fun p =>
             setIdleConnsLen (idleConnsLen p - 1) (setIdleConns rest p))) ;;
           removeConn cn ;;
           ret cn
         else ret None) w
    end.

(** The loop of [ReapStaleConns]; each turn but the last takes one idle
    connection away. *)
Fixpoint reapLoop (fuel : nat) (n : Z) : M World Z :=
  getTurn ;;
  cn <- reapStaleConn ;;
  freeTurn ;;
  match cn with
  | Some _ =>
      closeConn cn ;;
      match fuel with
      | O => outOfFuel
      | S fuel' => reapLoop fuel' (n + 1)
      end
  | None => ret n
  end.

(** [ReapStaleConns] *)
Definition ReapStaleConns : M World Z :=
  k <- gets (fun w => length (idleConns (pool w))) ;;
  n <- reapLoop k 0 ;;
  modify (withPool (fun p => setStats (addStale (uint32 n) (stats p)) p)) ;;
  ret n.

(** One tick of [reaper]. *)
Definition reaperTick : M World unit :=
  cl <- closed ;;
  if cl : bool then ret tt
  else ReapStaleConns ;; spawn ReaperTask.

(** [if err != nil && firstErr == nil { firstErr = err }] *)
Definition keepFirst (firstErr err : option error) : option error :=
  match firstErr with
  | Some _ => firstErr
  | None => err
  end.

(** The loop of [Close] over [p.conns]. *)
Fixpoint closeAll (cs : list ptr) (firstErr : option error)
  : M World (option error) :=
  match cs with
  | [] => ret firstErr
  | cn :: cs' =>
      err <- closeConn cn ;;
      closeAll cs' (keepFirst firstErr err)
  end.

(** [Close] of the pool *)
Definition Close : M World (option error) :=
  fun w =>
    if _closed (pool w) =? 0 then
      (modify (withPool (setClosed 1)) ;;
       cs <- gets (fun w => conns (pool w)) ;;
       firstErr <- closeAll cs None ;;
       modify (withPool (fun p =>
         setIdleConnsLen 0 (setIdleConns [] (setPoolSize 0 (setConns [] p))))) ;;
       ret firstErr) w
    else Returned (Some ErrClosed, w).

(** Running the oldest goroutine that was started. *)
Definition runTask (fuel : nat) : M World unit :=
  fun w =>
    match tasks w with
    | [] => Returned (tt, w)
    | t :: ts =>
        let w' := mkWorld (pool w) (heap w) (now w) (dials w) ts in
        match t with
        | AddIdleConnTask => addIdleConnTask w'
        | TryDialTask => tryDial fuel w'
        | ReaperTask => reaperTick w'
        end
    end.

(** [NewConnPool(opt)], called at time [now]. *)
Definition NewConnPool (opt : Options) (now : Z) : outcome World :=
  let p := mkPool opt 0 None 0 [] [] 0 0 (mkStats 0 0 0 0) 0 in
  match (checkMinIdleConns ;;
         if (0 <? IdleTimeout opt) && (0 <? IdleCheckFrequency opt)
         then spawn ReaperTask else ret tt) (mkWorld p [] now O []) with
  | Returned (_, w) => Returned w
  | Panic => Panic
  | Blocked => Blocked
  | OutOfFuel => OutOfFuel
  end.


(** *** How a world comes after another *)

(** The options stay, the heap only grows, and a connection that exists
    keeps its two time stamps and, once without a reader, stays so. *)
Definition evolves (w w' : World) : Prop :=
  opt (pool w') = opt (pool w)
  /\ (length (heap w) <= length (heap w'))%nat
  /\ forall i c,
       nth_error (heap w) i = Some c ->
       exists c',
         nth_error (heap w') i = Some c'
         /\ usedAt c' = usedAt c
         /\ createdAt c' = createdAt c
         /\ (Reader c = None -> Reader c' = None).

(** Moreover an idle connection of [w'] was idle in [w], or is one of
    [extra], or is nil, or was allocated since; and the queue holds [dq]
    more tokens. *)
Definition step (extra : list ptr) (dq : Z) (w w' : World) : Prop :=
  evolves w w'
  /\ (forall x,
        In x (idleConns (pool w')) ->
        In x (idleConns (pool w)) \/ In x extra \/ x = None
        \/ exists i, x = Some i /\ (length (heap w) <= i)%nat)
  /\ queue (pool w') = queue (pool w) + dq.


(** Where the connection that [Get] returns comes from. *)
Definition idleOrFresh (w : World) (x : ptr) : Prop :=
  x = None \/ In x (idleConns (pool w))
  \/ exists i, x = Some i /\ (length (heap w) <= i)%nat.


(** Nothing changed but the reserved sizes and the goroutines started. *)
Definition sameConns (w w' : World) : Prop :=
  heap w' = heap w
  /\ conns (pool w') = conns (pool w)
  /\ idleConns (pool w') = idleConns (pool w)
  /\ queue (pool w') = queue (pool w)
  /\ opt (pool w') = opt (pool w).

(** One call on the pool or on one of its connections, or a goroutine of
    the pool running, or time passing. *)
Inductive poolCall : World -> World -> Prop :=
| call_Get ctx w r w' :
    Get ctx w = Returned (r, w') -> poolCall w w'
| call_Put cn w w' :
    Put cn w = Returned (tt, w') -> poolCall w w'
| call_Remove cn reason w w' :
    Remove cn reason w = Returned (tt, w') -> poolCall w w'
| call_CloseConn cn w r w' :
    CloseConn cn w = Returned (r, w') -> poolCall w w'
| call_NewConn w r w' :
    NewConn w = Returned (r, w') -> poolCall w w'
| call_ReapStaleConns w n w' :
    ReapStaleConns w = Returned (n, w') -> poolCall w w'
| call_Close w r w' :
    Close w = Returned (r, w') -> poolCall w w'
| call_task fuel w w' :
    runTask fuel w = Returned (tt, w') -> poolCall w w'
| call_read cn w r w' :
    onConn cn read w = Returned (r, w') -> poolCall w w'
| call_write cn str w r w' :
    onConn cn (write str) w = Returned (r, w') -> poolCall w w'
| call_sleep d w w' :
    sleep d w = Returned (tt, w') -> poolCall w w'.

Inductive later (w : World) : World -> Prop :=
| later_now : later w w
| later_call w1 w2 : later w w1 -> poolCall w1 w2 -> later w w2.





Definition IdleLen : M World Z :=
  gets (fun w => idleConnsLen (pool w)).

(** What [checkMinIdleConns] leaves of a world after [k] turns of its
    loop: [k] slots were reserved and [k] goroutines started. *)
Definition reserved (k : Z) (w : World) : World :=
  mkWorld (setIdleConnsLen (idleConnsLen (pool w) + k)
             (setPoolSize (poolSize (pool w) + k) (pool w)))
          (heap w) (now w) (dials w)
          (tasks w ++ repeat AddIdleConnTask (Z.to_nat k)).

(** The number of turns: until the pool is full or the idle connections
    are [MinIdleConns]. *)
Definition missing (w : World) : Z :=
  let p := pool w in
  if MinIdleConns (opt p) =? 0 then 0
  else Z.max 0 (Z.min (PoolSize (opt p) - poolSize p)
                      (MinIdleConns (opt p) - idleConnsLen p)).


(** Between [w] and [w'] the connections of [l] were closed and no other
    connection changed. *)
Definition closes (l : list ptr) (w w' : World) : Prop :=
  length (heap w') = length (heap w)
  /\ forall i c,
       nth_error (heap w) i = Some c ->
       nth_error (heap w') i
       = Some (if existsb (ptr_eqb (Some i)) l
               then Connection.Close c else c).


(** The [addIdleConn] goroutines started and not yet run. *)
Fixpoint pending (ts : list Task) : Z :=
  match ts with
  | [] => 0
  | AddIdleConnTask :: ts' => 1 + pending ts'
  | _ :: ts' => pending ts'
  end.

(** [idleConnsLen] less the idle connections and the slots reserved for
    the goroutines still to run. *)
Definition slack (w : World) : Z :=
  idleConnsLen (pool w) - Z.of_nat (length (idleConns (pool w)))
  - pending (tasks w).

Definition sameIdle (w w' : World) : Prop :=
  _closed (pool w') = _closed (pool w) /\ slack w' = slack w.

(** Every run of [m] that returns relates the two worlds by [R]. *)
Definition keeps {A} (R : World -> World -> Prop) (m : M World A) : Prop :=
  forall w a w', m w = Returned (a, w') -> R w w'.


(** The loop of [Filter] over [p.conns]; [fn] reads the connection it is
    given. *)
Fixpoint filterLoop (fn : Conn -> bool) (cs : list ptr)
         (firstErr : option error) : M World (option error) :=
  match cs with
  | [] => ret firstErr
  | cn :: cs' =>
      c <- load cn ;;
      err <- (if fn c then closeConn cn else ret None) ;;
      filterLoop fn cs' (keepFirst firstErr err)
  end.

(** [Filter] *)
Definition Filter (fn : Conn -> bool) : M World (option error) :=
  cs <- gets (fun w => conns (pool w)) ;;
  filterLoop fn cs None.


(** The error that closing [cn] gives in [w]. *)
Definition closeErrAt (w : World) (cn : ptr) : option error :=
  match cn with
  | Some i =>
      match nth_error (heap w) i with
      | Some c => closeErr c
      | None => None
      end
  | None => None
  end.

(** The first error of a list of results, [nil] when there is none. *)
Definition firstErr (errs : list (option error)) : option error :=
  fold_left keepFirst errs None.


(** The error that [Filter] gets at [cn] in [w]: that of closing it when
    [fn] picks it, none otherwise. *)
Definition filterErrAt (fn : Conn -> bool) (w : World) (cn : ptr) : option error :=
  match cn with
  | Some i =>
      match nth_error (heap w) i with
      | Some c => if fn c then closeErr c else None
      | None => None
      end
  | None => None
  end.

End Pool.

(** ** The facades ([SearchClient], [IngestClient]) *)

Module Facade.
Import Go Codec Connection Pool.
Local Open Scope go_scope.

Definition lift {A} (o : outcome A) : M World A :=
  fun w =>
    match o with
    | Returned a => Returned (a, w)
    | Panic => Panic
    | Blocked => Blocked
    | OutOfFuel => OutOfFuel
    end.

Definition sp : gostring := bytes " ".
Definition quote : gostring := [dquote].

Definition minute : Z := 60 * second.

(** The options both constructors build. *)
Definition facadeOptions (dial : nat -> result NetConn)
           (ch password : gostring) : Options :=
  mkOptions dial ch password 40 10 minute (second * 2) (second * 30)
            (second * 2).

(** [NweSearchClient]; [dial] is what [net.Dial] answers, call after
    call. *)
Definition NweSearchClient (dial : nat -> result NetConn)
           (password : gostring) (now : Z) : outcome World :=
  NewConnPool (facadeOptions dial (bytes "search") password) now.

(** [NewIngestCient] *)
Definition NewIngestCient (dial : nat -> result NetConn)
           (password : gostring) (now : Z) : outcome World :=
  NewConnPool (facadeOptions dial (bytes "ingest") password) now.

(** [SearchClient.Query] *)
Definition Query (ctx : Ctx) (collection bucket term : gostring)
           (limit offset : Z) : M World (result (list gostring)) :=
  r <- Get ctx ;;
  match r with
  | Err e => ret (Err e)
  | Ok conn =>
      let buf :=
        bytes "QUERY" ++ sp ++ collection ++ sp ++ bucket ++ sp
        ++ quote ++ term ++ quote
        ++ bytes "LIMIT(" ++ Itoa limit
        ++ bytes ") OFFSET(" ++ Itoa offset ++ bytes ")" in
      err <- onConn conn (write buf) ;;
      match err with
      | Some e => ret (Err e)
      | None =>
          r <- onConn conn read ;;             (* PENDING id *)
          match r with
          | Err e => ret (Err e)
          | Ok _ =>
              r <- onConn conn read ;;         (* EVENT QUERY id r1 r2 ... *)
              match r with
              | Err e => ret (Err e)
              | Ok line =>
                  results <- lift (getSearchResults line (bytes "QUERY")) ;;
                  ret (Ok results)
              end
          end
      end
  end.

(** One command and its one-line answer, as every method of
    [IngestClient] writes it out after its [Get]. *)
Definition exchange (conn : ptr) (buf : gostring) : M World (result gostring) :=
  err <- onConn conn (write buf) ;;
  match err with
  | Some e => ret (Err e)
  | None => onConn conn read
  end.

(** The loop of [IngestClient.Push] over the chunks. *)
Fixpoint pushChunks (conn : ptr) (collection bucket object : gostring)
         (chunks : list gostring) : M World (option error) :=
  match chunks with
  | [] => ret None
  | chunk :: chunks' =>
      let buf :=
        bytes "PUSH" ++ sp ++ collection ++ sp ++ bucket ++ sp ++ object
        ++ quote ++ chunk ++ quote in
      r <- exchange conn buf ;;
      match r with
      | Err e => ret (Some e)
      | Ok _ => pushChunks conn collection bucket object chunks'
      end
  end.

(** [IngestClient.Push]; the fuel is that of [splitText]. *)
Definition Push (fuel : nat) (ctx : Ctx)
           (collection bucket object text : gostring)
  : M World (option error) :=
  r <- Get ctx ;;
  match r with
  | Err e => ret (Some e)
  | Ok conn =>
      let text := patternReplace text in
      c <- load conn ;;
      chunks <- lift (Connection.splitText fuel c text) ;;
      pushChunks conn collection bucket object chunks
  end.

(** [IngestClient.Pop] *)
Definition Pop (ctx : Ctx) (collection bucket object text : gostring)
  : M World (option error) :=
  r <- Get ctx ;;
  match r with
  | Err e => ret (Some e)
  | Ok conn =>
      let buf :=
        bytes "POP" ++ sp ++ collection ++ sp ++ bucket ++ sp ++ object
        ++ quote ++ text ++ quote in
      r <- exchange conn buf ;;
      match r with
      | Err e => ret (Some e)
      | Ok _ => ret None
      end
  end.

(** The common shape of [Count], [FlushB], [FlushC] and [FlushO]: the
    command, then [strconv.Atoi(r[7:])]. *)
Definition counting (ctx : Ctx) (buf : gostring) : M World (result Z) :=
  r <- Get ctx ;;
  match r with
  | Err e => ret (Err e)
  | Ok conn =>
      r <- exchange conn buf ;;
      match r with
      | Err e => ret (Err e)
      | Ok line => lift (parseCount line)
      end
  end.

(** [IngestClient.Count] *)
Definition Count (ctx : Ctx) (collection bucket object : gostring)
  : M World (result Z) :=
  counting ctx (bytes "COUNT" ++ sp ++ collection ++ sp ++ bucket
                ++ sp ++ object).

(** [IngestClient.FlushB] *)
Definition FlushB (ctx : Ctx) (collection bucket : gostring)
  : M World (result Z) :=
  counting ctx (bytes "FLUSHB" ++ sp ++ collection ++ sp ++ bucket).

(** [IngestClient.FlushC] *)
Definition FlushC (ctx : Ctx) (collection : gostring) : M World (result Z) :=
  counting ctx (bytes "FLUSHC" ++ sp ++ collection).

(** [IngestClient.FlushO] *)
Definition FlushO (ctx : Ctx) (collection bucket object : gostring)
  : M World (result Z) :=
  counting ctx (bytes "FLUSHO" ++ sp ++ collection ++ sp ++ bucket
                ++ sp ++ object).



(** [Conn.Query] and [Conn.Suggest], on a connection of one's own. *)
Definition connSearch (cmd : gostring) (eventType : gostring)
  : M Conn (result (list gostring)) :=
  err <- write cmd ;;
  match err with
  | Some e => ret (Err e)
  | None =>
      r <- read ;;
      match r with
      | Err e => ret (Err e)
      | Ok _ =>
          r <- read ;;
          match r with
          | Err e => ret (Err e)
          | Ok line =>
              fun c =>
                match getSearchResults line eventType with
                | Returned a => Returned (Ok a, c)
                | Panic => Panic
                | Blocked => Blocked
                | OutOfFuel => OutOfFuel
                end
          end
      end
  end.

Definition connQuery (collection bucket term : gostring) (limit offset : Z)
  : M Conn (result (list gostring)) :=
  connSearch (bytes "QUERY" ++ sp ++ collection ++ sp ++ bucket ++ sp
              ++ quote ++ term ++ quote ++ bytes " LIMIT(" ++ Itoa limit
              ++ bytes ") OFFSET(" ++ Itoa offset ++ bytes ")")
             (bytes "QUERY").

Definition connSuggest (collection bucket word : gostring) (limit : Z)
  : M Conn (result (list gostring)) :=
  connSearch (bytes "SUGGEST" ++ sp ++ collection ++ sp ++ bucket ++ sp
              ++ quote ++ word ++ quote ++ bytes " LIMIT(" ++ Itoa limit
              ++ bytes ")")
             (bytes "SUGGEST").

(** An operation of a facade that, once [Get] has given it a connection,
    leaves the pool as [Get] left it: the admission token is still held
    and the connection is neither idle nor removed. *)
Definition keepsCheckedOut {A} (op : Ctx -> M World A) : Prop :=
  forall ctx w conn w1 a w',
    Get ctx w = Returned (Ok conn, w1) ->
    op ctx w = Returned (a, w') ->
    pool w' = pool w1 /\ queue (pool w') = queue (pool w) + 1.

End Facade.

(** ** Worlds to run the operations in *)

Module Samples.
Import Go Codec Connection Pool Facade.
Local Open Scope go_scope.

(** A socket on which every write succeeds and the peer sends [lines]. *)
Definition peer (lines : list gostring) : NetConn :=
  mkNetConn (map (fun l => Line l O) lines) [] [].

(** A connection after its handshake. *)
Definition ready (now : Z) (buffer : Z) (nc : NetConn) : Conn :=
  mkConn now (Unix now) true (Some O) (Some nc) buffer false.

(** A server: its two lines of handshake, then [answers]. *)
Definition sonic (ch : gostring) (answers : list ReadEvent) : NetConn :=
  mkNetConn
    ([Line (bytes "CONNECTED <sonic-server v1.0.0>") O;
      Line (bytes "STARTED " ++ ch ++ bytes " protocol(1) buffer(20000)") O]
     ++ answers) [] [].

Definition orElse {A} (o : outcome A) (d : A) : A :=
  match o with Returned a => a | _ => d end.

(** The world after a call (the world itself when the call does not
    return). *)
Definition after {A} (m : M World A) (w : World) : World :=
  match m w with Returned (_, w') => w' | _ => w end.

Definition emptyWorld : World :=
  mkWorld (mkPool (facadeOptions (fun _ => Err (NetError 0)) [] [])
                  0 None 0 [] [] 0 0 (mkStats 0 0 0 0) 0)
          [] 0 O [].

(** A search client whose server answers one query on every connection. *)
Definition searchWorld : World :=
  orElse (NweSearchClient
            (fun _ => Ok (sonic (bytes "search")
                            [Line (bytes "PENDING abc123") O;
                             Line (bytes "EVENT QUERY abc123 id1 id2 id3") O]))
            (bytes "SecretPassword") 0)
         emptyWorld.

Definition queryCat : M World (result (list gostring)) :=
  Query Background (bytes "col") (bytes "buck") (bytes "cat") 10 0.

Fixpoint times {A} (n : nat) (m : M World A) : M World unit :=
  match n with
  | O => ret tt
  | S n' => m ;; times n' m
  end.



Definition zeroConn : Conn := mkConn 0 0 false None None 0 false.


(** An ingest client whose server answers a bare OK to [COUNT]. *)
Definition terseWorld : World :=
  orElse (NewIngestCient
            (fun _ => Ok (sonic (bytes "ingest") [Line (bytes "OK") O]))
            (bytes "SecretPassword") 0)
         emptyWorld.


(** A pool of two connections whose dials fail, succeed, then fail three
    times before they succeed again. *)
Definition flakyDialer (n : nat) : result NetConn :=
  match n with
  | 0%nat => Err (NetError 1)
  | 1%nat => Ok (sonic (bytes "search") [])
  | 2%nat => Err (NetError 2)
  | 3%nat => Err (NetError 3)
  | 4%nat => Err (NetError 4)
  | _ => Ok (sonic (bytes "search") [])
  end.

Definition flakyWorld : World :=
  orElse (NewConnPool
            (mkOptions flakyDialer (bytes "search") (bytes "SecretPassword")
                       2 0 minute (second * 2) (second * 30) (second * 2))
            0)
         emptyWorld.

(** [flakyWorld] after a failed [Get], after a second [Get], which
    succeeds, and after a third one, which fails. *)
Definition flaky1 : World := after (Get Background) flakyWorld.
Definition flaky2 : World := after (Get Background) flaky1.
Definition flaky3 : World := after (Get Background) flaky2.

(** [searchWorld] after a connection was taken, returned, and ten
    seconds have gone by. *)
Definition tenSecondsLater : World :=
  after (Get Background ;; Put (Some O) ;; sleep (10 * second)) searchWorld.

End Samples.

Import Go Codec Connection Pool Facade Samples.

(** * Properties *)

(** ** Escaping *)

Lemma replaceFrom_single (o : ascii) (new s : gostring) :
  replaceFrom [o] new O s
  = flat_map (fun c => if Ascii.eqb c o then new else [c]) s.
Proof.
  induction s as [|c s IH]; simpl; [reflexivity|].
  rewrite andb_true_r, IH.
  destruct (Ascii.eqb c o); reflexivity.
Qed.

Lemma flat_map_compose {A B C} (f : A -> list B) (g : B -> list C) (s : list A) :
  flat_map g (flat_map f s) = flat_map (fun a => flat_map g (f a)) s.
Proof.
  induction s as [|a s IH]; simpl; [reflexivity|].
  now rewrite flat_map_app, IH.
Qed.

Lemma escapeByte_passes (c : ascii) :
  flat_map (fun c => if Ascii.eqb c dquote then [backslash; dquote] else [c])
    (flat_map (fun c => if Ascii.eqb c newline then [backslash; "n"%char] else [c])
       (if Ascii.eqb c backslash then [backslash; backslash] else [c]))
  = escapeByte c.
Proof.
  unfold escapeByte.
  destruct (Ascii.eqb_spec c backslash) as [->|Hb]; [reflexivity|].
  simpl.
  destruct (Ascii.eqb_spec c newline) as [->|Hn]; [reflexivity|].
  simpl. rewrite app_nil_r. reflexivity.
Qed.

Lemma patternReplace_bytewise (text : gostring) :
  patternReplace text = flat_map escapeByte text.
Proof.
  unfold patternReplace, PATTERNS, Replace; simpl.
  rewrite !replaceFrom_single, !flat_map_compose.
  apply flat_map_ext. intro c.
  rewrite <- escapeByte_passes, flat_map_compose. reflexivity.
Qed.

Lemma wellEscaped_escapeByte (c : ascii) (s : gostring) :
  wellEscaped (escapeByte c ++ s) = wellEscaped s.
Proof.
  unfold escapeByte.
  destruct (Ascii.eqb_spec c backslash) as [->|Hb]; [reflexivity|].
  destruct (Ascii.eqb_spec c newline) as [->|Hn]; [reflexivity|].
  destruct (Ascii.eqb_spec c dquote) as [->|Hq]; [reflexivity|].
  simpl.
  destruct (Ascii.eqb_spec c backslash); [contradiction|].
  destruct (Ascii.eqb_spec c newline); [contradiction|].
  destruct (Ascii.eqb_spec c dquote); [contradiction|].
  reflexivity.
Qed.

Lemma unescape_escapeByte (c : ascii) (s : gostring) :
  unescape (escapeByte c ++ s) = c :: unescape s.
Proof.
  unfold escapeByte.
  destruct (Ascii.eqb_spec c backslash) as [->|Hb]; [reflexivity|].
  destruct (Ascii.eqb_spec c newline) as [->|Hn]; [reflexivity|].
  destruct (Ascii.eqb_spec c dquote) as [->|Hq]; [reflexivity|].
  simpl.
  destruct (Ascii.eqb_spec c backslash); [contradiction|].
  reflexivity.
Qed.

(** C3.  For every text, the three passes of [patternReplace] amount to one
    pass that replaces each byte of the payload once (so no pass escapes
    what an earlier pass wrote); the result holds no newline, and no
    backslash or double quote outside the three two-byte escapes (backslash
    then backslash, [n] or double quote); and the reverse substitution gives
    the payload back. *)
Theorem patternReplace_escapes_once_and_round_trips (text : gostring) :
  patternReplace text = flat_map escapeByte text
  /\ wellEscaped (patternReplace text) = true
  /\ ~ In newline (patternReplace text)
  /\ unescape (patternReplace text) = text.
Proof.
  rewrite patternReplace_bytewise.
  split; [reflexivity|].
  induction text as [|c text (IHw & IHn & IHu)]; simpl.
  - repeat split; auto.
  - rewrite wellEscaped_escapeByte, unescape_escapeByte, IHu.
    repeat split; auto.
    intro H. apply in_app_or in H. destruct H as [H|H]; [|tauto].
    unfold escapeByte in H.
    destruct (Ascii.eqb_spec c backslash); [simpl in H; intuition discriminate|].
    destruct (Ascii.eqb_spec c newline); [simpl in H; intuition discriminate|].
    destruct (Ascii.eqb_spec c dquote); simpl in H;
      intuition (try discriminate; try congruence).
Qed.

(** The reverse substitution has to be one pass as well: undoing the three
    replacements one after the other, in whichever order, reads the escaped
    backslash of a payload made of a backslash and an [n] together with the
    [n] behind it. *)
Example reverse_passes_do_not_round_trip :
  let text := [backslash; "n"%char] in
  let undo old new s := Replace s old new in
  patternReplace text = [backslash; backslash; "n"%char]
  /\ undo [backslash; backslash] [backslash]
       (undo [backslash; "n"%char] [newline]
          (undo [backslash; dquote] [dquote] (patternReplace text)))
     = [backslash; newline]
  /\ undo [backslash; dquote] [dquote]
       (undo [backslash; "n"%char] [newline]
          (undo [backslash; backslash] [backslash] (patternReplace text)))
     = [newline]
  /\ unescape (patternReplace text) = text.
Proof. repeat split. Qed.

(** ** Event lines *)

(** C7, as the claim states it, fails twice.  On an event line of the
    expected kind with fewer than three fields, [Split(line, " ")[3:]] is
    out of range and panics.  And an event line of another kind is not
    always answered by the empty list: the kind QUERYX is not the kind
    QUERY, but its line begins with EVENT, a space and QUERY, and its
    fields after the third are returned. *)
Lemma getSearchResults_short_line_and_longer_kind :
  (HasPrefix (bytes "EVENT QUERY") (bytes "EVENT " ++ query) = true
   /\ getSearchResults (bytes "EVENT QUERY") query = Panic
   /\ forall results,
        getSearchResults (bytes "EVENT QUERY") query <> Returned results)
  /\ (nth 1 (Split (bytes "EVENT QUERYX id r1") " "%char) [] = bytes "QUERYX"
      /\ bytes "QUERYX" <> query
      /\ getSearchResults (bytes "EVENT QUERYX id r1") query
         = Returned [bytes "r1"]
      /\ getSearchResults (bytes "EVENT QUERYX id r1") query <> Returned []).
Proof.
  split; [repeat split; intros results H; discriminate H|].
  repeat split; intro H; discriminate H.
Qed.

(** What is compared is the beginning of the line, not its second
    field. *)
Lemma getSearchResults_other_beginning (line eventType : gostring) :
  HasPrefix line (bytes "EVENT " ++ eventType) = false ->
  getSearchResults line eventType = Returned [].
Proof. unfold getSearchResults. now intros ->. Qed.

(** C7 (amended).  When the line begins with EVENT, a space and the expected
    kind, and holds at least three space-separated fields, the result is the
    list of the fields after the third.  When the line is an event line of
    the other of the two kinds, QUERY and SUGGEST, the result is the empty
    list.  Neither case is an error. *)
Theorem getSearchResults_event_line (line eventType : gostring) :
  (HasPrefix line (bytes "EVENT " ++ eventType) = true ->
   (3 <= length (Split line " "%char))%nat ->
   getSearchResults line eventType = Returned (skipn 3 (Split line " "%char)))
  /\ (forall kind rest : gostring,
        In eventType [query; suggest] ->
        In kind [query; suggest] ->
        kind <> eventType ->
        line = bytes "EVENT " ++ kind ++ rest ->
        getSearchResults line eventType = Returned []).
Proof.
  split.
  - unfold getSearchResults, sliceListFrom. intros -> Hlen.
    apply Nat.leb_le in Hlen. now rewrite Hlen.
  - intros kind rest He Hk Hne ->.
    apply getSearchResults_other_beginning.
    destruct He as [<-|[<-|[]]]; destruct Hk as [<-|[<-|[]]];
      try (exfalso; apply Hne; reflexivity); reflexivity.
Qed.

Lemma getSearchResults_event_line_witness :
  (HasPrefix (bytes "EVENT QUERY abc123 id1 id2 id3")
             (bytes "EVENT " ++ query) = true
   /\ (3 <= length (Split (bytes "EVENT QUERY abc123 id1 id2 id3") " "%char))%nat
   /\ getSearchResults (bytes "EVENT QUERY abc123 id1 id2 id3") query
      = Returned [bytes "id1"; bytes "id2"; bytes "id3"])
  /\ (In query [query; suggest] /\ In suggest [query; suggest]
      /\ suggest <> query
      /\ bytes "EVENT SUGGEST xyz w1 w2"
         = bytes "EVENT " ++ suggest ++ bytes " xyz w1 w2"
      /\ getSearchResults (bytes "EVENT SUGGEST xyz w1 w2") query
         = Returned []).
Proof.
  assert (H1 : In query [query; suggest]) by (left; reflexivity).
  assert (H2 : In suggest [query; suggest]) by (right; left; reflexivity).
  assert (H3 : suggest <> query) by discriminate.
  split; [split; [reflexivity | split; [simpl; lia |]]
         | repeat (split; [first [assumption | reflexivity]|])].
  - apply (proj1 (getSearchResults_event_line
                    (bytes "EVENT QUERY abc123 id1 id2 id3") query));
      [reflexivity | simpl; lia].
  - exact (proj2 (getSearchResults_event_line
                    (bytes "EVENT SUGGEST xyz w1 w2") query)
                 suggest (bytes " xyz w1 w2") H1 H2 H3 eq_refl).
Defined.

(** The two scenarios of the specification, through [Conn.Query]. *)
Example Query_scenario_results :
  exists c',
    connQuery (bytes "col") (bytes "buck") (bytes "cat") 10 0
      (ready 0 20000 (peer [bytes "PENDING abc123";
                            bytes "EVENT QUERY abc123 id1 id2 id3"]))
    = Returned (Ok [bytes "id1"; bytes "id2"; bytes "id3"], c')
    /\ option_map sent (netConn c')
       = Some [bytes "QUERY col buck " ++ [dquote] ++ bytes "cat" ++ [dquote]
               ++ bytes " LIMIT(10) OFFSET(0)" ++ crlf].
Proof. eexists. split; reflexivity. Qed.

Example Query_scenario_kind_mismatch :
  exists c',
    connQuery (bytes "col") (bytes "buck") (bytes "cat") 10 0
      (ready 0 20000 (peer [bytes "PENDING xyz";
                            bytes "EVENT SUGGEST xyz w1 w2"]))
    = Returned (Ok [], c').
Proof. eexists. reflexivity. Qed.

(** ** Counts *)

Lemma len_nonneg (s : gostring) : 0 <= len s.
Proof. unfold len. lia. Qed.





(** ** The handshake *)

(** C8.  When [START] is written without error and the server answers two
    lines, [NewConn] drops the first one whatever it says; the second one,
    if it is not an [ERR] line, is cut into fields at white space and
    parentheses, and its last field decides: when [strconv.Atoi] accepts
    it, the connection is returned open with that number as [cmdMaxBytes];
    when it does not, the error of the STARTED line is returned and no
    connection. *)
Theorem NewConn_reads_buffer_size
        (now : Z) (nc : NetConn) (ch password ack line f : gostring)
        (a1 a2 : nat) (rest : list ReadEvent) :
  hd None (writeErrs nc) = None ->
  incoming nc = Line ack a1 :: Line line a2 :: rest ->
  HasPrefix line (bytes "ERR ") = false ->
  lastField (FieldsFunc line) = Some f ->
  match Atoi f with
  | Some n =>
      exists c,
        Connection.NewConn now nc ch password = Returned (Ok c)
        /\ cmdMaxBytes c = n
        /\ Connection.closed c = false
        /\ option_map incoming (netConn c) = Some rest
  | None =>
      Connection.NewConn now nc ch password = Returned (Err (StartedError line))
  end.
Proof.
  intros Hw Hin Herr Hf.
  unfold Connection.NewConn, handshake, bind, write, read, modify, ret.
  cbn [Connection.closed setUsedAt netConn Reader setIO].
  destruct nc as [inc werrs snt]; cbn [incoming writeErrs sent] in *.
  subst inc.
  assert (Hack : forall (A : Type) (x y : A),
             (if HasPrefix ack (bytes "ERR ") then x else y) = x
             \/ (if HasPrefix ack (bytes "ERR ") then x else y) = y)
    by (intros; destruct (HasPrefix ack (bytes "ERR ")); auto).
  destruct werrs as [|r werrs]; cbn [hd] in Hw; [|subst r];
    cbn [Connection.closed setUsedAt netConn Reader setIO incoming writeErrs sent];
    destruct (HasPrefix ack (bytes "ERR "));
    cbn [Connection.closed setUsedAt netConn Reader setIO incoming writeErrs sent];
    rewrite Herr, Hf; destruct (Atoi f) as [n|];
    try reflexivity; eexists; repeat split; reflexivity.
Qed.

Lemma NewConn_reads_buffer_size_witness :
  let nc := peer [bytes "CONNECTED <sonic-server v1.0.0>";
                  bytes "STARTED search protocol(1) buffer(20000)"] in
  hd None (writeErrs nc) = None
  /\ incoming nc
     = [Line (bytes "CONNECTED <sonic-server v1.0.0>") O;
        Line (bytes "STARTED search protocol(1) buffer(20000)") O]
  /\ HasPrefix (bytes "STARTED search protocol(1) buffer(20000)")
               (bytes "ERR ") = false
  /\ lastField (FieldsFunc (bytes "STARTED search protocol(1) buffer(20000)"))
     = Some (bytes "20000")
  /\ exists c,
       Connection.NewConn 0 nc (bytes "search") (bytes "SecretPassword")
       = Returned (Ok c)
       /\ cmdMaxBytes c = 20000
       /\ Connection.closed c = false
       /\ option_map incoming (netConn c) = Some [].
Proof.
  intro nc.
  split; [reflexivity | split; [reflexivity | split; [reflexivity |
    split; [reflexivity |]]]].
  exact (NewConn_reads_buffer_size 0 nc (bytes "search") (bytes "SecretPassword")
           (bytes "CONNECTED <sonic-server v1.0.0>")
           (bytes "STARTED search protocol(1) buffer(20000)")
           (bytes "20000") O O [] eq_refl eq_refl eq_refl eq_refl).
Defined.

(** A STARTED line whose last field is no number, and the same answer
    through [connection.read] of connection.go. *)
Example NewConn_rejects_a_bad_buffer_size :
  Connection.NewConn 0 (peer [bytes "CONNECTED"; bytes "STARTED search protocol(1) buffer(many)"])
                     (bytes "search") (bytes "SecretPassword")
  = Returned (Err (StartedError (bytes "STARTED search protocol(1) buffer(many)")))
  /\ (exists c,
        connection_read
          (ready 0 0 (peer [bytes "STARTED search protocol(1) buffer(20000)"]))
        = Returned (Ok (bytes "STARTED search protocol(1) buffer(20000)"), c)
        /\ cmdMaxBytes c = 20000)
  /\ (exists c,
        connection_read
          (ready 0 0 (peer [bytes "STARTED search protocol(1) buffer(many)"]))
        = Returned (Err (StartedError
                           (bytes "STARTED search protocol(1) buffer(many)")), c)
        /\ cmdMaxBytes c = 0).
Proof. split; [reflexivity | split; eexists; split; reflexivity]. Qed.

(** ** Chunking *)

Lemma index_nth (s : gostring) (i : nat) :
  index s (Z.of_nat i) = nth_error s i.
Proof.
  unfold index.
  replace (Z.of_nat i <? 0) with false by (symmetry; apply Z.ltb_ge; lia).
  now rewrite Nat2Z.id.
Qed.

Lemma index_some (s : gostring) (i : Z) (b : ascii) :
  index s i = Some b -> 0 <= i < len s.
Proof.
  unfold index, len. destruct (Z.ltb_spec i 0) as [|Hi]; [discriminate|].
  intro Hb.
  assert (Z.to_nat i < length s)%nat by (apply nth_error_Some; congruence).
  lia.
Qed.

Lemma backToRuneStart_sound (s : gostring) (r r' : nat) :
  backToRuneStart s r = Some r' ->
  (r' <= r)%nat /\ exists b, nth_error s r' = Some b /\ RuneStart b = true.
Proof.
  revert r'. induction r as [|r IH]; intros r'; cbn [backToRuneStart].
  - destruct (nth_error s 0) as [b|] eqn:Hb; [|discriminate].
    destruct (RuneStart b) eqn:Hr; [|discriminate].
    intros [= <-]. eauto.
  - destruct (nth_error s (S r)) as [b|] eqn:Hb; [|discriminate].
    destruct (RuneStart b) eqn:Hr.
    + intros [= <-]. eauto.
    + intro H. destruct (IH _ H) as [Hle Hex]. split; [lia | exact Hex].
Qed.

(** The walk stops at the first rune start it meets: none lies between
    its answer and the index it started from. *)
Lemma backToRuneStart_nearest (s : gostring) (r r' : nat) :
  backToRuneStart s r = Some r' ->
  forall i b, (r' < i <= r)%nat -> nth_error s i = Some b -> RuneStart b = false.
Proof.
  revert r'. induction r as [|r IH]; intros r'; cbn [backToRuneStart].
  - destruct (nth_error s 0) as [b|]; [|discriminate].
    destruct (RuneStart b); [|discriminate].
    intros [= <-] i b' Hi. lia.
  - destruct (nth_error s (S r)) as [b|] eqn:Hb; [|discriminate].
    destruct (RuneStart b) eqn:Hr.
    + intros [= <-] i b' Hi. lia.
    + intros H i b' Hi Hnth.
      destruct (Nat.eq_dec i (S r)) as [->|Hne].
      * congruence.
      * apply (IH _ H i b'); [lia | exact Hnth].
Qed.

Lemma backToRuneStart_finds (s : gostring) (r r0 : nat) (b0 : ascii) :
  (r < length s)%nat -> (r0 <= r)%nat ->
  nth_error s r0 = Some b0 -> RuneStart b0 = true ->
  exists r', backToRuneStart s r = Some r' /\ (r0 <= r')%nat.
Proof.
  intros Hlen Hle H0 Hs0.
  induction r as [|r IH]; cbn [backToRuneStart].
  - assert (r0 = O) by lia. subst r0. rewrite H0, Hs0. eauto.
  - destruct (nth_error s (S r)) as [b|] eqn:Hb.
    2:{ apply nth_error_None in Hb. lia. }
    destruct (RuneStart b) eqn:Hr; [eauto|].
    destruct (Nat.eq_dec r0 (S r)) as [->|Hne]; [congruence|].
    destruct IH as [r' [H1 H2]]; [lia | lia |]. eauto.
Qed.

Lemma runeStartBefore_sound (s : gostring) (r r' : Z) :
  runeStartBefore s r = Some r' ->
  0 <= r' <= r /\ r' < len s /\ runeStartAt s r'.
Proof.
  unfold runeStartBefore. destruct (Z.ltb_spec r 0); [discriminate|].
  destruct (backToRuneStart s (Z.to_nat r)) as [k|] eqn:Hk; [|discriminate].
  intros [= <-].
  destruct (backToRuneStart_sound _ _ _ Hk) as [Hle [b [Hb Hr]]].
  assert (k < length s)%nat by (apply nth_error_Some; congruence).
  unfold len, runeStartAt. repeat split; try lia.
  exists b. now rewrite index_nth.
Qed.

Lemma runeStartBefore_finds (s : gostring) (r r0 : Z) :
  0 <= r0 <= r -> r < len s -> runeStartAt s r0 ->
  exists r', runeStartBefore s r = Some r' /\ r0 <= r'.
Proof.
  intros Hr Hlen [b0 [Hb0 Hs0]].
  unfold runeStartBefore.
  replace (r <? 0) with false by (symmetry; apply Z.ltb_ge; lia).
  rewrite <- (Z2Nat.id r0) in Hb0 by lia. rewrite index_nth in Hb0.
  destruct (backToRuneStart_finds s (Z.to_nat r) (Z.to_nat r0) b0)
    as [r' [H1 H2]]; auto.
  - unfold len in Hlen. lia.
  - lia.
  - rewrite H1. simpl. eexists. split; [reflexivity | lia].
Qed.

(** A rune start at [p] followed by continuation bytes up to [r]: the walk
    from [r] ends at [p]. *)
Lemma runeStartBefore_inside (s : gostring) (p r : Z) :
  0 <= p <= r -> r < len s -> runeStartAt s p ->
  (forall i, p < i <= r -> exists b, index s i = Some b /\ RuneStart b = false) ->
  runeStartBefore s r = Some p.
Proof.
  intros Hpr Hlen Hp Hcont.
  destruct (runeStartBefore_finds s r p Hpr Hlen Hp) as [r' [Hr' Hle]].
  rewrite Hr'. f_equal.
  destruct (runeStartBefore_sound _ _ _ Hr') as [Hr'1 [_ [b [Hb Hs]]]].
  destruct (Z.eq_dec r' p) as [|Hne]; [assumption|].
  destruct (Hcont r') as [b' [Hb' Hs']]; [lia|]. congruence.
Qed.

Lemma slice_length (s c : gostring) (lo hi : Z) :
  slice s lo hi = Some c -> 0 <= lo <= hi /\ hi <= len s /\ len c = hi - lo.
Proof.
  unfold slice.
  destruct (Z.leb_spec 0 lo); [|discriminate].
  destruct (Z.leb_spec lo hi); [|discriminate].
  destruct (Z.leb_spec hi (len s)); [|discriminate].
  simpl. intros [= <-]. unfold len in *.
  rewrite length_firstn, length_skipn. lia.
Qed.

Lemma slice_ok (s : gostring) (lo hi : Z) :
  0 <= lo <= hi -> hi <= len s ->
  slice s lo hi
  = Some (firstn (Z.to_nat (hi - lo)) (skipn (Z.to_nat lo) s)).
Proof.
  intros H1 H2. unfold slice.
  replace (0 <=? lo) with true by (symmetry; apply Z.leb_le; lia).
  replace (lo <=? hi) with true by (symmetry; apply Z.leb_le; lia).
  replace (hi <=? len s) with true by (symmetry; apply Z.leb_le; lia).
  reflexivity.
Qed.

Lemma slice_skipn (s c : gostring) (lo hi : Z) :
  slice s lo hi = Some c ->
  skipn (Z.to_nat lo) s = c ++ skipn (Z.to_nat hi) s.
Proof.
  intro H. destruct (slice_length _ _ _ _ H) as [H1 [H2 _]].
  rewrite slice_ok in H by lia. injection H as <-.
  rewrite <- (firstn_skipn (Z.to_nat (hi - lo)) (skipn (Z.to_nat lo) s)) at 1.
  f_equal. rewrite skipn_skipn. f_equal. lia.
Qed.

Lemma splitLoop_chunked (s : gostring) (maxLen : Z) (fuel : nat) :
  forall l splits chunks,
    splitLoop fuel s maxLen l (l + maxLen) splits = Returned chunks ->
    exists cs, chunks = splits ++ cs /\ chunked s maxLen l cs.
Proof.
  induction fuel as [|fuel IH]; intros l splits chunks; simpl.
  - destruct (Z.ltb_spec (l + maxLen) (len s)) as [Hlt|Hge]; [discriminate|].
    destruct (sliceFrom s l) as [c|] eqn:Hc; [|discriminate].
    intros [= <-]. exists [c]. split; [reflexivity|].
    now apply chunked_last.
  - destruct (Z.ltb_spec (l + maxLen) (len s)) as [Hlt|Hge].
    + destruct (runeStartBefore s (l + maxLen)) as [r'|] eqn:Hr; [|discriminate].
      destruct (slice s l r') as [c|] eqn:Hc; [|discriminate].
      intro H. apply IH in H. destruct H as [cs [-> Hcs]].
      exists (c :: cs). rewrite <- app_assoc. split; [reflexivity|].
      eapply chunked_next; eauto.
    + destruct (sliceFrom s l) as [c|] eqn:Hc; [|discriminate].
      intros [= <-]. exists [c]. split; [reflexivity|].
      now apply chunked_last.
Qed.

Lemma chunked_concat (s : gostring) (maxLen pos : Z) (cs : list gostring) :
  chunked s maxLen pos cs -> concat cs = skipn (Z.to_nat pos) s.
Proof.
  induction 1 as [pos c Hle Hc | pos r' c cs Hlt Hr Hc Hcs IH]; simpl.
  - unfold sliceFrom in Hc. rewrite (slice_skipn _ _ _ _ Hc).
    unfold len. rewrite Nat2Z.id, skipn_all. reflexivity.
  - rewrite IH. symmetry. now apply slice_skipn.
Qed.

Lemma chunked_nonempty (s : gostring) (maxLen pos : Z) (cs : list gostring) :
  chunked s maxLen pos cs -> cs <> [].
Proof. destruct 1; discriminate. Qed.

Lemma chunked_last_length (s : gostring) (maxLen pos : Z) (cs : list gostring) :
  chunked s maxLen pos cs -> len (last cs []) <= maxLen.
Proof.
  induction 1 as [pos c Hle Hc | pos r' c cs Hlt Hr Hc Hcs IH].
  - simpl. destruct (slice_length _ _ _ _ Hc) as [_ [_ ->]]. lia.
  - pose proof (chunked_nonempty _ _ _ _ Hcs).
    destruct cs; [contradiction | exact IH].
Qed.

Lemma len_app (a b : gostring) : len (a ++ b) = len a + len b.
Proof. unfold len. rewrite length_app. lia. Qed.

Lemma chunked_boundaries (s : gostring) (maxLen pos : Z) (cs : list gostring) :
  chunked s maxLen pos cs ->
  forall pre post,
    cs = pre ++ post -> pre <> [] -> post <> [] ->
    runeStartAt s (pos + len (concat pre)).
Proof.
  induction 1 as [pos c Hle Hc | pos r' c cs Hlt Hr Hc Hcs IH];
    intros pre post Heq Hpre Hpost.
  - destruct pre as [|x pre]; [contradiction|].
    destruct pre; destruct post; try contradiction; discriminate.
  - destruct pre as [|x pre]; [contradiction|].
    injection Heq as <- Heq.
    destruct (slice_length _ _ _ _ Hc) as [H1 [H2 H3]].
    destruct (runeStartBefore_sound _ _ _ Hr) as [_ [_ Hstart]].
    simpl concat. rewrite len_app.
    destruct pre as [|y pre].
    + simpl. replace (pos + (len c + len [])) with r' by (unfold len at 2; simpl; lia).
      exact Hstart.
    + replace (pos + (len c + len (concat (y :: pre))))
        with (r' + len (concat (y :: pre))) by lia.
      apply (IH (y :: pre) post); [assumption | discriminate | assumption].
Qed.

(** Every chunk but the last ends at the nearest rune start at or before
    the target length counted from where the chunk begins. *)
Lemma chunked_targets (s : gostring) (maxLen pos : Z) (cs : list gostring) :
  chunked s maxLen pos cs ->
  forall pre c post,
    cs = pre ++ c :: post -> post <> [] ->
    runeStartBefore s (pos + len (concat pre) + maxLen)
    = Some (pos + len (concat pre) + len c).
Proof.
  induction 1 as [pos c0 Hle Hc | pos r' c0 cs Hlt Hr Hc Hcs IH];
    intros pre c post Heq Hpost.
  - destruct pre as [|x pre]; [injection Heq as <- <-; contradiction|].
    destruct pre; discriminate.
  - destruct (slice_length _ _ _ _ Hc) as [H1 [H2 H3]].
    destruct pre as [|x pre].
    + injection Heq as <- _. simpl.
      replace (pos + len [] + maxLen) with (pos + maxLen) by (unfold len; simpl; lia).
      rewrite Hr. f_equal. unfold len at 1; simpl. lia.
    + injection Heq as <- Heq. simpl concat. rewrite len_app.
      replace (pos + (len c0 + len (concat pre))) with (r' + len (concat pre)) by lia.
      now apply (IH pre c post).
Qed.

(** *** Valid UTF-8: a rune start within three bytes of every index *)

Lemma lead_byte_RuneStart (a : ascii) :
  ((code a <? 0x80)%N || between 0xC2 (code a) 0xDF
   || between 0xE0 (code a) 0xEF || between 0xF0 (code a) 0xF4) = true ->
  RuneStart a = true.
Proof.
  destruct a as [[] [] [] [] [] [] [] []]; vm_compute; intro H;
    first [reflexivity | discriminate H].
Qed.

Lemma runeGap_rune (a : ascii) (conts rest : gostring) :
  RuneStart a = true -> (length conts <= 3)%nat ->
  runeGap rest -> runeGap (a :: conts ++ rest).
Proof.
  intros Ha Hc Hrest r Hr.
  destruct (Nat.le_gt_cases r (length conts)) as [Hle|Hgt].
  - exists O, a. repeat split; try lia. exact Ha.
  - destruct (Hrest (r - S (length conts))%nat) as [r0 [b [Hr0 [Hb Hs]]]].
    { simpl in Hr. rewrite length_app in Hr. lia. }
    exists (S (length conts + r0)), b. repeat split; try lia; [|exact Hs].
    simpl. rewrite nth_error_app2 by lia.
    now replace (length conts + r0 - length conts)%nat with r0 by lia.
Qed.

Lemma ValidString_runeGap_bounded (n : nat) :
  forall s, (length s <= n)%nat -> ValidString s = true -> runeGap s.
Proof.
  induction n as [|n IH]; intros s Hlen Hv.
  - destruct s; [|simpl in Hlen; lia]. intros r Hr. simpl in Hr. lia.
  - destruct s as [|a s1]; [intros r Hr; simpl in Hr; lia|].
    simpl in Hlen. cbn [ValidString] in Hv. cbv zeta in Hv.
    destruct (code a <? 0x80)%N eqn:E1.
    { apply (runeGap_rune a [] s1); [|simpl; lia|apply IH; [lia|exact Hv]].
      apply lead_byte_RuneStart. now rewrite E1. }
    destruct s1 as [|b s2]; [discriminate|]. simpl in Hlen.
    destruct (between 0xC2 (code a) 0xDF) eqn:E2.
    { apply andb_prop in Hv as [_ Hv].
      apply (runeGap_rune a [b] s2); [|simpl; lia|apply IH; [lia|exact Hv]].
      apply lead_byte_RuneStart. rewrite E2. now rewrite orb_true_r. }
    destruct s2 as [|c s3]; [discriminate|]. simpl in Hlen.
    destruct (between 0xE0 (code a) 0xEF) eqn:E3.
    { apply andb_prop in Hv as [_ Hv].
      apply (runeGap_rune a [b; c] s3); [|simpl; lia|apply IH; [lia|exact Hv]].
      apply lead_byte_RuneStart. rewrite E3. now rewrite !orb_true_r. }
    destruct s3 as [|d s4]; [discriminate|]. simpl in Hlen.
    apply andb_prop in Hv as [Hv Hv4].
    apply andb_prop in Hv as [Hv _]. apply andb_prop in Hv as [Hv _].
    apply andb_prop in Hv as [Hv _].
    apply (runeGap_rune a [b; c; d] s4); [|simpl; lia|apply IH; [lia|exact Hv4]].
    apply lead_byte_RuneStart. rewrite Hv. now rewrite !orb_true_r.
Qed.

Lemma ValidString_runeGap (s : gostring) : ValidString s = true -> runeGap s.
Proof. apply (ValidString_runeGap_bounded (length s)). lia. Qed.

Lemma ValidString_first (s : gostring) :
  ValidString s = true -> s <> [] -> runeStartAt s 0.
Proof.
  intros Hv Hne. destruct s as [|a s]; [contradiction|].
  destruct (ValidString_runeGap _ Hv O) as [r0 [b [Hr0 [Hb Hs]]]];
    [simpl; lia|].
  assert (r0 = O) by lia. subst r0. exists b. split; [exact Hb | exact Hs].
Qed.

Lemma runeGap_before (s : gostring) (r : Z) :
  runeGap s -> 0 <= r < len s ->
  exists r', runeStartBefore s r = Some r' /\ r - 3 <= r'.
Proof.
  intros Hgap Hr.
  destruct (Hgap (Z.to_nat r)) as [r0 [b [Hr0 [Hb Hs]]]];
    [unfold len in Hr; lia|].
  destruct (runeStartBefore_finds s r (Z.of_nat r0)) as [r' [H1 H2]];
    [lia | lia | |].
  - exists b. now rewrite index_nth.
  - exists r'. split; [exact H1 | lia].
Qed.

(** *** When the loop ends *)

Lemma splitLoop_total (s : gostring) (maxLen : Z) :
  runeGap s -> 4 <= maxLen ->
  forall fuel l splits,
    0 <= l <= len s -> (Z.to_nat (len s - l) <= fuel)%nat ->
    exists chunks, splitLoop fuel s maxLen l (l + maxLen) splits = Returned chunks.
Proof.
  intros Hgap Hmax.
  assert (Hexit : forall l splits, 0 <= l <= len s ->
            exists chunks,
              match sliceFrom s l with
              | Some chunk => Returned (splits ++ [chunk])
              | None => Panic
              end = Returned chunks).
  { intros l splits Hl. unfold sliceFrom. rewrite slice_ok by lia. eauto. }
  induction fuel as [|fuel IH]; intros l splits Hl Hfuel; simpl.
  - destruct (Z.ltb_spec (l + maxLen) (len s)) as [Hlt|Hge]; [lia|].
    now apply Hexit.
  - destruct (Z.ltb_spec (l + maxLen) (len s)) as [Hlt|Hge];
      [|now apply Hexit].
    destruct (runeGap_before s (l + maxLen) Hgap) as [r' [Hr' Hle]]; [lia|].
    rewrite Hr'.
    destruct (runeStartBefore_sound _ _ _ Hr') as [H1 [H2 _]].
    rewrite slice_ok by lia.
    apply IH; lia.
Qed.

(** *** When the loop never ends *)

Lemma splitLoop_stuck (s : gostring) (maxLen l : Z) :
  l + maxLen < len s ->
  runeStartBefore s (l + maxLen) = Some l ->
  forall fuel splits, splitLoop fuel s maxLen l (l + maxLen) splits = OutOfFuel.
Proof.
  intros Hlt Hr.
  destruct (runeStartBefore_sound _ _ _ Hr) as [H1 [H2 _]].
  induction fuel as [|fuel IH]; intro splits; simpl;
    (replace (l + maxLen <? len s) with true by (symmetry; apply Z.ltb_lt; lia));
    [reflexivity|].
  rewrite Hr, slice_ok by lia. apply IH.
Qed.

Lemma splitLoop_reach (s : gostring) (maxLen l0 l : Z) :
  reach s maxLen l0 l ->
  (forall fuel splits, splitLoop fuel s maxLen l (l + maxLen) splits = OutOfFuel) ->
  forall fuel splits, splitLoop fuel s maxLen l0 (l0 + maxLen) splits = OutOfFuel.
Proof.
  induction 1 as [l | l0 l1 l c Hlt Hr Hc Hreach IH]; intros Hstuck;
    [exact Hstuck|].
  intros [|fuel] splits; simpl;
    (replace (l0 + maxLen <? len s) with true by (symmetry; apply Z.ltb_lt; lia));
    [reflexivity|].
  rewrite Hr, Hc. now apply IH.
Qed.

Lemma reach_runeStart (s : gostring) (maxLen l0 l : Z) :
  reach s maxLen l0 l -> l = l0 \/ runeStartAt s l.
Proof.
  induction 1 as [l | l0 l1 l c Hlt Hr Hc Hreach IH]; [now left|].
  destruct IH as [->|IH]; [|now right].
  right. now destruct (runeStartBefore_sound _ _ _ Hr) as [_ [_ H]].
Qed.

Lemma reach_nonneg (s : gostring) (maxLen l0 l : Z) :
  reach s maxLen l0 l -> 0 <= l0 -> 0 <= l.
Proof.
  induction 1 as [l | l0 l1 l c Hlt Hr Hc Hreach IH]; [auto|].
  intros _. apply IH. now destruct (runeStartBefore_sound _ _ _ Hr) as [[H _] _].
Qed.

Lemma splitLoop_straddle (s : gostring) (maxLen l p w : Z) :
  0 <= maxLen < w ->
  charAt s p w ->
  0 <= l <= p ->
  p < l + maxLen < p + w ->
  forall fuel splits, splitLoop fuel s maxLen l (l + maxLen) splits = OutOfFuel.
Proof.
  intros Hmax [Hp [Hw Hcont]] Hl Hin.
  assert (Hback : forall r, p <= r < p + w -> runeStartBefore s r = Some p).
  { intros r Hr. apply runeStartBefore_inside; try lia; [exact Hp|].
    intros i Hi. apply Hcont. lia. }
  destruct (Z.eq_dec l p) as [->|Hne].
  - apply splitLoop_stuck; [lia | apply Hback; lia].
  - intros [|fuel] splits; simpl;
      (replace (l + maxLen <? len s) with true by (symmetry; apply Z.ltb_lt; lia));
      [reflexivity|].
    rewrite Hback by lia. rewrite slice_ok by lia.
    apply splitLoop_stuck; [lia | apply Hback; lia].
Qed.

(** *** What the chunks are *)

(** Whenever [splitText] returns, for whatever text and target length, the
    chunks are those of [chunked]. *)
Lemma splitText_chunked (fuel : nat) (s : gostring) (maxLen : Z)
      (chunks : list gostring) :
  Codec.splitText fuel s maxLen = Returned chunks -> chunked s maxLen 0 chunks.
Proof.
  unfold Codec.splitText. change maxLen with (0 + maxLen) at 2.
  intro H. apply splitLoop_chunked in H. now destruct H as [cs [-> Hcs]].
Qed.

Lemma targetLen_lower (cmdMaxBytes : Z) :
  8 <= cmdMaxBytes -> 4 <= targetLen cmdMaxBytes.
Proof.
  intro H. unfold targetLen.
  rewrite Z.quot_div_nonneg by lia.
  apply Z.div_le_lower_bound; lia.
Qed.

(** C4, as the claim states it, fails for the buffer sizes that give a
    target length of 0, and for a target length below the width of a
    character of the payload: [splitText] never returns.  It fails as well
    on a payload that is not UTF-8: the walk back from the first cut finds
    no rune start and panics on the index -1. *)
Lemma splitText_never_returns_on_small_buffers :
  (~ exists fuel chunks,
       Codec.splitText fuel (bytes "a") (targetLen 1) = Returned chunks)
  /\ ValidString euroText = true
  /\ (~ exists fuel chunks,
          Codec.splitText fuel euroText (targetLen 4) = Returned chunks)
  /\ ValidString strayBytes = false
  /\ Codec.splitText 5 strayBytes (targetLen 8) = Panic.
Proof.
  split; [|split; [reflexivity|split; [|split; reflexivity]]];
    intros [fuel [chunks H]].
  - unfold Codec.splitText in H.
    rewrite (splitLoop_stuck (bytes "a") 0 0) in H; [discriminate| |];
      reflexivity.
  - unfold Codec.splitText in H.
    assert (Hr : reach euroText 2 0 1)
      by (eapply reach_step; [| | |apply reach_here]; reflexivity).
    rewrite (splitLoop_reach euroText 2 0 1 Hr) in H; [discriminate|].
    apply splitLoop_stuck; reflexivity.
Qed.

(** C4 (amended).  For every valid UTF-8 payload and every negotiated
    [maxCommandBytes] of at least 8 (a target length of at least 4, the
    width of the widest character), [splitText] returns; the chunks, put
    together in order, are the payload; the byte at every cut is a rune
    start, so no cut falls inside a character; every chunk but the last
    ends at the nearest rune start at or before the target length counted
    from its beginning; and the last chunk, the rest of the payload, is no
    longer than the target length. *)
Theorem splitText_chunks (s : gostring) (cmdMaxBytes : Z) :
  ValidString s = true ->
  8 <= cmdMaxBytes ->
  exists chunks,
    Codec.splitText (length s) s (targetLen cmdMaxBytes) = Returned chunks
    /\ concat chunks = s
    /\ (forall pre post,
          chunks = pre ++ post -> pre <> [] -> post <> [] ->
          runeStartAt s (len (concat pre)))
    /\ (forall pre c post,
          chunks = pre ++ c :: post -> post <> [] ->
          runeStartBefore s (len (concat pre) + targetLen cmdMaxBytes)
          = Some (len (concat pre) + len c))
    /\ len (last chunks []) <= targetLen cmdMaxBytes.
Proof.
  intros Hv Hmax.
  destruct (splitLoop_total s (targetLen cmdMaxBytes)
              (ValidString_runeGap s Hv) (targetLen_lower _ Hmax)
              (length s) 0 [])
    as [chunks Hchunks].
  { pose proof (len_nonneg s). lia. }
  { unfold len. lia. }
  exists chunks. split; [exact Hchunks|].
  pose proof (splitText_chunked _ _ _ _ Hchunks) as Hc.
  split; [|split; [|split]].
  - now rewrite (chunked_concat _ _ _ _ Hc).
  - intros pre post Heq Hpre Hpost.
    exact (chunked_boundaries _ _ _ _ Hc pre post Heq Hpre Hpost).
  - intros pre c post Heq Hpost.
    exact (chunked_targets _ _ _ _ Hc pre c post Heq Hpost).
  - exact (chunked_last_length _ _ _ _ Hc).
Qed.

Lemma splitText_chunks_witness :
  ValidString abcEuroDef = true
  /\ 8 <= 8
  /\ exists chunks,
       Codec.splitText (length abcEuroDef) abcEuroDef (targetLen 8) = Returned chunks
       /\ concat chunks = abcEuroDef
       /\ (forall pre post,
             chunks = pre ++ post -> pre <> [] -> post <> [] ->
             runeStartAt abcEuroDef (len (concat pre)))
       /\ (forall pre c post,
             chunks = pre ++ c :: post -> post <> [] ->
             runeStartBefore abcEuroDef (len (concat pre) + targetLen 8)
             = Some (len (concat pre) + len c))
       /\ len (last chunks []) <= targetLen 8.
Proof.
  split; [reflexivity | split; [lia |]].
  apply (splitText_chunks abcEuroDef 8); [reflexivity | lia].
Defined.

(** The cut that falls inside the euro sign is moved back to its first
    byte. *)
Example splitText_moves_the_cut_back :
  Codec.splitText 9 abcEuroDef (targetLen 8)
  = Returned [bytes "abc";
              ["226"%char; "130"%char; "172"%char; "d"%char];
              bytes "ef"].
Proof. reflexivity. Qed.

(** The same properties hold whenever [splitText] returns, whatever the
    text and the target length. *)
Lemma splitText_sound (fuel : nat) (s : gostring) (maxLen : Z)
      (chunks : list gostring) :
  Codec.splitText fuel s maxLen = Returned chunks ->
  concat chunks = s
  /\ (forall pre post,
        chunks = pre ++ post -> pre <> [] -> post <> [] ->
        runeStartAt s (len (concat pre)))
  /\ len (last chunks []) <= maxLen.
Proof.
  intro H. pose proof (splitText_chunked _ _ _ _ H) as Hc.
  split; [|split].
  - now rewrite (chunked_concat _ _ _ _ Hc).
  - intros pre post Heq Hpre Hpost.
    exact (chunked_boundaries _ _ _ _ Hc pre post Heq Hpre Hpost).
  - exact (chunked_last_length _ _ _ _ Hc).
Qed.

(** *** Termination *)

(** C9, as the claim states it, fails on the empty payload, which a target
    length of 0 splits at once into one empty chunk; and a [cmdMaxBytes] of
    at most 1 does not always give the target length 0: below -1 the target
    is negative and a non-empty payload panics. *)
Lemma splitText_zero_target_returns_on_empty_payload :
  Codec.splitText 0 [] (targetLen 0) = Returned [[]]
  /\ targetLen (-2) = -1
  /\ Codec.splitText 1 (bytes "a") (targetLen (-2)) = Panic.
Proof. repeat split. Qed.

(** C9 (amended).  [splitText] returns for every valid UTF-8 payload when
    the target length is at least 4.  The callers pass the target length 0
    exactly when [cmdMaxBytes] is -1, 0 (also when it was never set) or 1;
    with the target length 0 and a non-empty valid UTF-8 payload the loop
    never ends.  It never ends either once it enters an iteration whose
    target falls inside a character wider than a non-negative target
    length. *)
Theorem splitText_termination :
  (forall s maxLen,
      ValidString s = true -> 4 <= maxLen ->
      exists chunks, Codec.splitText (length s) s maxLen = Returned chunks)
  /\ (forall cmdMaxBytes,
         targetLen cmdMaxBytes = 0 <-> -1 <= cmdMaxBytes <= 1)
  /\ (forall s fuel,
         ValidString s = true -> s <> [] ->
         Codec.splitText fuel s 0 = OutOfFuel)
  /\ (forall s maxLen l p w fuel,
         0 <= maxLen < w ->
         charAt s p w ->
         reach s maxLen 0 l ->
         p < l + maxLen < p + w ->
         Codec.splitText fuel s maxLen = OutOfFuel).
Proof.
  split; [|split; [|split]].
  - intros s maxLen Hv Hmax.
    apply (splitLoop_total s maxLen (ValidString_runeGap s Hv) Hmax
                           (length s) 0 []).
    + pose proof (len_nonneg s). lia.
    + unfold len. lia.
  - intro cmdMaxBytes. unfold targetLen. split; intro H.
    + pose proof (Z.quot_rem' cmdMaxBytes 2) as Hq.
      pose proof (Z.rem_bound_abs cmdMaxBytes 2) as Hb.
      rewrite H in Hq. lia.
    + apply Z.quot_small_iff; lia.
  - intros s fuel Hv Hne. unfold Codec.splitText.
    destruct (ValidString_first s Hv Hne) as [b [Hb Hs]].
    pose proof (index_some _ _ _ Hb) as Hlen.
    apply (splitLoop_stuck s 0 0); [lia|].
    apply runeStartBefore_inside; try lia.
    now exists b.
  - intros s maxLen l p w fuel Hmax Hchar Hreach Hin.
    unfold Codec.splitText. change maxLen with (0 + maxLen) at 2.
    apply (splitLoop_reach s maxLen 0 l Hreach).
    apply (splitLoop_straddle s maxLen l p w Hmax Hchar); [|exact Hin].
    pose proof (reach_nonneg _ _ _ _ Hreach ltac:(lia)) as Hl.
    split; [exact Hl|].
    destruct Hchar as [[b [Hb Hs]] [Hw Hcont]].
    pose proof (index_some _ _ _ Hb) as Hp.
    destruct (reach_runeStart _ _ _ _ Hreach) as [->|[b' [Hb' Hs']]]; [lia|].
    destruct (Z_le_gt_dec l p) as [|Hgt]; [assumption|].
    destruct (Hcont l) as [b'' [Hb'' Hs'']]; [lia|]. congruence.
Qed.

Lemma charAt_euroText : charAt euroText 1 3.
Proof.
  split; [|split].
  - exists "226"%char. split; reflexivity.
  - unfold len. simpl. lia.
  - intros i Hi.
    assert (Hcases : i = 2 \/ i = 3) by lia.
    destruct Hcases as [-> | ->]; eexists; split; reflexivity.
Qed.

Lemma splitText_termination_witness :
  (ValidString abcEuroDef = true /\ 4 <= 4
   /\ exists chunks,
        Codec.splitText (length abcEuroDef) abcEuroDef 4 = Returned chunks)
  /\ targetLen 1 = 0
  /\ (ValidString (bytes "a") = true /\ bytes "a" <> []
      /\ Codec.splitText 100 (bytes "a") 0 = OutOfFuel)
  /\ (0 <= 2 < 3 /\ charAt euroText 1 3 /\ reach euroText 2 0 0
      /\ 1 < 0 + 2 < 1 + 3
      /\ Codec.splitText 100 euroText 2 = OutOfFuel).
Proof.
  destruct splitText_termination as [Hret [Hzero [Hstuck Hwide]]].
  split; [|split; [|split]].
  - split; [reflexivity | split; [lia |]].
    apply Hret; [reflexivity | lia].
  - apply Hzero. lia.
  - split; [reflexivity | split; [discriminate |]].
    apply Hstuck; [reflexivity | discriminate].
  - split; [lia | split; [exact charAt_euroText | split; [apply reach_here |
      split; [lia |]]]].
    apply (Hwide euroText 2 0 1 3);
      [lia | exact charAt_euroText | apply reach_here | lia].
Defined.

(** ** The pool: how the operations change the world *)

Lemma bind_Returned {S A B} (m : M S A) (k : A -> M S B) (s s'' : S) (b : B) :
  bind m k s = Returned (b, s'') ->
  exists a s', m s = Returned (a, s') /\ k a s' = Returned (b, s'').
Proof.
  unfold bind. destruct (m s) as [[a s']| | |]; try discriminate. eauto.
Qed.

Ltac inv_ret :=
  repeat match goal with
    | H : ret _ _ = Returned _ |- _ => unfold ret in H
    | H : modify _ _ = Returned _ |- _ => unfold modify in H
    | H : gets _ _ = Returned _ |- _ => unfold gets in H
    | H : panic _ = Returned _ |- _ => discriminate H
    | H : block _ = Returned _ |- _ => discriminate H
    | H : outOfFuel _ = Returned _ |- _ => discriminate H
    | H : Panic = Returned _ |- _ => discriminate H
    | H : Blocked = Returned _ |- _ => discriminate H
    | H : OutOfFuel = Returned _ |- _ => discriminate H
    | H : Returned _ = Returned _ |- _ => injection H as H; subst
    | H : (_, _) = (_, _) |- _ => injection H as H; subst
    end.

Ltac inv_bind :=
  repeat (inv_ret;
          match goal with
          | H : bind _ _ _ = Returned _ |- _ =>
              let a := fresh "a" in
              let w := fresh "w" in
              let H1 := fresh "Hm" in
              apply bind_Returned in H; destruct H as (a & w & H1 & H)
          end);
  inv_ret.

Lemma length_setNth {A} (i : nat) (x : A) (xs : list A) :
  length (setNth i x xs) = length xs.
Proof.
  revert i. induction xs as [|y xs IH]; intros [|i]; simpl; auto.
Qed.

Lemma nth_error_setNth {A} (i j : nat) (x : A) (xs : list A) :
  nth_error (setNth i x xs) j
  = if Nat.eqb i j then option_map (fun _ => x) (nth_error xs j)
    else nth_error xs j.
Proof.
  revert i j. induction xs as [|y xs IH]; intros [|i] [|j]; simpl; auto.
  now destruct (Nat.eqb i j).
Qed.

(** [w'] comes after [w]: the options stay, the heap only grows, and a
    connection that exists keeps its two time stamps and stays without a
    reader once it has lost it. *)
Lemma evolves_refl (w : World) : evolves w w.
Proof.
  split; [reflexivity | split; [lia |]].
  intros i c Hc. exists c. auto.
Qed.

Lemma evolves_trans (w1 w2 w3 : World) :
  evolves w1 w2 -> evolves w2 w3 -> evolves w1 w3.
Proof.
  intros [Ho1 [Hl1 Hc1]] [Ho2 [Hl2 Hc2]].
  split; [congruence | split; [lia |]].
  intros i c Hc.
  destruct (Hc1 i c Hc) as [c' [Hc' [Hu [Hcr Hr]]]].
  destruct (Hc2 i c' Hc') as [c'' [Hc'' [Hu' [Hcr' Hr']]]].
  exists c''. repeat split; try congruence. auto.
Qed.

Lemma step_refl (w : World) : step [] 0 w w.
Proof.
  split; [apply evolves_refl | split; [|lia]].
  intros x Hx. now left.
Qed.

Lemma step_trans (e1 e2 : list ptr) (d1 d2 : Z) (w1 w2 w3 : World) :
  step e1 d1 w1 w2 -> step e2 d2 w2 w3 -> step (e1 ++ e2) (d1 + d2) w1 w3.
Proof.
  intros [Hev1 [Hi1 Hq1]] [Hev2 [Hi2 Hq2]].
  split; [eapply evolves_trans; eauto | split; [|lia]].
  intros x Hx.
  destruct (Hi2 x Hx) as [H|[H|[H|[i [-> H]]]]].
  - destruct (Hi1 x H) as [H'|[H'|[H'|H']]]; auto.
    right. left. apply in_or_app. now left.
  - right. left. apply in_or_app. now right.
  - auto.
  - right. right. right. exists i. split; [reflexivity|].
    destruct Hev1 as [_ [Hl _]]. lia.
Qed.

Lemma step_trans0 (w1 w2 w3 : World) (d : Z) :
  step [] 0 w1 w2 -> step [] d w2 w3 -> step [] d w1 w3.
Proof. intros H1 H2. exact (step_trans [] [] 0 d _ _ _ H1 H2). Qed.

(** A change of the pool that leaves the options, the queue and the idle
    connections alone. *)
Lemma step_withPool (f : ConnPool -> ConnPool) (w : World) :
  opt (f (pool w)) = opt (pool w) ->
  queue (f (pool w)) = queue (pool w) ->
  idleConns (f (pool w)) = idleConns (pool w) ->
  step [] 0 w (withPool f w).
Proof.
  intros Ho Hq Hi.
  split; [split; [exact Ho | split; [simpl; lia |]] | split].
  - intros i c Hc. exists c. auto.
  - intros x Hx. simpl in Hx. rewrite Hi in Hx. now left.
  - simpl. lia.
Qed.

Lemma step_tasks (w : World) (ts : list Task) :
  step [] 0 w (mkWorld (pool w) (heap w) (now w) (dials w) ts).
Proof.
  split; [split; [reflexivity | split; [simpl; lia |]] | split].
  - intros i c Hc. exists c. auto.
  - intros x Hx. now left.
  - simpl. lia.
Qed.

Lemma step_clock (w : World) (t : Z) (n : nat) :
  step [] 0 w (mkWorld (pool w) (heap w) t n (tasks w)).
Proof.
  split; [split; [reflexivity | split; [simpl; lia |]] | split].
  - intros i c Hc. exists c. auto.
  - intros x Hx. now left.
  - simpl. lia.
Qed.

Lemma spawn_step (t : Task) (w w' : World) (u : unit) :
  spawn t w = Returned (u, w') -> step [] 0 w w'.
Proof. unfold spawn. intro H. inv_ret. apply step_tasks. Qed.

Lemma sleep_step (d : Z) (w w' : World) (u : unit) :
  sleep d w = Returned (u, w') -> step [] 0 w w'.
Proof. unfold sleep. intro H. inv_ret. apply step_clock. Qed.

Lemma warmUp_step (fuel : nat) :
  forall w w' u, warmUp fuel w = Returned (u, w') -> step [] 0 w w'.
Proof.
  induction fuel as [|fuel IH]; intros w w' u; simpl;
    destruct ((poolSize (pool w) <? PoolSize (opt (pool w)))
              && (idleConnsLen (pool w) <? MinIdleConns (opt (pool w))));
    intro H; inv_bind; try apply step_refl.
  apply IH in H. apply spawn_step in Hm.
  eapply step_trans0; [|eapply step_trans0; [exact Hm | exact H]].
  now apply step_withPool.
Qed.

Lemma checkMinIdleConns_step (w w' : World) (u : unit) :
  checkMinIdleConns w = Returned (u, w') -> step [] 0 w w'.
Proof.
  unfold checkMinIdleConns.
  destruct (MinIdleConns (opt (pool w)) =? 0); intro H.
  - inv_ret. apply step_refl.
  - eapply warmUp_step; eauto.
Qed.

Lemma load_inv (cn : ptr) (w w' : World) (c : Conn) :
  load cn w = Returned (c, w') ->
  w' = w /\ exists i, cn = Some i /\ nth_error (heap w) i = Some c.
Proof.
  unfold load. destruct cn as [i|]; [|discriminate].
  destruct (nth_error (heap w) i) as [c0|] eqn:Hc; [|discriminate].
  intro H. inv_ret. eauto.
Qed.

Lemma store_inv (cn : ptr) (c : Conn) (w w' : World) (u : unit) :
  store cn c w = Returned (u, w') ->
  exists i, cn = Some i
            /\ w' = mkWorld (pool w) (setNth i c (heap w)) (now w) (dials w)
                            (tasks w).
Proof.
  unfold store. destruct cn as [i|]; [|discriminate].
  intro H. inv_ret. eauto.
Qed.

(** Writing back a connection whose time stamps are those it had. *)
Lemma step_store (w : World) (i : nat) (c c' : Conn) :
  nth_error (heap w) i = Some c ->
  usedAt c' = usedAt c -> createdAt c' = createdAt c ->
  (Reader c = None -> Reader c' = None) ->
  step [] 0 w (mkWorld (pool w) (setNth i c' (heap w)) (now w) (dials w)
                       (tasks w)).
Proof.
  intros Hc Hu Hcr Hr.
  split; [split; [reflexivity | split] | split]; simpl.
  - rewrite length_setNth. lia.
  - intros j d Hd. rewrite nth_error_setNth.
    destruct (Nat.eqb_spec i j) as [->|Hne].
    + rewrite Hd. simpl. exists c'.
      assert (d = c) by congruence. subst d. auto.
    + exists d. auto.
  - intros x Hx. now left.
  - lia.
Qed.

Lemma step_alloc (w : World) (c : Conn) :
  step [] 0 w (mkWorld (pool w) (heap w ++ [c]) (now w) (dials w) (tasks w)).
Proof.
  split; [split; [reflexivity | split] | split]; simpl.
  - rewrite length_app. lia.
  - intros j d Hd. exists d. split; [|auto].
    rewrite nth_error_app1; [exact Hd|]. apply nth_error_Some. congruence.
  - intros x Hx. now left.
  - lia.
Qed.

Lemma onConn_inv {A} (cn : ptr) (m : M Conn A) (w w' : World) (a : A) :
  onConn cn m w = Returned (a, w') ->
  exists i c c',
    cn = Some i /\ nth_error (heap w) i = Some c
    /\ m c = Returned (a, c')
    /\ w' = mkWorld (pool w) (setNth i c' (heap w)) (now w) (dials w) (tasks w).
Proof.
  unfold onConn. intro H. inv_bind.
  destruct (load_inv _ _ _ _ Hm) as [-> [i [-> Hc]]].
  destruct (m a0) as [[a' c']| | |] eqn:Hmc; try discriminate.
  inv_bind. destruct (store_inv _ _ _ _ _ Hm0) as [j [[= <-] ->]].
  exists i, a0, c'. auto.
Qed.

Lemma onConn_pool {A} (cn : ptr) (m : M Conn A) (w w' : World) (a : A) :
  onConn cn m w = Returned (a, w') -> pool w' = pool w.
Proof.
  intro H. destruct (onConn_inv _ _ _ _ _ H) as (i & c & c' & _ & _ & _ & ->).
  reflexivity.
Qed.





Lemma setNth_same {A} (i : nat) (x : A) (xs : list A) :
  nth_error xs i = Some x -> setNth i x xs = xs.
Proof.
  revert i. induction xs as [|y xs IH]; intros [|i]; simpl; try discriminate.
  - now intros [= ->].
  - intro H. now rewrite IH.
Qed.


Lemma closeConn_inv (cn : ptr) (w w' : World) (u : option error) :
  closeConn cn w = Returned (u, w') ->
  exists i c,
    cn = Some i /\ nth_error (heap w) i = Some c
    /\ w' = mkWorld (pool w) (setNth i (Connection.Close c) (heap w)) (now w)
                    (dials w) (tasks w).
Proof.
  unfold closeConn. intro H.
  apply bind_Returned in H as (c & w1 & H1 & H).
  destruct (load_inv _ _ _ _ H1) as [-> [i [-> Hc]]].
  apply bind_Returned in H as (x & w2 & H2 & H).
  destruct (store_inv _ _ _ _ _ H2) as [j [[= <-] ->]].
  unfold ret in H. inv_ret. eauto.
Qed.

Lemma closeConn_step (cn : ptr) (w w' : World) (u : option error) :
  closeConn cn w = Returned (u, w') -> step [] 0 w w'.
Proof.
  intro H. destruct (closeConn_inv _ _ _ _ H) as (i & c & _ & Hc & ->).
  now apply (step_store w i c).
Qed.

Lemma freeTurn_inv (w w' : World) (u : unit) :
  freeTurn w = Returned (u, w') ->
  0 < queue (pool w) /\ w' = withPool (setQueue (queue (pool w) - 1)) w.
Proof.
  unfold freeTurn. destruct (Z.ltb_spec 0 (queue (pool w))); [|discriminate].
  intro H0. inv_ret. auto.
Qed.

Lemma step_queue (w : World) (q d : Z) :
  d = q - queue (pool w) -> step [] d w (withPool (setQueue q) w).
Proof.
  intros ->. split; [split; [reflexivity | split; [simpl; lia |]] | split]; simpl.
  - intros i c Hc. exists c. auto.
  - intros x Hx. now left.
  - lia.
Qed.

Lemma freeTurn_step (w w' : World) (u : unit) :
  freeTurn w = Returned (u, w') -> step [] (-1) w w'.
Proof.
  intro H. destruct (freeTurn_inv _ _ _ H) as [_ ->].
  apply step_queue. lia.
Qed.


Lemma isStaleConn_inv (cn : ptr) (w w' : World) (b : bool) :
  isStaleConn cn w = Returned (b, w') -> w' = w.
Proof.
  unfold isStaleConn.
  destruct ((IdleTimeout (opt (pool w)) =? 0) && (MaxConnAge (opt (pool w)) =? 0)).
  { intro H. now inv_ret. }
  intro H. inv_bind.
  assert (w0 = w).
  { destruct (0 <? IdleTimeout (opt (pool w))); inv_bind; [|reflexivity].
    now destruct (load_inv _ _ _ _ Hm0) as [-> _]. }
  subst w0. destruct a; inv_bind; [reflexivity|].
  destruct (0 <? MaxConnAge (opt (pool w))); inv_bind; [|reflexivity].
  now destruct (load_inv _ _ _ _ Hm0) as [-> _].
Qed.

Lemma In_removelast {A} (x : A) (l : list A) : In x (removelast l) -> In x l.
Proof.
  induction l as [|y l IH]; simpl; [auto|].
  destruct l as [|z l]; [intros []|].
  intros [->|H]; [now left | right; now apply IH].
Qed.

Lemma In_last {A} (l : list A) (d : A) : l <> [] -> In (last l d) l.
Proof.
  induction l as [|y l IH]; [contradiction|]. intros _.
  destruct l as [|z l]; [now left|].
  right. apply IH. discriminate.
Qed.

Lemma step_idle (w : World) (f : ConnPool -> ConnPool) (e : list ptr) :
  opt (f (pool w)) = opt (pool w) ->
  queue (f (pool w)) = queue (pool w) ->
  (forall x, In x (idleConns (f (pool w))) ->
             In x (idleConns (pool w)) \/ In x e) ->
  step e 0 w (withPool f w).
Proof.
  intros Ho Hq Hi.
  split; [split; [exact Ho | split; [simpl; lia |]] | split]; simpl.
  - intros i c Hc. exists c. auto.
  - intros x Hx. destruct (Hi x Hx); auto.
  - lia.
Qed.

Lemma popIdle_step (w w' : World) (cn : ptr) :
  popIdle w = Returned (cn, w') ->
  step [] 0 w w' /\ (cn = None \/ In cn (idleConns (pool w))).
Proof.
  unfold popIdle. destruct (idleConns (pool w)) as [|x l] eqn:Hidle.
  - intro H. inv_ret. split; [apply step_refl | now left].
  - intro H. inv_bind. split.
    + apply checkMinIdleConns_step in Hm.
      eapply step_trans0; [|exact Hm].
      apply step_idle; try reflexivity.
      intros y Hy. left. simpl in Hy. now apply In_removelast.
    + right. change (In (last (x :: l) None) (x :: l)).
      apply In_last. discriminate.
Qed.

Lemma removeConn_step (cn : ptr) (w w' : World) (u : unit) :
  removeConn cn w = Returned (u, w') -> step [] 0 w w'.
Proof.
  unfold removeConn. destruct (removeFirst cn (conns (pool w))) as [cs|].
  - intro H. inv_bind.
    destruct (load_inv _ _ _ _ Hm) as [-> _].
    eapply step_trans0; [apply (step_withPool (setConns cs)); reflexivity|].
    destruct (pooled a); inv_bind; [|apply step_refl].
    apply checkMinIdleConns_step in H.
    eapply step_trans0; [|exact H].
    now apply step_withPool.
  - intro H. inv_ret. apply step_refl.
Qed.

Lemma CloseConn_step (cn : ptr) (w w' : World) (u : option error) :
  CloseConn cn w = Returned (u, w') -> step [] 0 w w'.
Proof.
  unfold CloseConn. intro H. inv_bind.
  eapply step_trans0; [eapply removeConn_step; eauto|].
  eapply closeConn_step; eauto.
Qed.



(** A connection that lost its reader cannot be put back: [Buffered]
    panics. *)
Lemma Put_readerless (i : nat) (c : Conn) (w : World) :
  nth_error (heap w) i = Some c -> Reader c = None ->
  Put (Some i) w = Panic.
Proof.
  intros Hc Hr. unfold Put, bind, onConn, bind, load. rewrite Hc.
  unfold Buffered. now rewrite Hr.
Qed.

Ltac inv_heap :=
  repeat match goal with
    | H : load _ _ = Returned _ |- _ =>
        let i := fresh "i" in
        let Hc := fresh "Hcell" in
        destruct (load_inv _ _ _ _ H) as [-> [i [-> Hc]]]; clear H
    | H : store (Some _) _ _ = Returned _ |- _ =>
        let j := fresh "j" in
        let Hj := fresh "Hj" in
        destruct (store_inv _ _ _ _ _ H) as [j [Hj ->]];
        injection Hj as <-; clear H
    end.

Lemma closed_inv (w w' : World) (b : bool) :
  Pool.closed w = Returned (b, w') ->
  w' = w /\ b = (_closed (pool w) =? 1).
Proof. unfold Pool.closed, gets. intro H. inv_ret. auto. Qed.

Lemma setLastDialError_step (err : error) (w w' : World) (u : unit) :
  setLastDialError err w = Returned (u, w') -> step [] 0 w w'.
Proof.
  unfold setLastDialError. intro H. inv_ret. now apply step_withPool.
Qed.

Lemma dialConn_step (pooled : bool) (w w' : World) (r : result ptr) :
  dialConn pooled w = Returned (r, w') ->
  step [] 0 w w'
  /\ forall x, r = Ok x -> x = None \/ x = Some (length (heap w)).
Proof.
  unfold dialConn. intro H. inv_bind.
  destruct (closed_inv _ _ _ Hm) as [-> ->].
  destruct (_closed (pool w) =? 1).
  { inv_ret. split; [apply step_refl | discriminate]. }
  destruct (uint32 (PoolSize (opt (pool w))) <=? dialErrorsNum (pool w)).
  { destruct (lastDialError (pool w)); inv_ret;
      (split; [apply step_refl|]); [discriminate|].
    intros x [= <-]. now left. }
  destruct (Dialer (opt (pool w)) (dials w)) as [netConn|e].
  - destruct (Connection.NewConn (now w) netConn (channel (opt (pool w)))
                                 (password (opt (pool w))))
      as [[cn|e]| | |]; try discriminate.
    + unfold alloc in H. inv_bind. split.
      * eapply step_trans0; [apply (step_clock w (now w) (S (dials w)))|].
        apply (step_alloc (mkWorld (pool w) (heap w) (now w) (S (dials w))
                                   (tasks w))).
      * intros x [= <-]. now right.
    + inv_ret. split; [apply (step_clock w (now w) (S (dials w))) | discriminate].
  - inv_bind. split; [|discriminate].
    eapply step_trans0; [apply (step_clock w (now w) (S (dials w)))|].
    eapply step_trans0; [eapply setLastDialError_step; eauto|].
    match goal with
    | H : (if ?b then spawn TryDialTask else ret tt) (withPool ?f ?w1)
          = Returned _ |- _ =>
        eapply step_trans0; [apply (step_withPool f w1); reflexivity|];
        destruct b; [apply spawn_step in H; exact H | inv_ret; apply step_refl]
    end.
Qed.


Lemma newConn_step (pooled : bool) (w w' : World) (r : result ptr) :
  newConn pooled w = Returned (r, w') ->
  step [] 0 w w'
  /\ forall x, r = Ok x -> x = None \/ x = Some (length (heap w)).
Proof.
  unfold newConn. intro H. inv_bind.
  destruct (dialConn_step _ _ _ _ Hm) as [Hstep Hres].
  destruct a as [cn|e]; inv_bind; [|split; [exact Hstep | discriminate]].
  split; [|intros x [= <-]; now apply Hres].
  eapply step_trans0; [exact Hstep|].
  eapply step_trans0; [apply (step_withPool (fun p => setConns (conns p ++ [cn]) p) w0); reflexivity|].
  destruct pooled; inv_ret; [|apply step_refl].
  match goal with
  | H : (if ?b then _ else _) = Returned _ |- _ => destruct b
  end.
  - inv_bind. inv_heap.
    match goal with
    | Hc : nth_error _ ?i = Some ?c |- _ => now apply (step_store _ i c)
    end.
  - inv_ret. now apply step_withPool.
Qed.



Lemma step_idleOrFresh (w w' : World) (d : Z) (x : ptr) :
  step [] d w w' -> idleOrFresh w' x -> idleOrFresh w x.
Proof.
  intros [[_ [Hl _]] [Hi _]] [->|[Hx|[i [-> Hlen]]]].
  - now left.
  - destruct (Hi x Hx) as [H|[[]|[->|[i [-> Hlen]]]]].
    + right. now left.
    + now left.
    + right. right. eauto.
  - right. right. exists i. split; [reflexivity | lia].
Qed.

Lemma idleLoop_step (fuel : nat) :
  forall w w' cn,
    idleLoop fuel w = Returned (cn, w') ->
    step [] 0 w w' /\ idleOrFresh w cn.
Proof.
  induction fuel as [|fuel IH]; intros w w' cn H; simpl in H; inv_bind;
    destruct (popIdle_step _ _ _ Hm) as [Hpop Hin];
    (destruct a as [i|]; inv_bind; [|split; [exact Hpop | now left]]);
    pose proof (isStaleConn_inv _ _ _ _ Hm0) as Heq; subst;
    destruct a; inv_bind;
    try (split; [exact Hpop | destruct Hin as [Hin|Hin];
                              [discriminate | right; now left]]).
  apply CloseConn_step in Hm1. apply IH in H. destruct H as [Hloop Hres].
  split.
  - eapply step_trans0; [exact Hpop|].
    eapply step_trans0; [exact Hm1 | exact Hloop].
  - apply (step_idleOrFresh _ _ 0 _ Hpop).
    apply (step_idleOrFresh _ _ 0 _ Hm1). exact Hres.
Qed.

Lemma step_add (w1 w2 w3 : World) (d1 d2 d : Z) :
  step [] d1 w1 w2 -> step [] d2 w2 w3 -> d = d1 + d2 -> step [] d w1 w3.
Proof. intros H1 H2 ->. exact (step_trans [] [] d1 d2 _ _ _ H1 H2). Qed.

Lemma waitTurn_step (ctx : Ctx) (w w' : World) (r : option error) :
  waitTurn ctx w = Returned (r, w') ->
  match r with
  | None => step [] 1 w w'
  | Some _ => step [] 0 w w'
  end.
Proof.
  assert (Htimeout : forall w1 w2 r,
            (sleep (PoolTimeout (opt (pool w))) ;;
             modify (withPool (fun p => setStats (addTimeout (stats p)) p)) ;;
             ret (Some ErrPoolTimeout))%go w1 = Returned (r, w2) ->
            match r with None => step [] 1 w1 w2 | Some _ => step [] 0 w1 w2 end).
  { intros w1 w2 r0 H. inv_bind. apply sleep_step in Hm.
    eapply step_trans0; [exact Hm|].
    apply (step_withPool (fun p => setStats (addTimeout (stats p)) p));
      reflexivity. }
  unfold waitTurn. destruct ctx as [| |d].
  - destruct (queue (pool w) <? PoolSize (opt (pool w))).
    + intro H. inv_ret. apply step_queue. lia.
    + apply Htimeout.
  - intro H. inv_ret. apply step_refl.
  - destruct (queue (pool w) <? PoolSize (opt (pool w))).
    + intro H. inv_ret. apply step_queue. lia.
    + destruct (Z.pos d <? PoolTimeout (opt (pool w))); [|apply Htimeout].
      intro H. inv_bind. eapply sleep_step; eauto.
Qed.

Lemma Get_step (ctx : Ctx) (w w' : World) (r : result ptr) :
  Get ctx w = Returned (r, w') ->
  match r with
  | Ok x => step [] 1 w w' /\ idleOrFresh w x
  | Err _ => step [] 0 w w'
  end.
Proof.
  unfold Get. intro H. inv_bind.
  destruct (closed_inv _ _ _ Hm) as [-> ->].
  destruct (_closed (pool w) =? 1); inv_bind; [apply step_refl|].
  apply waitTurn_step in Hm0.
  destruct a as [e|]; inv_bind; [exact Hm0|].
  destruct (idleLoop_step _ _ _ _ Hm1) as [Hloop Hres].
  assert (Hto : step [] 1 w w0)
    by (eapply step_add; [exact Hm0 | exact Hloop | lia]).
  destruct a as [i|]; inv_bind.
  - split.
    + eapply step_add;
        [exact Hto
        | apply (step_withPool (fun p => setStats (addHit (stats p)) p));
          reflexivity
        | lia].
    + apply (step_idleOrFresh _ _ 1 _ Hm0). exact Hres.
  - destruct (newConn_step _ _ _ _ Hm2) as [Hnew Hfresh].
    match type of Hm2 with
    | newConn true ?wm = _ =>
        assert (Hmiss : step [] 1 w wm)
    end.
    { eapply step_add;
        [exact Hto
        | apply (step_withPool (fun p => setStats (addMiss (stats p)) p));
          reflexivity
        | lia]. }
    destruct a as [newcn|e]; inv_bind.
    + split; [eapply step_add; [exact Hmiss | exact Hnew | lia]|].
      apply (step_idleOrFresh _ _ 1 _ Hmiss).
      destruct (Hfresh newcn eq_refl) as [->| ->]; [now left|].
      right. right. eexists. split; [reflexivity|]. simpl. lia.
    + apply freeTurn_step in Hm3.
      eapply step_add;
        [eapply step_add; [exact Hmiss | exact Hnew | reflexivity]
        | exact Hm3 | lia].
Qed.








(** ** Returning a connection *)

Lemma ptr_eqb_eq (a b : ptr) : ptr_eqb a b = true <-> a = b.
Proof.
  destruct a as [i|], b as [j|]; simpl; split; intro H;
    try discriminate; try reflexivity.
  - apply Nat.eqb_eq in H. now subst.
  - injection H as ->. apply Nat.eqb_refl.
Qed.

Lemma removeFirst_In (x y : ptr) (cs cs' : list ptr) :
  removeFirst x cs = Some cs' -> In y cs' -> In y cs.
Proof.
  revert cs'. induction cs as [|c cs IH]; intros cs'; simpl; [discriminate|].
  destruct (ptr_eqb c x).
  - intros [= <-] Hy. now right.
  - destruct (removeFirst x cs) as [cs0|]; [|discriminate].
    intros [= <-] [->|Hy]; [now left | right; now apply (IH cs0)].
Qed.

Lemma removeFirst_NoDup (x : ptr) (cs cs' : list ptr) :
  NoDup cs -> removeFirst x cs = Some cs' -> ~ In x cs'.
Proof.
  revert cs'. induction cs as [|c cs IH]; intros cs' Hnd; simpl; [discriminate|].
  inversion Hnd as [|c0 cs0 Hnotin Hnd']; subst.
  destruct (ptr_eqb c x) eqn:Heq.
  - apply ptr_eqb_eq in Heq. subst c. now intros [= <-].
  - destruct (removeFirst x cs) as [cs0|] eqn:Hrem; [|discriminate].
    intros [= <-] [->|Hin].
    + assert (ptr_eqb x x = true) by now apply ptr_eqb_eq. congruence.
    + now apply (IH cs0).
Qed.

Lemma removeFirst_None (x : ptr) (cs : list ptr) :
  removeFirst x cs = None -> ~ In x cs.
Proof.
  induction cs as [|c cs IH]; simpl; [tauto|].
  destruct (ptr_eqb c x) eqn:Heq; [discriminate|].
  destruct (removeFirst x cs); [discriminate|].
  intros _ [->|Hin]; [|now apply IH].
  assert (ptr_eqb x x = true) by now apply ptr_eqb_eq. congruence.
Qed.

Lemma sameConns_refl (w : World) : sameConns w w.
Proof. repeat split. Qed.

Lemma sameConns_trans (w1 w2 w3 : World) :
  sameConns w1 w2 -> sameConns w2 w3 -> sameConns w1 w3.
Proof.
  intros (H1 & H2 & H3 & H4 & H5) (H1' & H2' & H3' & H4' & H5').
  repeat split; congruence.
Qed.

(** The loop of [checkMinIdleConns] ends within [PoolSize - poolSize]
    iterations. *)
Lemma warmUp_returns (fuel : nat) :
  forall w,
    (Z.to_nat (PoolSize (opt (pool w)) - poolSize (pool w)) <= fuel)%nat ->
    exists w', warmUp fuel w = Returned (tt, w') /\ sameConns w w'.
Proof.
  induction fuel as [|fuel IH]; intros w Hfuel; simpl;
    destruct (Z.ltb_spec (poolSize (pool w)) (PoolSize (opt (pool w))))
      as [Hlt|Hge]; simpl;
    try (exists w; split; [reflexivity | apply sameConns_refl]);
    try lia;
    destruct (idleConnsLen (pool w) <? MinIdleConns (opt (pool w)));
    try (exists w; split; [reflexivity | apply sameConns_refl]).
  unfold bind, spawn, modify. cbv beta iota.
  match goal with
  | |- exists w', warmUp fuel ?w1 = _ /\ _ =>
      destruct (IH w1) as [w' [Hw' Hsame]]; [simpl; lia|];
      exists w'; split; [exact Hw'|];
      apply (sameConns_trans w w1 w'); [repeat split | exact Hsame]
  end.
Qed.

Lemma checkMinIdleConns_returns (w : World) :
  exists w', checkMinIdleConns w = Returned (tt, w') /\ sameConns w w'.
Proof.
  unfold checkMinIdleConns. destruct (MinIdleConns (opt (pool w)) =? 0).
  - exists w. split; [reflexivity | apply sameConns_refl].
  - apply warmUp_returns. lia.
Qed.

Lemma removeConn_returns (i : nat) (c : Conn) (w : World) :
  nth_error (heap w) i = Some c ->
  exists w',
    removeConn (Some i) w = Returned (tt, w')
    /\ heap w' = heap w
    /\ idleConns (pool w') = idleConns (pool w)
    /\ queue (pool w') = queue (pool w)
    /\ (forall y, In y (conns (pool w')) -> In y (conns (pool w)))
    /\ (NoDup (conns (pool w)) -> ~ In (Some i) (conns (pool w'))).
Proof.
  intro Hc. unfold removeConn.
  destruct (removeFirst (Some i) (conns (pool w))) as [cs|] eqn:Hrem.
  - unfold bind, modify, load. simpl. rewrite Hc.
    destruct (pooled c).
    + match goal with
      | |- exists w', checkMinIdleConns ?w1 = _ /\ _ =>
          destruct (checkMinIdleConns_returns w1)
            as [w' [Hw' (H1 & H2 & H3 & H4 & H5)]]
      end.
      exists w'. split; [exact Hw'|]. simpl in *.
      rewrite H1, H2, H3, H4. repeat split; try reflexivity.
      * intros y Hy. eapply removeFirst_In; eauto.
      * intro Hnd. eapply removeFirst_NoDup; eauto.
    + eexists. split; [reflexivity|]. simpl. repeat split.
      * intros y Hy. eapply removeFirst_In; eauto.
      * intro Hnd. eapply removeFirst_NoDup; eauto.
  - exists w. split; [reflexivity|]. repeat split; auto.
    intros _. now apply removeFirst_None.
Qed.

Lemma nth_error_setNth_same {A} (i : nat) (x y : A) (xs : list A) :
  nth_error xs i = Some y -> nth_error (setNth i x xs) i = Some x.
Proof.
  intro H. rewrite nth_error_setNth, Nat.eqb_refl, H. reflexivity.
Qed.

Lemma Remove_returns (i : nat) (c : Conn) (reason : option error) (w : World) :
  nth_error (heap w) i = Some c ->
  0 < queue (pool w) ->
  exists w',
    Remove (Some i) reason w = Returned (tt, w')
    /\ queue (pool w') = queue (pool w) - 1
    /\ idleConns (pool w') = idleConns (pool w)
    /\ nth_error (heap w') i = Some (Connection.Close c)
    /\ (NoDup (conns (pool w)) -> ~ In (Some i) (conns (pool w'))).
Proof.
  intros Hc Hq.
  destruct (removeConn_returns i c w Hc) as [w1 (Hrm & Hh & Hi & Hq1 & _ & Hnd)].
  unfold Remove, bind. rewrite Hrm.
  unfold freeTurn. rewrite Hq1.
  replace (0 <? queue (pool w)) with true by (symmetry; apply Z.ltb_lt; exact Hq).
  unfold closeConn, bind, load, store. simpl. rewrite Hh, Hc.
  eexists. split; [reflexivity|]. simpl.
  repeat split; auto.
  eapply nth_error_setNth_same. rewrite Hh. exact Hc.
Qed.

Lemma onConn_Buffered_run (i : nat) (c : Conn) (b : nat) (w : World) :
  nth_error (heap w) i = Some c -> Reader c = Some b ->
  onConn (Some i) Buffered w = Returned (Z.of_nat b, w).
Proof.
  intros Hc Hr. unfold onConn, bind, load, Buffered, store, ret.
  rewrite Hc, Hr. rewrite setNth_same by exact Hc. now destruct w.
Qed.








(** ** Dial failures *)

Lemma dialConn_open (pooled : bool) (w : World) :
  _closed (pool w) <> 1 ->
  dialConn pooled w
  = (let p := pool w in
     if uint32 (PoolSize (opt p)) <=? dialErrorsNum p then
       match lastDialError p with
       | Some e => Returned (Err e, w)
       | None => Returned (Ok None, w)
       end
     else
       let w1 := mkWorld p (heap w) (now w) (S (dials w)) (tasks w) in
       match Dialer (opt p) (dials w) with
       | Err e =>
           (setLastDialError e ;;
            modify (withPool (fun p =>
              setDialErrors (uint32 (dialErrorsNum p + 1))
                            (lastDialError p) p)) ;;
            n <- gets (fun w => dialErrorsNum (pool w)) ;;
            (if n =? uint32 (PoolSize (opt p))
             then spawn TryDialTask else ret tt) ;;
            ret (Err e))%go w1
       | Ok netConn =>
           match Connection.NewConn (now w) netConn (channel (opt p))
                                    (password (opt p)) with
           | Returned (Ok cn) =>
               (a <- alloc (setPooled pooled cn) ;; ret (Ok a))%go w1
           | Returned (Err e) => Returned (Err e, w1)
           | Panic => Panic
           | Blocked => Blocked
           | OutOfFuel => OutOfFuel
           end
       end).
Proof.
  intro Hopen. unfold dialConn, bind at 1, Pool.closed, gets.
  apply Z.eqb_neq in Hopen. rewrite Hopen. reflexivity.
Qed.

Lemma dialConn_failure (pooled : bool) (w : World) (e : error) :
  _closed (pool w) <> 1 ->
  dialErrorsNum (pool w) < uint32 (PoolSize (opt (pool w))) ->
  Dialer (opt (pool w)) (dials w) = Err e ->
  exists w',
    dialConn pooled w = Returned (Err e, w')
    /\ dialErrorsNum (pool w') = uint32 (dialErrorsNum (pool w) + 1)
    /\ lastDialError (pool w') = Some e
    /\ dials w' = S (dials w)
    /\ tasks w'
       = tasks w ++ (if dialErrorsNum (pool w') =? uint32 (PoolSize (opt (pool w)))
                     then [TryDialTask] else []).
Proof.
  intros Hopen Hlow Hdial. rewrite dialConn_open by exact Hopen. cbv zeta.
  apply Z.leb_gt in Hlow. rewrite Hlow, Hdial.
  unfold bind, setLastDialError, modify, gets, spawn, ret. simpl.
  destruct (uint32 (dialErrorsNum (pool w) + 1)
            =? uint32 (PoolSize (opt (pool w)))) eqn:Hreach;
    eexists; (split; [reflexivity|]); simpl; rewrite ?Hreach;
    repeat split; auto using app_nil_r.
Qed.

Lemma dialConn_success_keeps_count
      (pooled : bool) (w w' : World) (netConn : NetConn) (r : result ptr) :
  _closed (pool w) <> 1 ->
  dialErrorsNum (pool w) < uint32 (PoolSize (opt (pool w))) ->
  Dialer (opt (pool w)) (dials w) = Ok netConn ->
  dialConn pooled w = Returned (r, w') ->
  dialErrorsNum (pool w') = dialErrorsNum (pool w) /\ dials w' = S (dials w).
Proof.
  intros Hopen Hlow Hdial. rewrite dialConn_open by exact Hopen. cbv zeta.
  apply Z.leb_gt in Hlow. rewrite Hlow, Hdial.
  destruct (Connection.NewConn (now w) netConn (channel (opt (pool w)))
                               (password (opt (pool w))))
    as [[cn|e]| | |]; try discriminate.
  - unfold bind, alloc, ret. intro H. inv_ret. split; reflexivity.
  - intro H. inv_ret. split; reflexivity.
Qed.

Lemma dialConn_short_circuit (pooled : bool) (w : World) :
  _closed (pool w) <> 1 ->
  uint32 (PoolSize (opt (pool w))) <= dialErrorsNum (pool w) ->
  dialConn pooled w
  = Returned (match lastDialError (pool w) with
              | Some e => Err e
              | None => Ok None
              end, w).
Proof.
  intros Hopen Hhigh. rewrite dialConn_open by exact Hopen. cbv zeta.
  apply Z.leb_le in Hhigh. rewrite Hhigh.
  now destruct (lastDialError (pool w)).
Qed.

Lemma bind_run {S A B} (m : M S A) (k : A -> M S B) (s s' : S) (a : A) :
  m s = Returned (a, s') -> bind m k s = k a s'.
Proof. intro H. unfold bind. now rewrite H. Qed.

Lemma popIdle_empty (w : World) :
  idleConns (pool w) = [] -> popIdle w = Returned (None, w).
Proof. intro H. unfold popIdle. now rewrite H. Qed.

Lemma idleLoop_empty (fuel : nat) (w : World) :
  idleConns (pool w) = [] -> idleLoop fuel w = Returned (None, w).
Proof.
  intro H. destruct fuel; simpl;
    now rewrite (bind_run _ _ _ _ _ (popIdle_empty w H)).
Qed.

Lemma newConn_short_circuit (pooled : bool) (w : World) (e : error) :
  _closed (pool w) <> 1 ->
  uint32 (PoolSize (opt (pool w))) <= dialErrorsNum (pool w) ->
  lastDialError (pool w) = Some e ->
  newConn pooled w = Returned (Err e, w).
Proof.
  intros Hopen Hhigh Hlast. unfold newConn.
  rewrite (bind_run _ _ w w (Err e)); [reflexivity|].
  rewrite dialConn_short_circuit by assumption. now rewrite Hlast.
Qed.

Lemma Get_short_circuit (ctx : Ctx) (w : World) (e : error) :
  _closed (pool w) <> 1 ->
  ctx <> Canceled ->
  0 <= queue (pool w) < PoolSize (opt (pool w)) ->
  idleConns (pool w) = [] ->
  uint32 (PoolSize (opt (pool w))) <= dialErrorsNum (pool w) ->
  lastDialError (pool w) = Some e ->
  exists w',
    Get ctx w = Returned (Err e, w')
    /\ dials w' = dials w
    /\ heap w' = heap w
    /\ queue (pool w') = queue (pool w).
Proof.
  intros Hopen Hctx [Hq0 Hq] Hidle Hhigh Hlast.
  pose proof Hopen as Hopen'. apply Z.eqb_neq in Hopen'.
  apply Z.ltb_lt in Hq.
  set (w1 := withPool (setQueue (queue (pool w) + 1)) w).
  set (w2 := withPool (fun p => setStats (addMiss (stats p)) p) w1).
  assert (Hwait : waitTurn ctx w = Returned (None, w1)).
  { unfold waitTurn. destruct ctx; try contradiction; now rewrite Hq. }
  assert (Hloop : idleLoop (length (idleConns (pool w1))) w1
                  = Returned (None, w1))
    by (apply idleLoop_empty; exact Hidle).
  assert (Hnew : newConn true w2 = Returned (Err e, w2))
    by (apply newConn_short_circuit; assumption).
  assert (Hfree : freeTurn w2
                  = Returned (tt, withPool (setQueue (queue (pool w2) - 1)) w2)).
  { unfold freeTurn.
    replace (0 <? queue (pool w2)) with true; [reflexivity|].
    symmetry. apply Z.ltb_lt. simpl. lia. }
  exists (withPool (setQueue (queue (pool w2) - 1)) w2). split.
  - unfold Get.
    rewrite (bind_run _ _ w w false)
      by (unfold Pool.closed, gets; now rewrite Hopen').
    rewrite (bind_run _ _ _ _ _ Hwait).
    rewrite (bind_run _ _ w1 w1 (length (idleConns (pool w1))))
      by reflexivity.
    rewrite (bind_run _ _ _ _ _ Hloop).
    rewrite (bind_run _ _ w1 w2 tt) by reflexivity.
    rewrite (bind_run _ _ _ _ _ Hnew).
    rewrite (bind_run _ _ _ _ _ Hfree).
    reflexivity.
  - simpl. repeat split. lia.
Qed.

Lemma addIdleConn_short_circuit (w : World) (e : error) :
  _closed (pool w) <> 1 ->
  uint32 (PoolSize (opt (pool w))) <= dialErrorsNum (pool w) ->
  lastDialError (pool w) = Some e ->
  addIdleConn w = Returned (Some e, w).
Proof.
  intros Hopen Hhigh Hlast. unfold addIdleConn, bind.
  rewrite dialConn_short_circuit by assumption. now rewrite Hlast.
Qed.

Lemma tryDial_open (fuel : nat) (w : World) :
  _closed (pool w) <> 1 ->
  tryDial fuel w
  = (let p := pool w in
     let w1 := mkWorld p (heap w) (now w) (S (dials w)) (tasks w) in
     match Dialer (opt p) (dials w) with
     | Err e =>
         (setLastDialError e ;;
          sleep second ;;
          match fuel with
          | O => outOfFuel
          | S fuel' => tryDial fuel'
          end)%go w1
     | Ok _ =>
         (modify (withPool (fun p => setDialErrors 0 (lastDialError p) p))) w1
     end).
Proof.
  intro Hopen. apply Z.eqb_neq in Hopen.
  destruct fuel; simpl; unfold bind at 1, Pool.closed, gets;
    rewrite Hopen; reflexivity.
Qed.

(** The prober: [n] failed dials, a second of sleep after each, then the
    dial that succeeds and the reset. *)
Lemma tryDial_until_success (n : nat) :
  forall fuel w,
    _closed (pool w) <> 1 ->
    (n <= fuel)%nat ->
    (forall k, (k < n)%nat ->
               exists e, Dialer (opt (pool w)) (dials w + k) = Err e) ->
    (exists nc, Dialer (opt (pool w)) (dials w + n) = Ok nc) ->
    exists w',
      tryDial fuel w = Returned (tt, w')
      /\ dialErrorsNum (pool w') = 0
      /\ dials w' = (dials w + n + 1)%nat
      /\ now w' = now w + Z.of_nat n * second
      /\ heap w' = heap w
      /\ opt (pool w') = opt (pool w).
Proof.
  induction n as [|n IH]; intros fuel w Hopen Hfuel Hfail [nc Hok].
  - rewrite tryDial_open by exact Hopen. cbv zeta.
    rewrite Nat.add_0_r in Hok. rewrite Hok.
    eexists. split; [reflexivity|]. simpl. repeat split; lia.
  - destruct fuel as [|fuel]; [lia|].
    rewrite tryDial_open by exact Hopen. cbv zeta.
    destruct (Hfail O) as [e He]; [lia|].
    rewrite Nat.add_0_r in He. rewrite He.
    unfold bind, setLastDialError, sleep, modify. simpl.
    match goal with
    | |- exists w', tryDial fuel ?w1 = _ /\ _ =>
        destruct (IH fuel w1) as [w' (Hrun & Hzero & Hdials & Hnow & Hheap & Hopt)]
    end.
    + exact Hopen.
    + lia.
    + intros k Hk. simpl. destruct (Hfail (S k)) as [e' He']; [lia|].
      exists e'. rewrite <- He'. f_equal. lia.
    + exists nc. simpl. rewrite <- Hok. f_equal. lia.
    + exists w'. split; [exact Hrun|]. simpl in *.
      repeat split; try assumption; try lia.
      rewrite Hnow. unfold second. lia.
Qed.

(** C6, as the claim states it, fails on a dial that succeeds between two
    failures: the counter stays at 1 after the successful dial of the
    second [Get], so the failure of the third [Get] brings it to the
    capacity, 2, and starts the prober although no two failures were
    consecutive. *)
Lemma dial_failure_counter_survives_a_successful_dial :
  Get Background flakyWorld = Returned (Err (NetError 1), flaky1)
  /\ dialErrorsNum (pool flaky1) = 1
  /\ Get Background flaky1 = Returned (Ok (Some O), flaky2)
  /\ dialErrorsNum (pool flaky2) = 1
  /\ Get Background flaky2 = Returned (Err (NetError 2), flaky3)
  /\ dialErrorsNum (pool flaky3) = 2
  /\ PoolSize (opt (pool flaky3)) = 2
  /\ In TryDialTask (tasks flaky3).
Proof.
  vm_compute. repeat split. tauto.
Qed.

(** C6 (amended).  While the pool is open: a failed dial of [dialConn]
    records the error, adds one to the counter and starts the prober when
    the counter becomes equal to the capacity; a dial that succeeds leaves
    the counter as it is; while the counter is at or above the capacity,
    [dialConn] returns the last recorded error without dialing, and so do
    a [Get] that finds no idle connection and a warm-up; the prober,
    meeting [n] failed dials and then a successful one, sleeps one second
    after each failure and resets the counter to zero. *)
Theorem dial_failures_are_counted_until_the_prober_succeeds :
  (forall pooled w e,
      _closed (pool w) <> 1 ->
      dialErrorsNum (pool w) < uint32 (PoolSize (opt (pool w))) ->
      Dialer (opt (pool w)) (dials w) = Err e ->
      exists w',
        dialConn pooled w = Returned (Err e, w')
        /\ dialErrorsNum (pool w') = uint32 (dialErrorsNum (pool w) + 1)
        /\ lastDialError (pool w') = Some e
        /\ dials w' = S (dials w)
        /\ tasks w'
           = tasks w
             ++ (if dialErrorsNum (pool w') =? uint32 (PoolSize (opt (pool w)))
                 then [TryDialTask] else []))
  /\ (forall pooled w w' netConn r,
         _closed (pool w) <> 1 ->
         dialErrorsNum (pool w) < uint32 (PoolSize (opt (pool w))) ->
         Dialer (opt (pool w)) (dials w) = Ok netConn ->
         dialConn pooled w = Returned (r, w') ->
         dialErrorsNum (pool w') = dialErrorsNum (pool w)
         /\ dials w' = S (dials w))
  /\ (forall pooled w,
         _closed (pool w) <> 1 ->
         uint32 (PoolSize (opt (pool w))) <= dialErrorsNum (pool w) ->
         dialConn pooled w
         = Returned (match lastDialError (pool w) with
                     | Some e => Err e
                     | None => Ok None
                     end, w))
  /\ (forall ctx w e,
         _closed (pool w) <> 1 ->
         ctx <> Canceled ->
         0 <= queue (pool w) < PoolSize (opt (pool w)) ->
         idleConns (pool w) = [] ->
         uint32 (PoolSize (opt (pool w))) <= dialErrorsNum (pool w) ->
         lastDialError (pool w) = Some e ->
         exists w',
           Get ctx w = Returned (Err e, w')
           /\ dials w' = dials w
           /\ heap w' = heap w
           /\ queue (pool w') = queue (pool w))
  /\ (forall w e,
         _closed (pool w) <> 1 ->
         uint32 (PoolSize (opt (pool w))) <= dialErrorsNum (pool w) ->
         lastDialError (pool w) = Some e ->
         addIdleConn w = Returned (Some e, w))
  /\ (forall n fuel w,
         _closed (pool w) <> 1 ->
         (n <= fuel)%nat ->
         (forall k, (k < n)%nat ->
                    exists e, Dialer (opt (pool w)) (dials w + k) = Err e) ->
         (exists nc, Dialer (opt (pool w)) (dials w + n) = Ok nc) ->
         exists w',
           tryDial fuel w = Returned (tt, w')
           /\ dialErrorsNum (pool w') = 0
           /\ dials w' = (dials w + n + 1)%nat
           /\ now w' = now w + Z.of_nat n * second
           /\ heap w' = heap w
           /\ opt (pool w') = opt (pool w)).
Proof.
  split; [exact dialConn_failure|].
  split; [exact dialConn_success_keeps_count|].
  split; [exact dialConn_short_circuit|].
  split; [exact Get_short_circuit|].
  split; [exact addIdleConn_short_circuit|].
  intros n fuel w. apply tryDial_until_success.
Qed.

Lemma dial_failures_are_counted_until_the_prober_succeeds_witness :
  (_closed (pool flakyWorld) <> 1
   /\ dialErrorsNum (pool flakyWorld) < uint32 (PoolSize (opt (pool flakyWorld)))
   /\ Dialer (opt (pool flakyWorld)) (dials flakyWorld) = Err (NetError 1)
   /\ exists w',
        dialConn true flakyWorld = Returned (Err (NetError 1), w')
        /\ dialErrorsNum (pool w') = uint32 (dialErrorsNum (pool flakyWorld) + 1))
  /\ (_closed (pool flaky3) <> 1
      /\ uint32 (PoolSize (opt (pool flaky3))) <= dialErrorsNum (pool flaky3)
      /\ lastDialError (pool flaky3) = Some (NetError 2)
      /\ dialConn true flaky3 = Returned (Err (NetError 2), flaky3)
      /\ addIdleConn flaky3 = Returned (Some (NetError 2), flaky3))
  /\ (Background <> Canceled
      /\ 0 <= queue (pool flaky3) < PoolSize (opt (pool flaky3))
      /\ idleConns (pool flaky3) = []
      /\ exists w',
           Get Background flaky3 = Returned (Err (NetError 2), w')
           /\ dials w' = dials flaky3)
  /\ ((2 <= 2)%nat
      /\ (forall k, (k < 2)%nat ->
            exists e, Dialer (opt (pool flaky3)) (dials flaky3 + k) = Err e)
      /\ (exists nc, Dialer (opt (pool flaky3)) (dials flaky3 + 2) = Ok nc)
      /\ exists w',
           tryDial 2 flaky3 = Returned (tt, w')
           /\ dialErrorsNum (pool w') = 0
           /\ dials w' = (dials flaky3 + 2 + 1)%nat
           /\ now w' = now flaky3 + Z.of_nat 2 * second).
Proof.
  destruct dial_failures_are_counted_until_the_prober_succeeds
    as (Hfail & _ & Hshort & HGet & Hwarm & Hprobe).
  assert (Hopen0 : _closed (pool flakyWorld) <> 1) by (vm_compute; discriminate).
  assert (Hlow0 : dialErrorsNum (pool flakyWorld)
                  < uint32 (PoolSize (opt (pool flakyWorld))))
    by (vm_compute; reflexivity).
  assert (Hdial0 : Dialer (opt (pool flakyWorld)) (dials flakyWorld)
                   = Err (NetError 1)) by (vm_compute; reflexivity).
  assert (Hopen3 : _closed (pool flaky3) <> 1) by (vm_compute; discriminate).
  assert (Hhigh3 : uint32 (PoolSize (opt (pool flaky3)))
                   <= dialErrorsNum (pool flaky3))
    by (vm_compute; discriminate).
  assert (Hlast3 : lastDialError (pool flaky3) = Some (NetError 2))
    by (vm_compute; reflexivity).
  assert (Hq3 : 0 <= queue (pool flaky3) < PoolSize (opt (pool flaky3)))
    by (vm_compute; split; [discriminate | reflexivity]).
  assert (Hidle3 : idleConns (pool flaky3) = []) by (vm_compute; reflexivity).
  assert (Hfails : forall k, (k < 2)%nat ->
            exists e, Dialer (opt (pool flaky3)) (dials flaky3 + k) = Err e).
  { intros k Hk. assert (Hcases : k = 0%nat \/ k = 1%nat) by lia.
    destruct Hcases as [-> | ->]; eexists; vm_compute; reflexivity. }
  assert (Hok : exists nc, Dialer (opt (pool flaky3)) (dials flaky3 + 2) = Ok nc)
    by (eexists; vm_compute; reflexivity).
  split; [|split; [|split]].
  - split; [exact Hopen0 | split; [exact Hlow0 | split; [exact Hdial0 |]]].
    destruct (Hfail true flakyWorld (NetError 1) Hopen0 Hlow0 Hdial0)
      as [w' (H1 & H2 & _)].
    exists w'. split; assumption.
  - split; [exact Hopen3 | split; [exact Hhigh3 | split; [exact Hlast3 |]]].
    split.
    + rewrite (Hshort true flaky3 Hopen3 Hhigh3). now rewrite Hlast3.
    + exact (Hwarm flaky3 (NetError 2) Hopen3 Hhigh3 Hlast3).
  - split; [discriminate | split; [exact Hq3 | split; [exact Hidle3 |]]].
    destruct (HGet Background flaky3 (NetError 2) Hopen3 ltac:(discriminate)
                   Hq3 Hidle3 Hhigh3 Hlast3) as [w' (H1 & H2 & _)].
    exists w'. split; assumption.
  - split; [lia | split; [exact Hfails | split; [exact Hok |]]].
    destruct (Hprobe 2%nat 2%nat flaky3 Hopen3 ltac:(lia) Hfails Hok)
      as [w' (H1 & H2 & H3 & H4 & _)].
    exists w'. repeat split; assumption.
Defined.

(** ** The time stamp of the last use *)

(** C2 fails on the code: [Get] writes no [usedAt].  A connection that
    existed before the call and is returned by it (it was popped from the
    idle connections) has the [usedAt] it had. *)
Theorem Get_leaves_usedAt_of_a_reused_connection
        (ctx : Ctx) (w w' : World) (i : nat) (c : Conn) :
  Get ctx w = Returned (Ok (Some i), w') ->
  nth_error (heap w) i = Some c ->
  exists c', nth_error (heap w') i = Some c' /\ usedAt c' = usedAt c.
Proof.
  intros HGet Hc. apply Get_step in HGet.
  destruct HGet as [[[_ [_ Hcell]] _] _].
  destruct (Hcell i c Hc) as [c' [Hc' [Hu _]]]. eauto.
Qed.

Lemma Get_leaves_usedAt_of_a_reused_connection_witness :
  Get Background tenSecondsLater
  = Returned (Ok (Some O), after (Get Background) tenSecondsLater)
  /\ nth_error (heap tenSecondsLater) 0 = Some (nth 0 (heap tenSecondsLater) zeroConn)
  /\ usedAt (nth 0 (heap tenSecondsLater) zeroConn) = 0
  /\ Unix (now tenSecondsLater) = 10
  /\ exists c',
       nth_error (heap (after (Get Background) tenSecondsLater)) 0 = Some c'
       /\ usedAt c' = usedAt (nth 0 (heap tenSecondsLater) zeroConn).
Proof.
  assert (H1 : Get Background tenSecondsLater
               = Returned (Ok (Some O), after (Get Background) tenSecondsLater))
    by (vm_compute; reflexivity).
  assert (H2 : nth_error (heap tenSecondsLater) 0
               = Some (nth 0 (heap tenSecondsLater) zeroConn))
    by (vm_compute; reflexivity).
  split; [exact H1 | split; [exact H2 |
    split; [vm_compute; reflexivity | split; [vm_compute; reflexivity |]]]].
  exact (Get_leaves_usedAt_of_a_reused_connection Background tenSecondsLater _
           O _ H1 H2).
Defined.

(** What follows from it under the options of the facades (idle timeout
    30 s): the connection handed out again at 10 s and returned at once is
    found stale at 31 s, 21 s after its last use, and closed; the [Get] of
    that moment dials a new connection, which [NewConn] stamps with the
    time of the dial. *)
Example reused_connection_is_evicted_by_its_age :
  let w31 := after (Get Background ;; Put (Some O) ;; sleep (21 * second))%go
                   tenSecondsLater in
  Unix (now w31) = 31
  /\ idleConns (pool w31) = [Some O]
  /\ isStaleConn (Some O) w31 = Returned (true, w31)
  /\ Get Background w31 = Returned (Ok (Some 1%nat), after (Get Background) w31)
  /\ map usedAt (heap (after (Get Background) w31)) = [0; 31]
  /\ map Connection.closed (heap (after (Get Background) w31)) = [true; false].
Proof. vm_compute. repeat split. Qed.

(** ** The facades and the pool *)

Lemma lift_inv {A} (o : outcome A) (w w' : World) (a : A) :
  lift o w = Returned (a, w') -> w' = w /\ o = Returned a.
Proof. unfold lift. destruct o; intro H; inv_ret. auto. Qed.

Lemma exchange_pool (conn : ptr) (buf : gostring) (w w' : World)
      (r : result gostring) :
  exchange conn buf w = Returned (r, w') -> pool w' = pool w.
Proof.
  unfold exchange. intro H. inv_bind.
  apply onConn_pool in Hm. destruct a.
  - inv_ret. exact Hm.
  - apply onConn_pool in H. congruence.
Qed.

Lemma pushChunks_pool (conn : ptr) (collection bucket object : gostring)
      (chunks : list gostring) :
  forall w w' r,
    pushChunks conn collection bucket object chunks w = Returned (r, w') ->
    pool w' = pool w.
Proof.
  induction chunks as [|chunk chunks IH]; intros w w' r H; simpl in H; inv_bind.
  - reflexivity.
  - apply exchange_pool in Hm. destruct a; inv_ret.
    + apply IH in H. congruence.
    + exact Hm.
Qed.

Lemma Get_takes_a_token (ctx : Ctx) (w w1 : World) (conn : ptr) :
  Get ctx w = Returned (Ok conn, w1) -> queue (pool w1) = queue (pool w) + 1.
Proof. intro H. apply Get_step in H. now destruct H as [[_ [_ Hq]] _]. Qed.

Lemma counting_keepsCheckedOut (buf : gostring) :
  keepsCheckedOut (fun ctx => counting ctx buf).
Proof.
  intros ctx w conn w1 a w' HGet Hop.
  pose proof (Get_takes_a_token _ _ _ _ HGet) as Hq.
  unfold counting in Hop. rewrite (bind_run _ _ _ _ _ HGet) in Hop. inv_bind.
  apply exchange_pool in Hm.
  assert (pool w' = pool w1).
  { destruct a0; inv_ret; [|exact Hm].
    apply lift_inv in Hop. destruct Hop as [-> _]. exact Hm. }
  split; [assumption | congruence].
Qed.

(** C1 fails on the code: no operation of the facades calls [Put] or
    [Remove].  Whatever an operation answers, a result or an error, the
    pool is, when it returns, as [Get] left it: the admission token is
    still held and the connection is neither put back nor removed. *)
Theorem facade_operations_keep_the_connection_checked_out :
  (forall collection bucket term limit offset,
      keepsCheckedOut (fun ctx => Query ctx collection bucket term limit offset))
  /\ (forall fuel collection bucket object text,
         keepsCheckedOut (fun ctx => Push fuel ctx collection bucket object text))
  /\ (forall collection bucket object text,
         keepsCheckedOut (fun ctx => Pop ctx collection bucket object text))
  /\ (forall collection bucket object,
         keepsCheckedOut (fun ctx => Count ctx collection bucket object))
  /\ (forall collection bucket,
         keepsCheckedOut (fun ctx => FlushB ctx collection bucket))
  /\ (forall collection,
         keepsCheckedOut (fun ctx => FlushC ctx collection))
  /\ (forall collection bucket object,
         keepsCheckedOut (fun ctx => FlushO ctx collection bucket object)).
Proof.
  split; [|split; [|split; [|split; [|split; [|split]]]]];
    try (intros; apply counting_keepsCheckedOut).
  - intros collection bucket term limit offset ctx w conn w1 a w' HGet Hop.
    pose proof (Get_takes_a_token _ _ _ _ HGet) as Hq.
    unfold Query in Hop. rewrite (bind_run _ _ _ _ _ HGet) in Hop. inv_bind.
    assert (pool w' = pool w1); [|split; [assumption | congruence]].
    repeat match goal with
      | H : onConn _ _ _ = Returned _ |- _ => apply onConn_pool in H
      | H : lift _ _ = Returned _ |- _ =>
          apply lift_inv in H; destruct H as [-> _]
      | H : match ?x with _ => _ end _ = Returned _ |- _ =>
          destruct x; inv_bind
      end; congruence.
  - intros fuel collection bucket object text ctx w conn w1 a w' HGet Hop.
    pose proof (Get_takes_a_token _ _ _ _ HGet) as Hq.
    unfold Push in Hop. rewrite (bind_run _ _ _ _ _ HGet) in Hop. inv_bind.
    inv_heap. apply lift_inv in Hm0. destruct Hm0 as [-> _].
    apply pushChunks_pool in Hop. split; [assumption | congruence].
  - intros collection bucket object text ctx w conn w1 a w' HGet Hop.
    pose proof (Get_takes_a_token _ _ _ _ HGet) as Hq.
    unfold Pop in Hop. rewrite (bind_run _ _ _ _ _ HGet) in Hop. inv_bind.
    apply exchange_pool in Hm.
    assert (pool w' = pool w1) by (destruct a0; inv_ret; exact Hm).
    split; [assumption | congruence].
Qed.

Lemma facade_operations_keep_the_connection_checked_out_witness :
  Get Background searchWorld
  = Returned (Ok (Some O), after (Get Background) searchWorld)
  /\ Query Background (bytes "col") (bytes "buck") (bytes "cat") 10 0 searchWorld
     = Returned (Ok [bytes "id1"; bytes "id2"; bytes "id3"],
                 after (Query Background (bytes "col") (bytes "buck")
                              (bytes "cat") 10 0) searchWorld)
  /\ pool (after (Query Background (bytes "col") (bytes "buck")
                        (bytes "cat") 10 0) searchWorld)
     = pool (after (Get Background) searchWorld)
  /\ queue (pool (after (Query Background (bytes "col") (bytes "buck")
                               (bytes "cat") 10 0) searchWorld))
     = queue (pool searchWorld) + 1.
Proof.
  assert (H1 : Get Background searchWorld
               = Returned (Ok (Some O), after (Get Background) searchWorld))
    by (vm_compute; reflexivity).
  assert (H2 : Query Background (bytes "col") (bytes "buck") (bytes "cat") 10 0
                     searchWorld
               = Returned (Ok [bytes "id1"; bytes "id2"; bytes "id3"],
                           after (Query Background (bytes "col") (bytes "buck")
                                        (bytes "cat") 10 0) searchWorld))
    by (vm_compute; reflexivity).
  split; [exact H1 | split; [exact H2 |]].
  exact (proj1 facade_operations_keep_the_connection_checked_out
           (bytes "col") (bytes "buck") (bytes "cat") 10 0
           Background searchWorld (Some O) _ _ _ H1 H2).
Defined.

(** With the capacity of 40 that both constructors set, forty operations
    take every admission token, and the next one waits for the pool timeout
    and fails, whatever the server does. *)
Example forty_first_Query_times_out :
  exists w40 w41,
    times 40 queryCat searchWorld = Returned (tt, w40)
    /\ queue (pool w40) = 40
    /\ idleConns (pool w40) = []
    /\ queryCat w40 = Returned (Err ErrPoolTimeout, w41)
    /\ now w41 = now w40 + PoolTimeout (opt (pool w40)).
Proof.
  exists (after (times 40 queryCat) searchWorld).
  exists (after queryCat (after (times 40 queryCat) searchWorld)).
  vm_compute. repeat split.
Qed.

(** * Further properties of the code *)

(** ** Reading, writing and closing a connection *)

Lemma read_closed (c : Conn) :
  Connection.closed c = true -> read c = Returned (Err ErrClosed, c).
Proof. intro H. unfold read. now rewrite H. Qed.

Lemma write_closed (str : gostring) (c : Conn) :
  Connection.closed c = true -> write str c = Returned (Some ErrClosed, c).
Proof. intro H. unfold write. now rewrite H. Qed.

(** X1.  A read that meets the end of the stream closes the connection:
    the connection has no socket and no reader any more, and every read and
    write after it answers [ErrClosed] and changes nothing.  A read that
    fails otherwise, with a transport error or an [ERR] line of the server,
    leaves an open connection open. *)
Theorem read_EOF_closes_the_connection (c c' : Conn) (e : error) :
  read c = Returned (Err e, c') ->
  (e = EOF ->
   Connection.closed c' = true /\ netConn c' = None /\ Reader c' = None
   /\ read c' = Returned (Err ErrClosed, c')
   /\ forall str, write str c' = Returned (Some ErrClosed, c'))
  /\ (e <> EOF -> Connection.closed c' = Connection.closed c).
Proof.
  unfold read. destruct (Connection.closed c) eqn:Hcl.
  { intro H. inv_ret. split; [discriminate | auto]. }
  destruct (Reader c) as [n|]; [|discriminate].
  destruct (netConn c) as [nc|]; [|discriminate].
  destruct (incoming nc) as [|[str ahead|e0] rest]; [discriminate| |].
  - destruct (HasPrefix str (bytes "ERR ")); intro H; inv_ret;
      try discriminate.
    split; [discriminate | intros _; exact Hcl].
  - intro H. inv_ret. split.
    + intros ->. simpl. repeat split.
    + intro Hne. destruct e; try contradiction; simpl; exact Hcl.
Qed.

Lemma read_EOF_closes_the_connection_witness :
  let c := ready 0 20000 (mkNetConn [ReadFails EOF] [] []) in
  let c' := Connection.Close
              (setIO (Some O) (Some (mkNetConn [] [] [])) c) in
  read c = Returned (Err EOF, c')
  /\ Connection.closed c' = true
  /\ read c' = Returned (Err ErrClosed, c')
  /\ write (bytes "PING") c' = Returned (Some ErrClosed, c').
Proof.
  intros c c'.
  assert (H : read c = Returned (Err EOF, c')) by reflexivity.
  destruct (proj1 (read_EOF_closes_the_connection c c' EOF H) eq_refl)
    as (H1 & _ & _ & H2 & H3).
  split; [exact H | split; [exact H1 | split; [exact H2 | apply H3]]].
Defined.

(** ** More on the handshake *)

Lemma write_first_ok (str : gostring) (c : Conn) (nc : NetConn) :
  Connection.closed c = false -> netConn c = Some nc ->
  hd None (writeErrs nc) = None ->
  write str c
  = Returned (None,
              setIO (Reader c)
                    (Some (mkNetConn (incoming nc) (tl (writeErrs nc))
                                     (sent nc ++ [str ++ crlf]))) c).
Proof.
  intros Hcl Hnc Hw. unfold write. rewrite Hcl, Hnc.
  destruct (writeErrs nc) as [|r rest]; simpl in *; [reflexivity|].
  now subst r.
Qed.

(** X2.  [NewConn] drops the error of its first read.  When the server
    hangs up before its first line, the read closes the connection and
    [NewConn] answers [ErrClosed], the error of the second read, not the
    end of stream.  When the first read fails otherwise, [NewConn] goes on
    as if a line had been read: its result is the one it gives when an
    empty first line stands for the failure. *)
Theorem NewConn_drops_the_first_error
        (now : Z) (nc : NetConn) (ch password : gostring) (e : error)
        (rest : list ReadEvent) :
  hd None (writeErrs nc) = None ->
  incoming nc = ReadFails e :: rest ->
  if isEOF e
  then Connection.NewConn now nc ch password = Returned (Err ErrClosed)
  else Connection.NewConn now nc ch password
       = Connection.NewConn now
           (mkNetConn (Line [] O :: rest) (writeErrs nc) (sent nc))
           ch password.
Proof.
  intros Hw Hin.
  unfold Connection.NewConn, handshake.
  set (c0 := setUsedAt now (mkConn now (Unix now) false (Some O) (Some nc) 0 false)).
  set (c1 := setUsedAt now
               (mkConn now (Unix now) false (Some O)
                       (Some (mkNetConn (Line [] O :: rest) (writeErrs nc) (sent nc)))
                       0 false)).
  rewrite (bind_run _ _ c0 _ None (write_first_ok _ c0 nc eq_refl eq_refl Hw)).
  rewrite (bind_run _ _ c1 _ None
             (write_first_ok _ c1 _ eq_refl eq_refl Hw)).
  unfold bind, read. simpl. rewrite Hin.
  destruct (isEOF e) eqn:He; simpl; [reflexivity|].
  destruct rest as [|[line ahead|e'] rest']; simpl; reflexivity.
Qed.

Lemma NewConn_drops_the_first_error_witness :
  let hangsUp := mkNetConn [ReadFails EOF] [] [] in
  let resets :=
    mkNetConn [ReadFails (NetError 104);
               Line (bytes "STARTED search protocol(1) buffer(20000)") O]
              [] [] in
  (hd None (writeErrs hangsUp) = None
   /\ incoming hangsUp = [ReadFails EOF]
   /\ Connection.NewConn 0 hangsUp (bytes "search") (bytes "SecretPassword")
      = Returned (Err ErrClosed))
  /\ (hd None (writeErrs resets) = None
      /\ exists c,
           Connection.NewConn 0 resets (bytes "search") (bytes "SecretPassword")
           = Returned (Ok c)
           /\ cmdMaxBytes c = 20000).
Proof.
  intros hangsUp resets. split.
  - split; [reflexivity | split; [reflexivity |]].
    exact (NewConn_drops_the_first_error 0 hangsUp (bytes "search")
             (bytes "SecretPassword") EOF [] eq_refl eq_refl).
  - split; [reflexivity|].
    rewrite (NewConn_drops_the_first_error 0 resets (bytes "search")
               (bytes "SecretPassword") (NetError 104) _ eq_refl eq_refl).
    eexists. split; reflexivity.
Defined.

Lemma fieldsFrom_in_field (s : gostring) :
  forall k cur, cur <> [] -> fieldsFrom k cur s <> [].
Proof.
  induction s as [|c s IH]; intros k cur Hcur; cbn [fieldsFrom].
  - destruct cur; [contradiction | discriminate].
  - destruct k as [|k]; [|now apply IH].
    destruct (sepWidth (c :: s)) as [|w].
    + apply IH. now destruct cur.
    + destruct cur; [contradiction | discriminate].
Qed.

Lemma no_field_no_ERR (line : gostring) :
  FieldsFunc line = [] -> HasPrefix line (bytes "ERR ") = false.
Proof.
  intro Hf. destruct line as [|a line]; [reflexivity|].
  simpl. destruct (Ascii.eqb_spec a "E") as [->|]; [|reflexivity].
  exfalso. revert Hf. unfold FieldsFunc.
  assert (Hw : sepWidth ("E"%char :: line) = O)
    by (destruct line as [|b [|c line]]; reflexivity).
  cbn [fieldsFrom]. rewrite Hw.
  apply fieldsFrom_in_field. discriminate.
Qed.

(** X3.  [NewConn] indexes the last field of the second line without
    looking at the number of fields: a second line that holds no field (an
    empty line, or white space and parentheses only) makes it panic. *)
Theorem NewConn_panics_on_a_line_without_fields
        (now : Z) (nc : NetConn) (ch password ack line : gostring)
        (a1 a2 : nat) (rest : list ReadEvent) :
  hd None (writeErrs nc) = None ->
  incoming nc = Line ack a1 :: Line line a2 :: rest ->
  FieldsFunc line = [] ->
  Connection.NewConn now nc ch password = Panic.
Proof.
  intros Hw Hin Hf.
  assert (Hnoerr : HasPrefix line (bytes "ERR ") = false)
    by (apply no_field_no_ERR; exact Hf).
  unfold Connection.NewConn, handshake.
  set (c0 := setUsedAt now (mkConn now (Unix now) false (Some O) (Some nc) 0 false)).
  rewrite (bind_run _ _ c0 _ None (write_first_ok _ c0 nc eq_refl eq_refl Hw)).
  unfold bind, read. subst c0.
  cbn [Connection.closed setUsedAt netConn Reader setIO incoming writeErrs sent].
  rewrite Hin.
  destruct (HasPrefix ack (bytes "ERR "));
    cbn [Connection.closed setUsedAt netConn Reader setIO incoming writeErrs sent];
    rewrite Hnoerr, Hf; reflexivity.
Qed.

Lemma NewConn_panics_on_a_line_without_fields_witness :
  let nc := mkNetConn [Line (bytes "CONNECTED <sonic-server v1.2.3>") O;
                       Line (bytes " ( ) ") O] [] [] in
  hd None (writeErrs nc) = None
  /\ FieldsFunc (bytes " ( ) ") = []
  /\ Connection.NewConn 0 nc (bytes "search") (bytes "SecretPassword") = Panic.
Proof.
  intro nc.
  assert (Hf : FieldsFunc (bytes " ( ) ") = []) by reflexivity.
  split; [reflexivity | split; [exact Hf |]].
  exact (NewConn_panics_on_a_line_without_fields 0 nc (bytes "search")
           (bytes "SecretPassword") _ _ O O [] eq_refl eq_refl Hf).
Defined.

(** ** The payload of [Push]: escaped, then cut *)

Lemma escapeByte_length (c : ascii) :
  (1 <= length (escapeByte c) <= 2)%nat.
Proof.
  unfold escapeByte.
  destruct (Ascii.eqb c backslash), (Ascii.eqb c newline),
    (Ascii.eqb c dquote); simpl; lia.
Qed.

(** X4.  Escaping works byte by byte: the escaped form of a text written
    in two parts is the two escaped parts one after the other, and it
    holds at least as many bytes as the text and at most twice as many. *)
Theorem patternReplace_appends_and_at_most_doubles (a b : gostring) :
  patternReplace (a ++ b) = patternReplace a ++ patternReplace b
  /\ len a <= len (patternReplace a) <= 2 * len a.
Proof.
  rewrite !patternReplace_bytewise. split; [apply flat_map_app|].
  unfold len. induction a as [|c a IH]; simpl; [lia|].
  rewrite length_app. pose proof (escapeByte_length c). lia.
Qed.

Lemma escapeByte_ascii (c : ascii) (s : gostring) :
  (code c <? 0x80)%N = true ->
  ValidString (escapeByte c ++ s) = ValidString s.
Proof.
  intro Hc. unfold escapeByte.
  destruct (Ascii.eqb c backslash); [reflexivity|].
  destruct (Ascii.eqb c newline); [reflexivity|].
  destruct (Ascii.eqb c dquote); [reflexivity|].
  cbn [app ValidString]. now rewrite Hc.
Qed.

Lemma escapeByte_high (c : ascii) :
  (code c <? 0x80)%N = false -> escapeByte c = [c].
Proof.
  intro Hc. unfold escapeByte.
  destruct (Ascii.eqb_spec c backslash) as [->|_]; [discriminate Hc|].
  destruct (Ascii.eqb_spec c newline) as [->|_]; [discriminate Hc|].
  destruct (Ascii.eqb_spec c dquote) as [->|_]; [discriminate Hc|].
  reflexivity.
Qed.

Lemma between_high (lo hi : N) (c : ascii) :
  (0x80 <= lo)%N -> between lo (code c) hi = true ->
  (code c <? 0x80)%N = false.
Proof.
  unfold between. intros Hlo H. apply andb_true_iff in H as [H _].
  apply N.leb_le in H. apply N.ltb_ge. lia.
Qed.

Lemma continuation_high (x : N) (c : ascii) (hi : N) :
  between (if (x =? 0xE0)%N then 0xA0 else 0x80)%N (code c) hi = true
  \/ between (if (x =? 0xF0)%N then 0x90 else 0x80)%N (code c) hi = true
  \/ between 0x80 (code c) hi = true ->
  escapeByte c = [c].
Proof.
  intro H. apply escapeByte_high.
  destruct H as [H|[H|H]]; revert H; apply between_high;
    try destruct (x =? 0xE0)%N; try destruct (x =? 0xF0)%N; lia.
Qed.

Lemma ValidString_escaped_bounded (n : nat) :
  forall s, (length s <= n)%nat -> ValidString s = true ->
            ValidString (flat_map escapeByte s) = true.
Proof.
  induction n as [|n IH]; intros [|a s1] Hn H; try reflexivity;
    [simpl in Hn; lia|].
  simpl length in Hn. cbn [flat_map].
  cbn [ValidString] in H.
  destruct (code a <? 0x80)%N eqn:Ha.
  { rewrite escapeByte_ascii by exact Ha. apply IH; [lia | exact H]. }
  rewrite (escapeByte_high a Ha).
  destruct s1 as [|b s2]; [discriminate H|].
  simpl length in Hn. cbn [flat_map app ValidString]. rewrite Ha.
  destruct (between 0xC2 (code a) 0xDF) eqn:H2.
  { apply andb_true_iff in H as [Hb H].
    rewrite (continuation_high 0 b _ (or_intror (or_intror Hb))).
    cbn [app]. rewrite Hb. apply IH; [lia | exact H]. }
  destruct s2 as [|c s3]; [discriminate H|].
  simpl length in Hn. cbn [flat_map].
  destruct (between 0xE0 (code a) 0xEF) eqn:H3.
  { apply andb_true_iff in H as [H Hs]. apply andb_true_iff in H as [Hb Hc].
    rewrite (continuation_high (code a) b _ (or_introl Hb)).
    rewrite (continuation_high 0 c _ (or_intror (or_intror Hc))).
    cbn [app]. rewrite Hb, Hc. apply IH; [lia | exact Hs]. }
  destruct s3 as [|d s4]; [discriminate H|].
  simpl length in Hn. cbn [flat_map].
  apply andb_true_iff in H as [H Hs]. apply andb_true_iff in H as [H Hd].
  apply andb_true_iff in H as [H Hc]. apply andb_true_iff in H as [Hx Hb].
  rewrite (continuation_high (code a) b _ (or_intror (or_introl Hb))).
  rewrite (continuation_high 0 c _ (or_intror (or_intror Hc))).
  rewrite (continuation_high 0 d _ (or_intror (or_intror Hd))).
  cbn [app]. rewrite Hx, Hb, Hc, Hd. apply IH; [lia | exact Hs].
Qed.

Lemma ValidString_patternReplace (text : gostring) :
  ValidString text = true -> ValidString (patternReplace text) = true.
Proof.
  rewrite patternReplace_bytewise.
  apply (ValidString_escaped_bounded (length text)). lia.
Qed.

Lemma RuneStart_range (c : ascii) :
  RuneStart c = false \/ (code c < 0x80)%N \/ (0xBF < code c)%N.
Proof.
  destruct c as [[] [] [] [] [] [] [] []];
    first [left; reflexivity | right; left; reflexivity
          | right; right; reflexivity].
Qed.

Lemma continuation_not_RuneStart (lo hi : N) (c : ascii) :
  (0x80 <= lo)%N -> (hi <= 0xBF)%N -> between lo (code c) hi = true ->
  RuneStart c = false.
Proof.
  unfold between. intros Hlo Hhi H.
  apply andb_true_iff in H as [H1 H2].
  apply N.leb_le in H1. apply N.leb_le in H2.
  destruct (RuneStart_range c) as [H|[H|H]]; [exact H | lia | lia].
Qed.

(** A valid text cut in front of a rune start: both sides are valid. *)
Lemma ValidString_cut_bounded (n : nat) :
  forall a b,
    (length a <= n)%nat ->
    ValidString (a ++ b) = true ->
    RuneStart (hd "a"%char b) = true ->
    ValidString a = true /\ ValidString b = true.
Proof.
  induction n as [|n IH]; intros [|x a1] b Hn H Hb;
    try (split; [reflexivity | exact H]); [simpl in Hn; lia|].
  simpl length in Hn. cbn [app ValidString] in H. cbn [ValidString].
  destruct (code x <? 0x80)%N eqn:Hx.
  { apply IH; [lia | exact H | exact Hb]. }
  destruct a1 as [|y a2].
  { exfalso. destruct b as [|y b2]; [discriminate H|]. cbn [app hd] in *.
    assert (Hy : RuneStart y = false); [|congruence].
    destruct (between 0xC2 (code x) 0xDF).
    { apply andb_true_iff in H as [H _].
      revert H. apply continuation_not_RuneStart; lia. }
    destruct b2 as [|z b3]; [discriminate H|].
    destruct (between 0xE0 (code x) 0xEF).
    { apply andb_true_iff in H as [H _]. apply andb_true_iff in H as [H _].
      revert H. apply continuation_not_RuneStart;
        [destruct (code x =? 0xE0)%N | destruct (code x =? 0xED)%N]; lia. }
    destruct b3 as [|u b4]; [discriminate H|].
    apply andb_true_iff in H as [H _]. apply andb_true_iff in H as [H _].
    apply andb_true_iff in H as [H _]. apply andb_true_iff in H as [_ H].
    revert H. apply continuation_not_RuneStart;
      [destruct (code x =? 0xF0)%N | destruct (code x =? 0xF4)%N]; lia. }
  simpl length in Hn. cbn [app] in H.
  destruct (between 0xC2 (code x) 0xDF).
  { apply andb_true_iff in H as [Hy H]. rewrite Hy.
    apply IH; [lia | exact H | exact Hb]. }
  destruct a2 as [|z a3].
  { exfalso. destruct b as [|z b3]; [discriminate H|]. cbn [app hd] in *.
    assert (Hz : RuneStart z = false); [|congruence].
    destruct (between 0xE0 (code x) 0xEF).
    { apply andb_true_iff in H as [H _]. apply andb_true_iff in H as [_ H].
      revert H. apply continuation_not_RuneStart; lia. }
    destruct b3 as [|u b4]; [discriminate H|].
    apply andb_true_iff in H as [H _]. apply andb_true_iff in H as [H _].
    apply andb_true_iff in H as [_ H].
    revert H. apply continuation_not_RuneStart; lia. }
  simpl length in Hn. cbn [app] in H.
  destruct (between 0xE0 (code x) 0xEF).
  { apply andb_true_iff in H as [H Hs]. rewrite H.
    apply IH; [lia | exact Hs | exact Hb]. }
  destruct a3 as [|u a4].
  { exfalso. destruct b as [|u b4]; [discriminate H|]. cbn [app hd] in *.
    assert (Hu : RuneStart u = false); [|congruence].
    apply andb_true_iff in H as [H _]. apply andb_true_iff in H as [_ H].
    revert H. apply continuation_not_RuneStart; lia. }
  simpl length in Hn. cbn [app] in H.
  apply andb_true_iff in H as [H Hs]. rewrite H.
  apply IH; [lia | exact Hs | exact Hb].
Qed.

Lemma chunked_valid (s : gostring) (maxLen pos : Z) (cs : list gostring) :
  chunked s maxLen pos cs ->
  0 <= maxLen ->
  ValidString (skipn (Z.to_nat pos) s) = true ->
  Forall (fun c => len c <= maxLen /\ ValidString c = true) cs.
Proof.
  induction 1 as [pos c Hle Hc | pos r' c cs Hlt Hr Hc Hcs IH];
    intros Hm Hv.
  - constructor; [|constructor].
    pose proof (slice_skipn _ _ _ _ Hc) as Hsk.
    destruct (slice_length _ _ _ _ Hc) as [H1 [H2 H3]].
    unfold sliceFrom in Hc.
    assert (Hall : skipn (Z.to_nat (len s)) s = [])
      by (apply skipn_all2; unfold len; lia).
    rewrite Hall in Hsk.
    rewrite app_nil_r in Hsk. split; [lia | congruence].
  - pose proof (slice_skipn _ _ _ _ Hc) as Hsk.
    destruct (slice_length _ _ _ _ Hc) as [H1 [H2 H3]].
    destruct (runeStartBefore_sound _ _ _ Hr) as [Hr1 [Hr2 [b [Hb Hrs]]]].
    rewrite Hsk in Hv.
    assert (Hhd : RuneStart (hd "a"%char (skipn (Z.to_nat r') s)) = true).
    { unfold index in Hb.
      destruct (r' <? 0); [discriminate|].
      rewrite <- (firstn_skipn (Z.to_nat r') s) in Hb at 1.
      assert (Hl : length (firstn (Z.to_nat r') s) = Z.to_nat r')
        by (rewrite length_firstn; unfold len in *; lia).
      rewrite nth_error_app2 in Hb by lia.
      rewrite Hl, Nat.sub_diag in Hb.
      destruct (skipn (Z.to_nat r') s); [discriminate|].
      simpl in Hb. injection Hb as ->. exact Hrs. }
    destruct (ValidString_cut_bounded (length c) c _ (le_n _) Hv Hhd)
      as [Hvc Hvr].
    constructor; [split; [lia | exact Hvc]|].
    apply IH; assumption.
Qed.

(** X5.  What [Push] sends for a text in valid UTF-8 on a connection whose
    buffer is of 8 bytes or more: escaping keeps the text valid UTF-8, the
    cutting returns, the chunks put together are the escaped text, and
    each chunk is itself valid UTF-8 of at most [cmdMaxBytes/2] bytes. *)
Theorem Push_payload_is_cut_into_valid_chunks (c : Conn) (text : gostring) :
  ValidString text = true ->
  8 <= cmdMaxBytes c ->
  ValidString (patternReplace text) = true
  /\ exists chunks,
       Connection.splitText (length (patternReplace text)) c
                            (patternReplace text)
       = Returned chunks
       /\ concat chunks = patternReplace text
       /\ Forall (fun k => len k <= targetLen (cmdMaxBytes c)
                           /\ ValidString k = true) chunks.
Proof.
  intros Hv Hc.
  pose proof (ValidString_patternReplace _ Hv) as Hv'.
  pose proof (targetLen_lower _ Hc) as Ht.
  split; [exact Hv'|].
  set (s := patternReplace text) in *.
  destruct (splitLoop_total s (targetLen (cmdMaxBytes c))
              (ValidString_runeGap _ Hv') Ht (length s) 0 [])
    as [chunks Hs]; [unfold len; lia | unfold len; lia |].
  exists chunks. split; [exact Hs|].
  pose proof (splitText_chunked _ _ _ _ Hs) as Hch.
  split.
  - now rewrite (chunked_concat _ _ _ _ Hch).
  - apply (chunked_valid _ _ _ _ Hch); [lia | exact Hv'].
Qed.

Lemma Push_payload_is_cut_into_valid_chunks_witness :
  let c := ready 0 8 (peer []) in
  let text := abcEuroDef ++ [dquote] in
  ValidString text = true
  /\ 8 <= cmdMaxBytes c
  /\ Connection.splitText (length (patternReplace text)) c (patternReplace text)
     = Returned [bytes "abc"; ["226"; "130"; "172"; "d"]%char;
                 bytes "ef\" ++ [dquote]]
  /\ exists chunks,
       Connection.splitText (length (patternReplace text)) c
                            (patternReplace text)
       = Returned chunks
       /\ concat chunks = patternReplace text
       /\ Forall (fun k => len k <= targetLen (cmdMaxBytes c)
                           /\ ValidString k = true) chunks.
Proof.
  intros c text.
  assert (Hv : ValidString text = true) by reflexivity.
  assert (Hc : 8 <= cmdMaxBytes c) by (simpl; lia).
  split; [exact Hv | split; [exact Hc | split; [reflexivity|]]].
  exact (proj2 (Push_payload_is_cut_into_valid_chunks c text Hv Hc)).
Defined.

Lemma wellEscaped_escaped (a s : gostring) :
  wellEscaped (flat_map escapeByte a ++ s) = wellEscaped s.
Proof.
  induction a as [|c a IH]; simpl; [reflexivity|].
  now rewrite <- app_assoc, wellEscaped_escapeByte.
Qed.

(** X6.  The cutting knows nothing of the escapes: when the target falls
    on the second byte of an escape (one byte past the escaped form of
    [a], where an escaped backslash, newline or double quote follows), the
    first chunk is the escaped [a] and a backslash alone, which is not an
    escaped text any more: between the quotes of the [PUSH] command that
    backslash escapes the closing quote. *)
Theorem splitText_cuts_an_escape_pair
        (a rest : gostring) (c : ascii) (maxLen : Z) :
  c = backslash \/ c = newline \/ c = dquote ->
  ValidString (a ++ c :: rest) = true ->
  maxLen = len (patternReplace a) + 1 ->
  4 <= maxLen ->
  exists more,
    Codec.splitText (length (patternReplace (a ++ c :: rest)))
                    (patternReplace (a ++ c :: rest)) maxLen
    = Returned ((patternReplace a ++ [backslash]) :: more)
    /\ more <> []
    /\ wellEscaped (patternReplace a ++ [backslash]) = false.
Proof.
  intros Hc Hv Hm H4.
  pose proof (ValidString_patternReplace _ Hv) as Hv'.
  set (s := patternReplace (a ++ c :: rest)) in *.
  set (p := patternReplace a ++ [backslash]) in *.
  assert (Hs : exists d, RuneStart d = true /\ s = p ++ d :: patternReplace rest).
  { subst s p. rewrite !patternReplace_bytewise, flat_map_app.
    cbn [flat_map].
    destruct Hc as [ -> | [ -> | -> ] ]; eexists;
      (split; [|rewrite <- app_assoc; reflexivity]); reflexivity. }
  destruct Hs as [d [Hd Hs]].
  assert (Hp : len p = maxLen) by (subst p; rewrite len_app; unfold len at 2; simpl; lia).
  clear Hm.
  assert (Hlen : maxLen < len s)
    by (rewrite Hs, len_app; unfold len at 2; simpl length;
        pose proof (len_nonneg p); lia).
  assert (Hat : runeStartAt s maxLen).
  { exists d. split; [|exact Hd].
    rewrite <- Hp. unfold len. rewrite index_nth, Hs.
    rewrite nth_error_app2 by lia. now rewrite Nat.sub_diag. }
  destruct (splitLoop_total s maxLen (ValidString_runeGap _ Hv') H4
              (length s) 0 [])
    as [chunks Hsplit]; [unfold len; lia | unfold len; lia |].
  pose proof (splitText_chunked _ _ _ _ Hsplit) as Hch.
  inversion Hch as [pos k Hle Hk | pos r' k cs Hlt Hr Hk Hcs]; subst;
    [lia|].
  rewrite Z.add_0_l in Hr.
  rewrite (runeStartBefore_inside s (len p) (len p)) in Hr;
    [| lia | exact Hlen | exact Hat | intros i Hi; lia].
  injection Hr as <-.
  rewrite slice_ok in Hk by lia. injection Hk as <-.
  assert (Hf : firstn (Z.to_nat (len p - 0)) s = p).
  { rewrite Hs at 1.
    replace (Z.to_nat (len p - 0)) with (length p + 0)%nat by (unfold len; lia).
    rewrite firstn_app_2. simpl. now rewrite app_nil_r. }
  simpl skipn in Hsplit. rewrite Hf in Hsplit.
  exists cs.
  split; [exact Hsplit | split; [exact (chunked_nonempty _ _ _ _ Hcs)|]].
  subst p. rewrite patternReplace_bytewise. now rewrite wellEscaped_escaped.
Qed.

Lemma splitText_cuts_an_escape_pair_witness :
  let text := bytes "say " ++ [dquote] ++ bytes "hello" ++ [dquote] in
  let escaped := bytes "say \" ++ [dquote] ++ bytes "hello\" ++ [dquote] in
  patternReplace text = escaped
  /\ Codec.splitText (length escaped) escaped 5
     = Returned [bytes "say \"; [dquote] ++ bytes "hell";
                 bytes "o\" ++ [dquote]]
  /\ exists more,
       Codec.splitText (length (patternReplace text)) (patternReplace text) 5
       = Returned ((patternReplace (bytes "say ") ++ [backslash]) :: more)
       /\ more <> []
       /\ wellEscaped (patternReplace (bytes "say ") ++ [backslash]) = false.
Proof.
  intros text escaped.
  split; [reflexivity | split; [reflexivity|]].
  exact (splitText_cuts_an_escape_pair (bytes "say ")
           (bytes "hello" ++ [dquote]) dquote 5
           (or_intror (or_intror eq_refl)) eq_refl eq_refl
           ltac:(lia)).
Defined.

(** ** The results of a search *)

Lemma HasPrefix_app (p s : gostring) : HasPrefix (p ++ s) p = true.
Proof.
  induction p as [|c p IH]; simpl; [reflexivity|].
  now rewrite Ascii.eqb_refl.
Qed.

Lemma Split_field (f rest : gostring) (sep : ascii) :
  ~ In sep f -> Split (f ++ sep :: rest) sep = f :: Split rest sep.
Proof.
  induction f as [|c f IH]; intro Hf; simpl.
  - now rewrite Ascii.eqb_refl.
  - destruct (Ascii.eqb_spec c sep) as [->|_]; [exfalso; apply Hf; now left|].
    rewrite IH; [reflexivity | intro H; apply Hf; now right].
Qed.

Lemma Split_last_field (f : gostring) (sep : ascii) :
  ~ In sep f -> Split f sep = [f].
Proof.
  induction f as [|c f IH]; intro Hf; simpl; [reflexivity|].
  destruct (Ascii.eqb_spec c sep) as [->|_]; [exfalso; apply Hf; now left|].
  rewrite IH; [reflexivity | intro H; apply Hf; now right].
Qed.

Lemma Split_fields (sep : ascii) (fs : list gostring) :
  Forall (fun f => ~ In sep f) fs ->
  forall f, ~ In sep f ->
    Split (f ++ concat (map (cons sep) fs)) sep = f :: fs.
Proof.
  induction 1 as [|g fs Hg Hfs IH]; intros f Hf; simpl.
  - rewrite app_nil_r. now apply Split_last_field.
  - rewrite Split_field by exact Hf. now rewrite IH.
Qed.

(** X7.  The answer to a search read back: of an event line made of
    [EVENT], the event type, an identifier and the results, each written
    after one space and none holding a space, [getSearchResults] returns
    the results, in their order; no result gives the empty list. *)
Theorem getSearchResults_returns_the_results
        (eventType id : gostring) (results : list gostring) :
  ~ In " "%char eventType ->
  ~ In " "%char id ->
  Forall (fun r => ~ In " "%char r) results ->
  getSearchResults
    (bytes "EVENT " ++ eventType ++ bytes " " ++ id
     ++ concat (map (cons " "%char) results))
    eventType
  = Returned results.
Proof.
  intros He Hi Hr. unfold getSearchResults.
  rewrite app_assoc, HasPrefix_app, <- app_assoc.
  change (bytes "EVENT " ++ ?x) with (bytes "EVENT" ++ " "%char :: x).
  rewrite Split_field by (simpl; intuition discriminate).
  change (bytes " " ++ ?x) with (" "%char :: x).
  rewrite Split_field by exact He.
  rewrite (Split_fields _ _ Hr) by exact Hi.
  reflexivity.
Qed.

Lemma getSearchResults_returns_the_results_witness :
  getSearchResults
    (bytes "EVENT QUERY Bt2m2gYa conversation:71f3d63b conversation:6501e83a")
    (bytes "QUERY")
  = Returned [bytes "conversation:71f3d63b"; bytes "conversation:6501e83a"].
Proof.
  apply (getSearchResults_returns_the_results (bytes "QUERY")
           (bytes "Bt2m2gYa")
           [bytes "conversation:71f3d63b"; bytes "conversation:6501e83a"]).
  - simpl; intuition discriminate.
  - simpl; intuition discriminate.
  - repeat constructor; simpl; intuition discriminate.
Defined.

(** ** Closing the pool *)

Lemma Close_idempotent (c : Conn) :
  Connection.Close (Connection.Close c) = Connection.Close c.
Proof. reflexivity. Qed.

Lemma ptr_eq_dec (a b : ptr) : {a = b} + {a <> b}.
Proof. decide equality. apply Nat.eq_dec. Qed.

Lemma fold_keepFirst_Some (errs : list (option error)) (e : error) :
  fold_left keepFirst errs (Some e) = Some e.
Proof. induction errs as [|x errs IH]; simpl; [reflexivity | exact IH]. Qed.

Lemma closeConn_run (i : nat) (c : Conn) (w : World) :
  nth_error (heap w) i = Some c ->
  closeConn (Some i) w
  = Returned (closeErr c,
              mkWorld (pool w) (setNth i (Connection.Close c) (heap w))
                      (now w) (dials w) (tasks w)).
Proof.
  intro Hc. unfold closeConn, bind, load, store, ret. now rewrite Hc.
Qed.

(** Closing one connection changes what closing another gives only when
    it gave an error itself. *)
Lemma closeErrAt_after_close (i : nat) (c : Conn) (w w1 : World) :
  nth_error (heap w) i = Some c ->
  heap w1 = setNth i (Connection.Close c) (heap w) ->
  closeErr c = None ->
  forall x, closeErrAt w1 x = closeErrAt w x.
Proof.
  intros Hc H1 He [j|]; [|reflexivity]. unfold closeErrAt.
  rewrite H1, nth_error_setNth.
  destruct (Nat.eqb_spec i j) as [<-|_]; [|reflexivity].
  rewrite Hc. simpl. now rewrite He.
Qed.

(** [closeAll] returns when its pointers are those of existing
    connections; it closes these and leaves everything else alone, and
    returns the first error that closing gave. *)
Lemma closeAll_closes (cs : list ptr) :
  forall w acc,
    (forall x, In x cs -> exists i, x = Some i /\ (i < length (heap w))%nat) ->
    exists w',
      closeAll cs acc w
      = Returned (fold_left keepFirst (map (closeErrAt w) cs) acc, w')
      /\ pool w' = pool w /\ now w' = now w /\ dials w' = dials w
      /\ tasks w' = tasks w
      /\ length (heap w') = length (heap w)
      /\ forall i c,
           nth_error (heap w) i = Some c ->
           (In (Some i) cs ->
            nth_error (heap w') i = Some (Connection.Close c))
           /\ (~ In (Some i) cs -> nth_error (heap w') i = Some c).
Proof.
  induction cs as [|cn cs IH]; intros w acc Hv.
  - exists w. simpl. unfold ret. repeat split; tauto.
  - destruct (Hv cn (or_introl eq_refl)) as (i & -> & Hi).
    destruct (nth_error (heap w) i) as [c|] eqn:Hc;
      [|apply nth_error_None in Hc; lia].
    set (w1 := mkWorld (pool w) (setNth i (Connection.Close c) (heap w))
                       (now w) (dials w) (tasks w)).
    pose proof (closeConn_run i c w Hc) as H1. fold w1 in H1.
    destruct (IH w1 (keepFirst acc (closeErr c)))
      as (w' & H' & Hp & Hn & Hd & Ht & Hl & Hh).
    { intros x Hx. destruct (Hv x (or_intror Hx)) as (j & -> & Hj).
      exists j. split; [reflexivity|]. simpl. now rewrite length_setNth. }
    exists w'. cbn [closeAll]. rewrite (bind_run _ _ _ _ _ H1).
    split.
    { rewrite H'. do 2 f_equal. cbn [map fold_left].
      unfold closeErrAt at 3. rewrite Hc.
      destruct (closeErr c) as [e|] eqn:He.
      - destruct acc; simpl; now rewrite !fold_keepFirst_Some.
      - f_equal. apply map_ext.
        exact (closeErrAt_after_close i c w w1 Hc eq_refl He). }
    simpl in Hp, Hn, Hd, Ht, Hl.
    rewrite length_setNth in Hl.
    repeat (split; [assumption|]).
    intros j d Hj.
    assert (Hj1 : nth_error (heap w1) j
                  = Some (if Nat.eqb i j then Connection.Close d else d)).
    { simpl. rewrite nth_error_setNth, Hj.
      destruct (Nat.eqb_spec i j) as [Heq|_]; [|reflexivity].
      subst j. rewrite Hj in Hc. injection Hc as ->. reflexivity. }
    destruct (Hh _ _ Hj1) as [Hin Hout].
    destruct (Nat.eqb_spec i j) as [->|Hne].
    + split; [intros _ | intros Hn'; exfalso; apply Hn'; now left].
      destruct (in_dec ptr_eq_dec (Some j) cs) as [Hc'|Hc'].
      * now rewrite (Hin Hc').
      * now rewrite (Hout Hc').
    + split.
      * intros [Heq|Hc']; [injection Heq as Heq; contradiction | auto].
      * intro Hn'. apply Hout. intro Hc'. apply Hn'. now right.
Qed.

(** X10.  [Close] on an open pool whose connections all exist: it
    returns the first error that closing a connection gave, in the order
    of [conns], nil when none gave one; it empties the pool and closes
    every connection the pool holds, those that are checked out too; the
    tokens stay where they are.  Afterwards [Get] and a second [Close]
    answer [ErrClosed] and change nothing, and [Put] of a connection that
    was checked out panics, on the reader that [Close] took away. *)
Theorem Close_closes_every_connection (w : World) :
  _closed (pool w) = 0 ->
  (forall x, In x (conns (pool w)) ->
             exists i, x = Some i /\ (i < length (heap w))%nat) ->
  exists w',
    Pool.Close w
    = Returned (firstErr (map (closeErrAt w) (conns (pool w))), w')
    /\ conns (pool w') = [] /\ idleConns (pool w') = []
    /\ poolSize (pool w') = 0 /\ idleConnsLen (pool w') = 0
    /\ queue (pool w') = queue (pool w)
    /\ (forall i, In (Some i) (conns (pool w)) ->
          exists c, nth_error (heap w') i = Some c
                    /\ Connection.closed c = true
                    /\ netConn c = None /\ Reader c = None)
    /\ (forall i c, nth_error (heap w) i = Some c ->
                    ~ In (Some i) (conns (pool w)) ->
                    nth_error (heap w') i = Some c)
    /\ (forall ctx, Get ctx w' = Returned (Err ErrClosed, w'))
    /\ Pool.Close w' = Returned (Some ErrClosed, w')
    /\ (forall i, In (Some i) (conns (pool w)) -> Put (Some i) w' = Panic).
Proof.
  intros Hopen Hv.
  set (w1 := withPool (setClosed 1) w).
  destruct (closeAll_closes (conns (pool w)) w1 None Hv)
    as (w2 & H2 & Hp & Hn & Hd & Ht & Hl & Hh).
  set (w' := withPool (fun p => setIdleConnsLen 0
                        (setIdleConns [] (setPoolSize 0 (setConns [] p)))) w2).
  assert (Hclosed : _closed (pool w') = 1) by (simpl; now rewrite Hp).
  assert (Hheap : forall i, In (Some i) (conns (pool w)) ->
            exists c, nth_error (heap w) i = Some c
                      /\ nth_error (heap w') i = Some (Connection.Close c)).
  { intros i Hi. destruct (Hv _ Hi) as (j & Hj & Hlt). injection Hj as <-.
    destruct (nth_error (heap w) i) as [c|] eqn:Hc;
      [|apply nth_error_None in Hc; lia].
    exists c. split; [reflexivity|]. exact (proj1 (Hh i c Hc) Hi). }
  exists w'. split.
  { unfold Pool.Close. rewrite Hopen. cbn [Z.eqb].
    unfold bind at 1. unfold modify at 1. fold w1.
    unfold bind at 1. unfold gets at 1.
    change (conns (pool w1)) with (conns (pool w)).
    rewrite (bind_run _ _ _ _ _ H2). reflexivity. }
  split; [reflexivity|]. split; [reflexivity|].
  split; [reflexivity|]. split; [reflexivity|].
  split; [simpl; now rewrite Hp|].
  split.
  { intros i Hi. destruct (Hheap i Hi) as (c & _ & Hc).
    exists (Connection.Close c). repeat split. exact Hc. }
  split; [intros i c Hc Hi; exact (proj2 (Hh i c Hc) Hi)|].
  split.
  { intro ctx. unfold Get, bind, Pool.closed, gets. now rewrite Hclosed. }
  split; [unfold Pool.Close; now rewrite Hclosed|].
  intros i Hi. destruct (Hheap i Hi) as (c & _ & Hc).
  exact (Put_readerless i _ w' Hc eq_refl).
Qed.

Lemma Close_closes_every_connection_witness :
  let stubborn :=
    mkNetConn (incoming (sonic (bytes "search") []))
              [None; Some (NetError 5)] [] in
  let w := after (Get Background)
                 (orElse (NweSearchClient (fun _ => Ok stubborn)
                                          (bytes "SecretPassword") 0)
                         emptyWorld) in
  _closed (pool w) = 0
  /\ conns (pool w) = [Some O]
  /\ exists w',
       Pool.Close w = Returned (Some (NetError 5), w')
       /\ Get Background w' = Returned (Err ErrClosed, w')
       /\ Put (Some O) w' = Panic.
Proof.
  intros stubborn w.
  assert (Hopen : _closed (pool w) = 0) by (vm_compute; reflexivity).
  assert (Hconns : conns (pool w) = [Some O]) by (vm_compute; reflexivity).
  assert (Hv : forall x, In x (conns (pool w)) ->
                         exists i, x = Some i /\ (i < length (heap w))%nat).
  { rewrite Hconns. intros x [<-|[]]. exists O. split; [reflexivity|].
    vm_compute. apply le_n. }
  assert (He : firstErr (map (closeErrAt w) (conns (pool w)))
               = Some (NetError 5)) by (vm_compute; reflexivity).
  destruct (Close_closes_every_connection w Hopen Hv)
    as (w' & HC & _ & _ & _ & _ & _ & _ & _ & HG & _ & HP).
  rewrite He in HC.
  split; [exact Hopen | split; [exact Hconns|]].
  exists w'. split; [exact HC | split; [apply HG|]].
  apply HP. rewrite Hconns. now left.
Defined.

(** ** Connections that are closed or stale *)

Lemma read_EOF_readerless (c c' : Conn) :
  read c = Returned (Err EOF, c') -> Reader c' = None.
Proof.
  unfold read. destruct (Connection.closed c); [intro H; inv_ret; discriminate|].
  destruct (Reader c) as [n|]; [|discriminate].
  destruct (netConn c) as [nc|]; [|discriminate].
  destruct (incoming nc) as [|[str ahead|e] rest]; [discriminate| |].
  - destruct (HasPrefix str (bytes "ERR ")); intro H; inv_ret; discriminate.
  - intro H. inv_ret. reflexivity.
Qed.

(** X11.  A connection on which a read met the end of the stream cannot
    be given back with [Put]: [Put] panics on the reader the read took
    away.  [Remove] takes it out of the pool and frees its token. *)
Theorem Put_after_EOF_panics (i : nat) (w w' : World) :
  onConn (Some i) read w = Returned (Err EOF, w') ->
  Put (Some i) w' = Panic
  /\ (0 < queue (pool w') ->
      exists w'',
        Remove (Some i) None w' = Returned (tt, w'')
        /\ queue (pool w'') = queue (pool w') - 1
        /\ idleConns (pool w'') = idleConns (pool w')
        /\ (NoDup (conns (pool w')) -> ~ In (Some i) (conns (pool w'')))).
Proof.
  intro H.
  destruct (onConn_inv _ _ _ _ _ H) as (j & c & c' & Hj & Hc & Hm & ->).
  injection Hj as <-.
  pose proof (read_EOF_readerless _ _ Hm) as Hr.
  assert (Hc' : nth_error
                  (heap (mkWorld (pool w) (setNth i c' (heap w)) (now w)
                                 (dials w) (tasks w))) i = Some c')
    by (simpl; exact (nth_error_setNth_same _ _ _ _ Hc)).
  split; [exact (Put_readerless _ _ _ Hc' Hr)|].
  intro Hq.
  destruct (Remove_returns i c' None _ Hc' Hq) as (w'' & HR & H1 & H2 & _ & H4).
  exists w''. repeat split; assumption.
Qed.

Lemma Put_after_EOF_panics_witness :
  let hangUp :=
    NweSearchClient (fun _ => Ok (sonic (bytes "search") [ReadFails EOF]))
                    (bytes "SecretPassword") 0 in
  let w := after (Get Background) (orElse hangUp emptyWorld) in
  let w' := after (onConn (Some O) read) w in
  onConn (Some O) read w = Returned (Err EOF, w')
  /\ Put (Some O) w' = Panic
  /\ queue (pool (after (Remove (Some O) None) w')) = 0.
Proof.
  intros hangUp w w'.
  assert (H : onConn (Some O) read w = Returned (Err EOF, w'))
    by (vm_compute; reflexivity).
  split; [exact H|].
  split; [exact (proj1 (Put_after_EOF_panics O w w' H))|].
  vm_compute; reflexivity.
Defined.

Lemma isStaleConn_ext (cn : ptr) (w w' : World) (b : bool) :
  opt (pool w') = opt (pool w) -> now w' = now w -> heap w' = heap w ->
  isStaleConn cn w = Returned (b, w) ->
  isStaleConn cn w' = Returned (b, w').
Proof.
  intros Ho Hn Hh. unfold isStaleConn. rewrite Ho, Hn.
  destruct ((IdleTimeout (opt (pool w)) =? 0) && (MaxConnAge (opt (pool w)) =? 0));
    [intro H; inv_ret; reflexivity|].
  unfold bind, load, ret.
  destruct cn as [i|];
    repeat first
      [ progress cbv beta iota
      | rewrite Hh
      | match goal with
        | |- context [nth_error (heap w) ?i] =>
            destruct (nth_error (heap w) i)
        | |- context [if ?c then _ else _] => destruct c
        end ];
    try discriminate; intro H; inv_ret; reflexivity.
Qed.

Lemma idleLoop_not_stale (fuel : nat) :
  forall w w' i,
    idleLoop fuel w = Returned (Some i, w') ->
    isStaleConn (Some i) w' = Returned (false, w').
Proof.
  induction fuel as [|fuel IH]; intros w w' i H; cbn [idleLoop] in H;
    apply bind_Returned in H as (cn & w1 & H1 & H);
    (destruct cn as [j|]; [|inv_ret; discriminate]);
    apply bind_Returned in H as (stale & w2 & H2 & H);
    pose proof (isStaleConn_inv _ _ _ _ H2) as Heq; subst w2;
    (destruct stale;
     [apply bind_Returned in H as (u & w3 & H3 & H)
     | inv_ret; exact H2]).
  - inv_ret.
  - exact (IH _ _ _ H).
Qed.

(** X12.  A connection that existed before the call and that [Get]
    returns was idle, and is not stale when [Get] returns it: neither
    idle for [IdleTimeout] nor older than [MaxConnAge], as [isStaleConn]
    measures them. *)
Theorem Get_returns_no_stale_connection
        (ctx : Ctx) (w w' : World) (i : nat) :
  Get ctx w = Returned (Ok (Some i), w') ->
  (i < length (heap w))%nat ->
  In (Some i) (idleConns (pool w))
  /\ isStaleConn (Some i) w' = Returned (false, w').
Proof.
  intros H Hi.
  pose proof (Get_step _ _ _ _ H) as [_ Hfrom].
  split.
  { destruct Hfrom as [Hx|[Hx|(j & Hj & Hlt)]];
      [discriminate | exact Hx | injection Hj as <-; lia]. }
  unfold Get in H.
  apply bind_Returned in H as (b & w1 & Hb & H).
  apply closed_inv in Hb as [-> ->].
  destruct (_closed (pool w) =? 1); [inv_ret; discriminate|].
  apply bind_Returned in H as (e & w1 & He & H).
  destruct e as [e|]; [inv_ret; discriminate|].
  apply waitTurn_step in He. destruct He as [[_ [Hlen1 _]] _].
  apply bind_Returned in H as (n & w2 & Hn & H).
  unfold gets in Hn. inv_ret.
  apply bind_Returned in H as (cn & w3 & Hloop & H).
  destruct cn as [j|].
  - apply bind_Returned in H as (u & w4 & Hm & H).
    unfold modify in Hm. inv_ret.
    apply idleLoop_not_stale in Hloop.
    revert Hloop. apply isStaleConn_ext; reflexivity.
  - apply idleLoop_step in Hloop. destruct Hloop as [[[_ [Hlen2 _]] _] _].
    apply bind_Returned in H as (u & w4 & Hm & H).
    unfold modify in Hm. inv_ret.
    apply bind_Returned in H as (r & w5 & Hnew & H).
    destruct r as [x|e]; [|inv_bind; discriminate].
    inv_ret.
    apply newConn_step in Hnew. destruct Hnew as [_ Hx].
    destruct (Hx _ eq_refl) as [Hx'|Hx']; [discriminate|].
    injection Hx' as ->. simpl in Hi. lia.
Qed.

Lemma Get_returns_no_stale_connection_witness :
  let w := after (Get Background ;; Put (Some O))%go searchWorld in
  let w' := after (Get Background) w in
  Get Background w = Returned (Ok (Some O), w')
  /\ (0 < length (heap w))%nat
  /\ In (Some O) (idleConns (pool w))
  /\ isStaleConn (Some O) w' = Returned (false, w').
Proof.
  intros w w'.
  assert (H : Get Background w = Returned (Ok (Some O), w'))
    by (vm_compute; reflexivity).
  assert (Hi : (0 < length (heap w))%nat) by (vm_compute; apply le_n).
  split; [exact H | split; [exact Hi|]].
  exact (Get_returns_no_stale_connection Background w w' O H Hi).
Defined.

(** ** Keeping [MinIdleConns] connections *)

Lemma reserved_zero (w : World) : reserved 0 w = w.
Proof.
  unfold reserved. simpl. rewrite app_nil_r, !Z.add_0_r.
  destruct w as [[] ? ? ? ?]. reflexivity.
Qed.

Lemma warmUp_counts (fuel : nat) :
  forall w k,
    k = Z.max 0 (Z.min (PoolSize (opt (pool w)) - poolSize (pool w))
                       (MinIdleConns (opt (pool w)) - idleConnsLen (pool w))) ->
    (Z.to_nat k <= fuel)%nat ->
    warmUp fuel w = Returned (tt, reserved k w).
Proof.
  induction fuel as [|fuel IH]; intros w k Hdef Hk.
  - assert (H0 : k = 0) by lia. rewrite H0, reserved_zero.
    cbn [warmUp].
    destruct (Z.ltb_spec (poolSize (pool w)) (PoolSize (opt (pool w))));
      destruct (Z.ltb_spec (idleConnsLen (pool w)) (MinIdleConns (opt (pool w))));
      try reflexivity. lia.
  - cbn [warmUp].
    destruct (Z.ltb_spec (poolSize (pool w)) (PoolSize (opt (pool w)))) as [H1|H1];
      [destruct (Z.ltb_spec (idleConnsLen (pool w)) (MinIdleConns (opt (pool w)))) as [H2|H2]|];
      cbn [andb].
    + unfold bind at 1. unfold modify at 1.
      unfold bind at 1. unfold spawn at 1, modify at 1.
      rewrite (IH _ (k - 1)).
      * unfold reserved, withPool, setIdleConnsLen, setPoolSize.
        cbn [pool heap now dials tasks opt dialErrorsNum lastDialError queue
             conns idleConns poolSize idleConnsLen stats _closed].
        replace (Z.to_nat k) with (S (Z.to_nat (k - 1))) by lia.
        cbn [repeat]. rewrite <- app_assoc. cbn [app].
        do 3 f_equal; f_equal; lia.
      * cbn [pool withPool setIdleConnsLen setPoolSize opt poolSize idleConnsLen].
        lia.
      * lia.
    + replace k with 0 by lia. now rewrite reserved_zero.
    + replace k with 0 by lia. now rewrite reserved_zero.
Qed.

Lemma checkMinIdleConns_counts (w : World) :
  checkMinIdleConns w = Returned (tt, reserved (missing w) w).
Proof.
  unfold checkMinIdleConns, missing.
  destruct (MinIdleConns (opt (pool w)) =? 0);
    [now rewrite reserved_zero|].
  apply warmUp_counts; [reflexivity | lia].
Qed.

(** X13.  [checkMinIdleConns] returns, having reserved as many slots as
    are missing and started one goroutine for each: nothing when
    [MinIdleConns] is 0, otherwise as many as it takes for the pool to be
    full or the idle count to be [MinIdleConns].  It dials nothing itself
    and touches neither the connections nor the queue. *)
Theorem checkMinIdleConns_reserves_the_missing_slots (w : World) :
  exists w',
    checkMinIdleConns w = Returned (tt, w')
    /\ poolSize (pool w') = poolSize (pool w) + missing w
    /\ idleConnsLen (pool w') = idleConnsLen (pool w) + missing w
    /\ tasks w' = tasks w ++ repeat AddIdleConnTask (Z.to_nat (missing w))
    /\ 0 <= missing w
    /\ (MinIdleConns (opt (pool w)) <> 0 ->
        PoolSize (opt (pool w')) <= poolSize (pool w')
        \/ MinIdleConns (opt (pool w')) <= idleConnsLen (pool w'))
    /\ (poolSize (pool w) <= PoolSize (opt (pool w)) ->
        poolSize (pool w') <= PoolSize (opt (pool w')))
    /\ heap w' = heap w /\ dials w' = dials w /\ now w' = now w
    /\ conns (pool w') = conns (pool w)
    /\ idleConns (pool w') = idleConns (pool w)
    /\ queue (pool w') = queue (pool w).
Proof.
  exists (reserved (missing w) w).
  split; [apply checkMinIdleConns_counts|].
  assert (Hm : 0 <= missing w)
    by (unfold missing; destruct (_ =? 0); lia).
  repeat (split; [try reflexivity; try exact Hm|]); try reflexivity.
  - intro Hne. simpl. unfold missing.
    destruct (Z.eqb_spec (MinIdleConns (opt (pool w))) 0); [contradiction|].
    lia.
  - intro Hle. simpl. unfold missing.
    destruct (_ =? 0); lia.
Qed.



(** ** The reaper *)

Lemma closes_nil (w w' : World) : heap w' = heap w -> closes [] w w'.
Proof.
  intro H. split; [now rewrite H|]. intros i c Hc. simpl. now rewrite H.
Qed.

Lemma closes_cons (i : nat) (c : Conn) (l : list ptr) (w w1 w' : World) :
  nth_error (heap w) i = Some c ->
  heap w1 = setNth i (Connection.Close c) (heap w) ->
  closes l w1 w' ->
  closes (Some i :: l) w w'.
Proof.
  intros Hc H1 [Hlen Hh]. split.
  - rewrite Hlen, H1. apply length_setNth.
  - intros j d Hj.
    assert (Hj1 : nth_error (heap w1) j
                  = Some (if Nat.eqb i j then Connection.Close d else d)).
    { rewrite H1, nth_error_setNth, Hj.
      destruct (Nat.eqb_spec i j) as [Heq|_]; [|reflexivity].
      subst j. rewrite Hj in Hc. injection Hc as ->. reflexivity. }
    rewrite (Hh _ _ Hj1). cbn [existsb ptr_eqb].
    rewrite (Nat.eqb_sym j i).
    destruct (Nat.eqb i j); destruct (existsb _ l); reflexivity.
Qed.

Lemma isStaleConn_closes (l : list ptr) (cn : ptr) (w w' : World) (b : bool) :
  closes l w w' ->
  opt (pool w') = opt (pool w) -> now w' = now w ->
  isStaleConn cn w = Returned (b, w) ->
  isStaleConn cn w' = Returned (b, w').
Proof.
  intros [_ Hh] Ho Hn. unfold isStaleConn. rewrite Ho, Hn.
  destruct ((IdleTimeout (opt (pool w)) =? 0) && (MaxConnAge (opt (pool w)) =? 0));
    [intro H; inv_ret; reflexivity|].
  unfold bind, load, ret.
  destruct cn as [i|].
  - destruct (nth_error (heap w) i) as [c|] eqn:Hc.
    + pose proof (Hh _ _ Hc) as Hc'.
      assert (Hu : forall x : bool,
                 GetUsedAt (if x then Connection.Close c else c) = GetUsedAt c)
        by (intros []; reflexivity).
      assert (Hcr : forall x : bool,
                 GetCreatedAt (if x then Connection.Close c else c)
                 = GetCreatedAt c)
        by (intros []; reflexivity).
      repeat first
        [ progress cbv beta iota
        | rewrite Hc | rewrite Hc' | rewrite Hu | rewrite Hcr
        | match goal with
          | |- context [if ?c then _ else _] =>
              lazymatch c with
              | existsb _ _ => fail
              | _ => destruct c
              end
          end ];
      intro H; inv_ret; reflexivity.
    + repeat first
        [ progress cbv beta iota
        | rewrite Hc
        | match goal with
          | |- context [if ?c then _ else _] => destruct c
          end ];
      try discriminate; intro H; inv_ret; reflexivity.
  - repeat first
      [ progress cbv beta iota
      | match goal with
        | |- context [if ?c then _ else _] => destruct c
        end ];
    try discriminate; intro H; inv_ret; reflexivity.
Qed.

Lemma removeConn_frame (i : nat) (c : Conn) (w : World) :
  nth_error (heap w) i = Some c ->
  exists w',
    removeConn (Some i) w = Returned (tt, w')
    /\ heap w' = heap w /\ now w' = now w
    /\ opt (pool w') = opt (pool w)
    /\ idleConns (pool w') = idleConns (pool w)
    /\ queue (pool w') = queue (pool w)
    /\ stats (pool w') = stats (pool w)
    /\ forall y, In y (conns (pool w')) -> In y (conns (pool w)).
Proof.
  intro Hc. unfold removeConn.
  destruct (removeFirst (Some i) (conns (pool w))) as [cs|] eqn:Hrem.
  - unfold bind, modify, load. simpl. rewrite Hc.
    destruct (pooled c).
    + rewrite checkMinIdleConns_counts.
      eexists. split; [reflexivity|]. simpl. repeat split.
      intros y Hy. eapply removeFirst_In; eauto.
    + eexists. split; [reflexivity|]. simpl. repeat split.
      intros y Hy. eapply removeFirst_In; eauto.
  - exists w. repeat split; auto.
Qed.

Lemma reapLoop_unfold (fuel : nat) (n : Z) :
  reapLoop fuel n
  = bind getTurn (fun _ =>
    bind reapStaleConn (fun cn =>
    bind freeTurn (fun _ =>
      match cn with
      | Some _ =>
          bind (closeConn cn) (fun _ =>
            match fuel with
            | O => outOfFuel
            | S fuel' => reapLoop fuel' (n + 1)
            end)
      | None => ret n
      end))).
Proof. destruct fuel; reflexivity. Qed.

Lemma isStaleConn_true_valid (cn : ptr) (w : World) :
  isStaleConn cn w = Returned (true, w) ->
  exists i c, cn = Some i /\ nth_error (heap w) i = Some c.
Proof.
  unfold isStaleConn.
  destruct ((IdleTimeout (opt (pool w)) =? 0) && (MaxConnAge (opt (pool w)) =? 0));
    [intro H; inv_ret; discriminate|].
  unfold bind, load, ret.
  destruct cn as [i|].
  - destruct (nth_error (heap w) i) as [c|] eqn:Hc; [intros _; eauto|].
    repeat first
      [ progress cbv beta iota
      | rewrite Hc
      | match goal with
        | |- context [if ?c then _ else _] => destruct c
        end ];
    try discriminate; intro H; inv_ret; discriminate.
  - repeat first
      [ progress cbv beta iota
      | match goal with
        | |- context [if ?c then _ else _] => destruct c
        end ];
    try discriminate; intro H; inv_ret; discriminate.
Qed.

Lemma getTurn_run (w : World) :
  queue (pool w) < PoolSize (opt (pool w)) ->
  getTurn w = Returned (tt, withPool (setQueue (queue (pool w) + 1)) w).
Proof.
  intro H. unfold getTurn.
  now replace (queue (pool w) <? PoolSize (opt (pool w))) with true
    by (symmetry; apply Z.ltb_lt; exact H).
Qed.

Lemma freeTurn_run (w : World) :
  0 < queue (pool w) ->
  freeTurn w = Returned (tt, withPool (setQueue (queue (pool w) - 1)) w).
Proof.
  intro H. unfold freeTurn.
  now replace (0 <? queue (pool w)) with true
    by (symmetry; apply Z.ltb_lt; exact H).
Qed.

Lemma reapLoop_reaps (rest stale : list ptr) :
  forall fuel n w,
    (length stale <= fuel)%nat ->
    idleConns (pool w) = stale ++ rest ->
    Forall (fun cn => isStaleConn cn w = Returned (true, w)) stale ->
    match rest with
    | [] => True
    | cn :: _ => isStaleConn cn w = Returned (false, w)
    end ->
    0 <= queue (pool w) < PoolSize (opt (pool w)) ->
    exists w',
      reapLoop fuel n w = Returned (n + Z.of_nat (length stale), w')
      /\ idleConns (pool w') = rest
      /\ queue (pool w') = queue (pool w)
      /\ opt (pool w') = opt (pool w)
      /\ stats (pool w') = stats (pool w)
      /\ now w' = now w
      /\ closes stale w w'
      /\ forall y, In y (conns (pool w')) -> In y (conns (pool w)).
Proof.
  induction stale as [|cn stale IH];
    intros fuel n w Hfuel Hidle Hstale Hrest Hq.
  - set (w1 := withPool (setQueue (queue (pool w) + 1)) w).
    assert (H1 : getTurn w = Returned (tt, w1)) by (apply getTurn_run; lia).
    assert (H2 : reapStaleConn w1 = Returned (None, w1)).
    { unfold reapStaleConn.
      change (idleConns (pool w1)) with (idleConns (pool w)).
      rewrite Hidle. cbn [app]. destruct rest as [|x rest']; [reflexivity|].
      unfold bind.
      now rewrite (isStaleConn_ext x w w1 false eq_refl eq_refl eq_refl Hrest). }
    assert (H3 : freeTurn w1
                 = Returned (tt, withPool (setQueue (queue (pool w1) - 1)) w1))
      by (apply freeTurn_run; simpl; lia).
    exists (withPool (setQueue (queue (pool w1) - 1)) w1).
    rewrite reapLoop_unfold, (bind_run _ _ _ _ _ H1),
      (bind_run _ _ _ _ _ H2), (bind_run _ _ _ _ _ H3).
    split; [unfold ret; do 2 f_equal; simpl; lia|].
    simpl. repeat split; try assumption; try lia; try tauto.
  - inversion Hstale as [|x l Hcn Hstale']; subst x l.
    destruct (isStaleConn_true_valid _ _ Hcn) as (i & c & -> & Hc).
    destruct fuel as [|fuel]; [simpl in Hfuel; lia|].
    simpl in Hfuel.
    set (w1 := withPool (setQueue (queue (pool w) + 1)) w).
    assert (H1 : getTurn w = Returned (tt, w1)) by (apply getTurn_run; lia).
    set (w2 := withPool (fun p => setIdleConnsLen (idleConnsLen p - 1)
                                    (setIdleConns (stale ++ rest) p)) w1).
    destruct (removeConn_frame i c w2 Hc)
      as (w3 & H3 & Hh3 & Hn3 & Ho3 & Hi3 & Hq3 & Hs3 & Hc3).
    assert (H2 : reapStaleConn w1 = Returned (Some i, w3)).
    { unfold reapStaleConn.
      change (idleConns (pool w1)) with (idleConns (pool w)).
      rewrite Hidle. cbn [app]. unfold bind at 1.
      rewrite (isStaleConn_ext (Some i) w w1 true eq_refl eq_refl eq_refl Hcn).
      unfold bind at 1. unfold modify at 1. fold w2.
      now rewrite (bind_run _ _ _ _ _ H3). }
    set (w4 := withPool (setQueue (queue (pool w3) - 1)) w3).
    assert (H4 : freeTurn w3 = Returned (tt, w4))
      by (apply freeTurn_run; rewrite Hq3; simpl; lia).
    set (w5 := mkWorld (pool w4) (setNth i (Connection.Close c) (heap w4))
                       (now w4) (dials w4) (tasks w4)).
    assert (H5 : closeConn (Some i) w4 = Returned (closeErr c, w5)).
    { apply closeConn_run. simpl heap. rewrite Hh3. exact Hc. }
    assert (Hh5 : heap w5 = setNth i (Connection.Close c) (heap w))
      by (simpl; now rewrite Hh3).
    assert (Ho5 : opt (pool w5) = opt (pool w)) by (simpl; now rewrite Ho3).
    assert (Hn5 : now w5 = now w) by (simpl; now rewrite Hn3).
    assert (Hcl5 : closes [Some i] w w5)
      by (apply (closes_cons i c [] w w5 w5 Hc Hh5); now apply closes_nil).
    destruct (IH fuel (n + 1) w5) as (w' & HR & Hi' & Hq' & Ho' & Hs' & Hn' & Hcl' & Hc').
    + lia.
    + simpl. now rewrite Hi3.
    + revert Hstale'. apply Forall_impl. intros x Hx.
      exact (isStaleConn_closes _ _ _ _ _ Hcl5 Ho5 Hn5 Hx).
    + destruct rest as [|x rest']; [exact I|].
      exact (isStaleConn_closes _ _ _ _ _ Hcl5 Ho5 Hn5 Hrest).
    + simpl. rewrite Ho3, Hq3. simpl. lia.
    + exists w'.
      rewrite reapLoop_unfold, (bind_run _ _ _ _ _ H1),
        (bind_run _ _ _ _ _ H2), (bind_run _ _ _ _ _ H4),
        (bind_run _ _ _ _ _ H5), HR.
      split; [do 2 f_equal; simpl length; lia|].
      split; [exact Hi'|].
      split; [rewrite Hq'; simpl; rewrite Hq3; simpl; lia|].
      split; [now rewrite Ho', Ho5|].
      split; [rewrite Hs'; simpl; now rewrite Hs3|].
      split; [now rewrite Hn', Hn5|].
      split; [exact (closes_cons i c stale w w5 w' Hc Hh5 Hcl')|].
      intros y Hy. apply Hc' in Hy. simpl in Hy. apply Hc3 in Hy. exact Hy.
Qed.

Lemma existsb_ptr (x : ptr) (l : list ptr) :
  existsb (ptr_eqb x) l = true <-> In x l.
Proof.
  rewrite existsb_exists. split.
  - intros (y & Hy & Heq). apply ptr_eqb_eq in Heq. now subst.
  - intro H. exists x. split; [exact H | now apply ptr_eqb_eq].
Qed.

(** X15.  [ReapStaleConns] takes the stale connections off the head of
    [idleConns] and stops at the first one that is not stale: when the
    idle connections are [stale] followed by [rest], the members of
    [stale] being stale and the first of [rest] not, and the queue has
    room for the token the reaper takes for each turn, it returns the
    length of [stale], leaves [rest] idle, closes the connections of
    [stale] and no other, adds their number to the [StaleConns] counter,
    and gives its token back.  With every token taken it waits. *)
Theorem ReapStaleConns_reaps_the_stale_head
        (w : World) (stale rest : list ptr) :
  idleConns (pool w) = stale ++ rest ->
  Forall (fun cn => isStaleConn cn w = Returned (true, w)) stale ->
  match rest with
  | [] => True
  | cn :: _ => isStaleConn cn w = Returned (false, w)
  end ->
  (0 <= queue (pool w) < PoolSize (opt (pool w)) ->
   exists w',
     ReapStaleConns w = Returned (Z.of_nat (length stale), w')
     /\ idleConns (pool w') = rest
     /\ queue (pool w') = queue (pool w)
     /\ StaleConns (stats (pool w'))
        = uint32 (StaleConns (stats (pool w))
                  + uint32 (Z.of_nat (length stale)))
     /\ (forall i, In (Some i) stale ->
           exists c, nth_error (heap w') i = Some c
                     /\ Connection.closed c = true
                     /\ Reader c = None /\ netConn c = None)
     /\ (forall i c, nth_error (heap w) i = Some c ->
                     ~ In (Some i) stale ->
                     nth_error (heap w') i = Some c)
     /\ (forall y, In y (conns (pool w')) -> In y (conns (pool w)))
     /\ now w' = now w)
  /\ (PoolSize (opt (pool w)) <= queue (pool w) ->
      ReapStaleConns w = Blocked).
Proof.
  intros Hidle Hstale Hrest. split.
  - intro Hq.
    destruct (reapLoop_reaps rest stale (length (idleConns (pool w))) 0 w)
      as (w1 & HR & Hi & Hq1 & Ho & Hs & Hn & [Hlen Hcl] & Hc);
      try assumption; [rewrite Hidle, length_app; lia|].
    eexists. split.
    { unfold ReapStaleConns. unfold bind at 1. unfold gets at 1.
      rewrite (bind_run _ _ _ _ _ HR). reflexivity. }
    simpl. rewrite Hs.
    split; [exact Hi|]. split; [exact Hq1|]. split; [reflexivity|].
    split.
    { intros i Hin.
      destruct (Forall_forall (fun cn => isStaleConn cn w = Returned (true, w))
                  stale) as [Hall _].
      destruct (isStaleConn_true_valid _ _ (Hall Hstale _ Hin))
        as (j & c & Hj & Hcj). injection Hj as <-.
      exists (Connection.Close c). rewrite (Hcl _ _ Hcj).
      rewrite (proj2 (existsb_ptr (Some i) stale) Hin). repeat split. }
    split; [|split; [exact Hc | exact Hn]].
    intros i c Hci Hnot. rewrite (Hcl _ _ Hci).
    destruct (existsb (ptr_eqb (Some i)) stale) eqn:He; [|reflexivity].
    apply existsb_ptr in He. contradiction.
  - intro Hfull. unfold ReapStaleConns. unfold bind at 1. unfold gets at 1.
    rewrite reapLoop_unfold. unfold bind at 1. unfold bind at 1.
    unfold getTurn.
    now replace (queue (pool w) <? PoolSize (opt (pool w))) with false
      by (symmetry; apply Z.ltb_ge; exact Hfull).
Qed.

Lemma ReapStaleConns_reaps_the_stale_head_witness :
  let w := after (bind (Get Background)
                   (fun _ => bind (Put (Some O))
                   (fun _ => sleep (61 * second)))) searchWorld in
  idleConns (pool w) = [Some O]
  /\ isStaleConn (Some O) w = Returned (true, w)
  /\ exists w',
       ReapStaleConns w = Returned (1, w')
       /\ idleConns (pool w') = []
       /\ StaleConns (stats (pool w')) = 1.
Proof.
  intro w.
  assert (Hidle : idleConns (pool w) = [Some O] ++ [])
    by (vm_compute; reflexivity).
  assert (Hst : isStaleConn (Some O) w = Returned (true, w))
    by (vm_compute; reflexivity).
  assert (Hq : 0 <= queue (pool w) < PoolSize (opt (pool w)))
    by (vm_compute; split; [intro H; discriminate H | reflexivity]).
  split; [exact Hidle | split; [exact Hst|]].
  destruct (proj1 (ReapStaleConns_reaps_the_stale_head w [Some O] []
                     Hidle (Forall_cons _ Hst (Forall_nil _)) I) Hq)
    as (w' & HR & Hi & _ & Hs & _).
  exists w'. split; [exact HR | split; [exact Hi|]].
  rewrite Hs. vm_compute. reflexivity.
Defined.

(** ** The two handshakes *)

Lemma STARTED_is_no_ERR (line : gostring) :
  HasPrefix line (bytes "STARTED ") = true ->
  HasPrefix line (bytes "ERR ") = false.
Proof.
  destruct line as [|a line]; [discriminate|].
  cbn [HasPrefix bytes String.list_ascii_of_string].
  destruct (Ascii.eqb_spec a "S") as [->|]; [reflexivity | discriminate].
Qed.

(** X16.  The handshake of connection.go ([search], [ingest], [control],
    whose [read] picks the buffer size out of every line that starts with
    [STARTED]) and the one of [NewConn] do the same to a connection when
    the write succeeds, the first line read does not start with [STARTED]
    and the second one does: the same error or panic, or the same
    connection with the same [cmdMaxBytes]. *)
Theorem handshakes_agree_on_a_STARTED_line
        (c : Conn) (nc : NetConn) (n : nat) (ch password ack line : gostring)
        (a1 a2 : nat) (rest : list ReadEvent) :
  Connection.closed c = false ->
  Reader c = Some n ->
  netConn c = Some nc ->
  hd None (writeErrs nc) = None ->
  incoming nc = Line ack a1 :: Line line a2 :: rest ->
  HasPrefix ack (bytes "STARTED ") = false ->
  HasPrefix line (bytes "STARTED ") = true ->
  start ch password c = handshake ch password c.
Proof.
  intros Hcl Hr Hnc Hw Hin Hack Hline.
  pose proof (STARTED_is_no_ERR _ Hline) as Herr.
  unfold start, handshake.
  rewrite !(bind_run _ _ _ _ _ (write_first_ok _ c nc Hcl Hnc Hw)).
  unfold connection_read.
  unfold bind, read.
  cbn [Connection.closed setIO netConn Reader incoming writeErrs sent].
  rewrite Hcl, Hr, Hin.
  destruct (HasPrefix ack (bytes "ERR "));
    repeat first
      [ rewrite Hcl | rewrite Hack | rewrite Herr | rewrite Hline
      | progress cbn [Connection.closed setIO netConn Reader incoming
                      writeErrs sent ret] ];
    destruct (lastField (FieldsFunc line)) as [f|]; try reflexivity;
    destruct (Atoi f); reflexivity.
Qed.

Lemma handshakes_agree_on_a_STARTED_line_witness :
  let c := mkConn 0 0 false (Some O) (Some (sonic (bytes "ingest") [])) 0 false in
  start (bytes "ingest") (bytes "SecretPassword") c
  = handshake (bytes "ingest") (bytes "SecretPassword") c
  /\ exists c',
       start (bytes "ingest") (bytes "SecretPassword") c = Returned (None, c')
       /\ cmdMaxBytes c' = 20000.
Proof.
  intro c.
  split.
  - exact (handshakes_agree_on_a_STARTED_line c (sonic (bytes "ingest") []) O
             (bytes "ingest") (bytes "SecretPassword")
             (bytes "CONNECTED <sonic-server v1.0.0>")
             (bytes "STARTED ingest protocol(1) buffer(20000)") O O []
             eq_refl eq_refl eq_refl eq_refl eq_refl eq_refl eq_refl).
  - eexists. split; vm_compute; reflexivity.
Defined.

(** ** What [Push] writes *)

Lemma write_sent (str : gostring) (c c' : Conn) :
  write str c = Returned (None, c') ->
  option_map sent (netConn c')
  = option_map (fun s => s ++ [str ++ crlf]) (option_map sent (netConn c)).
Proof.
  unfold write. destruct (Connection.closed c); [intro H; inv_ret; discriminate|].
  destruct (netConn c) as [nc|]; [|discriminate].
  destruct (writeErrs nc) as [|r rest]; intro H; inv_ret; reflexivity.
Qed.

Lemma read_sent (c c' : Conn) (str : gostring) :
  read c = Returned (Ok str, c') ->
  option_map sent (netConn c') = option_map sent (netConn c).
Proof.
  unfold read. destruct (Connection.closed c); [intro H; inv_ret; discriminate|].
  destruct (Reader c) as [n|]; [|discriminate].
  destruct (netConn c) as [nc|]; [|discriminate].
  destruct (incoming nc) as [|[s ahead|e] rest]; [discriminate| |].
  - destruct (HasPrefix s (bytes "ERR ")); intro H; inv_ret;
      try discriminate; reflexivity.
  - intro H. inv_ret. discriminate.
Qed.

Lemma exchange_sent (i : nat) (buf line : gostring) (w w' : World) (c : Conn) :
  exchange (Some i) buf w = Returned (Ok line, w') ->
  nth_error (heap w) i = Some c ->
  exists c',
    nth_error (heap w') i = Some c'
    /\ option_map sent (netConn c')
       = option_map (fun s => s ++ [buf ++ crlf]) (option_map sent (netConn c)).
Proof.
  unfold exchange. intros H Hc.
  apply bind_Returned in H as (err & w1 & Hw & H).
  destruct (onConn_inv _ _ _ _ _ Hw) as (j & c0 & c1 & Hj & Hc0 & Hm & ->).
  injection Hj as <-. rewrite Hc in Hc0. injection Hc0 as <-.
  destruct err as [e|]; [inv_ret; discriminate|].
  destruct (onConn_inv _ _ _ _ _ H) as (j & c2 & c3 & Hj & Hc2 & Hr & ->).
  injection Hj as <-. simpl in Hc2.
  rewrite (nth_error_setNth_same _ _ _ _ Hc) in Hc2. injection Hc2 as <-.
  exists c3. split.
  - simpl. apply (nth_error_setNth_same _ _ c1).
    exact (nth_error_setNth_same _ _ _ _ Hc).
  - rewrite (read_sent _ _ _ Hr). exact (write_sent _ _ _ Hm).
Qed.

Lemma pushChunks_sent (i : nat) (collection bucket object : gostring)
      (chunks : list gostring) :
  forall w w' c,
    pushChunks (Some i) collection bucket object chunks w
    = Returned (None, w') ->
    nth_error (heap w) i = Some c ->
    exists c',
      nth_error (heap w') i = Some c'
      /\ option_map sent (netConn c')
         = option_map
             (fun s =>
                s ++ map (fun chunk =>
                            (bytes "PUSH" ++ sp ++ collection ++ sp ++ bucket
                             ++ sp ++ object ++ quote ++ chunk ++ quote)
                            ++ crlf) chunks)
             (option_map sent (netConn c)).
Proof.
  induction chunks as [|chunk chunks IH]; intros w w' c H Hc; cbn [pushChunks] in H.
  - unfold ret in H. inv_ret. exists c. split; [exact Hc|].
    destruct (netConn c); simpl; [now rewrite app_nil_r | reflexivity].
  - apply bind_Returned in H as (r & w1 & Hx & H).
    destruct r as [line|e]; [|inv_ret; discriminate].
    destruct (exchange_sent _ _ _ _ _ _ Hx Hc) as (c1 & Hc1 & Hs1).
    destruct (IH _ _ _ H Hc1) as (c' & Hc' & Hs').
    exists c'. split; [exact Hc'|].
    rewrite Hs', Hs1. destruct (netConn c); simpl; [|reflexivity].
    now rewrite <- app_assoc.
Qed.

(** X17.  What a [Push] that succeeds has written: the text is escaped
    and cut, and for each chunk, in order, one line is written on the
    connection that [Get] gave: [PUSH], the collection, the bucket and the
    object, each after one space, then the chunk between double quotes
    straight after the object, then CR LF. *)
Theorem Push_writes_one_command_per_chunk
        (fuel : nat) (ctx : Ctx) (collection bucket object text : gostring)
        (w w1 w' : World) (i : nat) (c : Conn) :
  Get ctx w = Returned (Ok (Some i), w1) ->
  nth_error (heap w1) i = Some c ->
  Push fuel ctx collection bucket object text w = Returned (None, w') ->
  exists chunks c',
    Connection.splitText fuel c (patternReplace text) = Returned chunks
    /\ nth_error (heap w') i = Some c'
    /\ option_map sent (netConn c')
       = option_map
           (fun s =>
              s ++ map (fun chunk =>
                          (bytes "PUSH" ++ sp ++ collection ++ sp ++ bucket
                           ++ sp ++ object ++ quote ++ chunk ++ quote)
                          ++ crlf) chunks)
           (option_map sent (netConn c)).
Proof.
  intros HGet Hc H. unfold Push in H.
  rewrite (bind_run _ _ _ _ _ HGet) in H.
  apply bind_Returned in H as (c0 & w2 & Hl & H).
  apply load_inv in Hl as [-> (j & Hj & Hc0)]. injection Hj as <-.
  rewrite Hc in Hc0. injection Hc0 as <-.
  apply bind_Returned in H as (chunks & w3 & Hs & H).
  apply lift_inv in Hs as [-> Hs].
  destruct (pushChunks_sent _ _ _ _ _ _ _ _ H Hc) as (c' & Hc' & Hsent).
  exists chunks, c'. auto.
Qed.

Lemma Push_writes_one_command_per_chunk_witness :
  let w := terseWorld in
  let w1 := after (Get Background) w in
  let w' := after (Push 100 Background (bytes "col") (bytes "buck")
                        (bytes "obj") (bytes "a b")) w in
  Get Background w = Returned (Ok (Some O), w1)
  /\ option_map sent (netConn (nth 0 (heap w') zeroConn))
     = Some [bytes "START ingest SecretPassword" ++ crlf;
             (bytes "PUSH col buck obj" ++ [dquote] ++ bytes "a b" ++ [dquote])
             ++ crlf].
Proof.
  intros w w1 w'.
  assert (HGet : Get Background w = Returned (Ok (Some O), w1))
    by (vm_compute; reflexivity).
  assert (Hc : nth_error (heap w1) 0 = Some (nth 0 (heap w1) zeroConn))
    by (vm_compute; reflexivity).
  assert (HP : Push 100 Background (bytes "col") (bytes "buck")
                    (bytes "obj") (bytes "a b") w = Returned (None, w'))
    by (vm_compute; reflexivity).
  split; [exact HGet|].
  destruct (Push_writes_one_command_per_chunk _ _ _ _ _ _ _ _ _ _ _
              HGet Hc HP) as (chunks & c' & Hs & Hc' & Hsent).
  assert (Hch : chunks = [bytes "a b"]).
  { assert (Hs' : Connection.splitText 100 (nth 0 (heap w1) zeroConn)
                    (patternReplace (bytes "a b")) = Returned [bytes "a b"])
      by (vm_compute; reflexivity).
    rewrite Hs' in Hs. now injection Hs as <-. }
  assert (Hn : nth 0 (heap w') zeroConn = c').
  { apply nth_error_nth with (d := zeroConn) in Hc'. exact Hc'. }
  rewrite Hn, Hsent, Hch. vm_compute. reflexivity.
Defined.

(** ** The count of idle connections *)

Lemma sameIdle_refl (w : World) : sameIdle w w.
Proof. split; reflexivity. Qed.

Lemma sameIdle_trans (w1 w2 w3 : World) :
  sameIdle w1 w2 -> sameIdle w2 w3 -> sameIdle w1 w3.
Proof. intros [H1 H2] [H3 H4]. split; congruence. Qed.

Lemma sameIdle_fields (w w' : World) :
  _closed (pool w') = _closed (pool w) ->
  idleConnsLen (pool w') = idleConnsLen (pool w) ->
  idleConns (pool w') = idleConns (pool w) ->
  tasks w' = tasks w ->
  sameIdle w w'.
Proof.
  intros H1 H2 H3 H4. split; [exact H1|]. unfold slack. now rewrite H2, H3, H4.
Qed.

Lemma keeps_bind {A B} (m : M World A) (k : A -> M World B) :
  keeps sameIdle m -> (forall a, keeps sameIdle (k a)) ->
  keeps sameIdle (bind m k).
Proof.
  intros Hm Hk w b w' H.
  apply bind_Returned in H as (a & w1 & H1 & H2).
  exact (sameIdle_trans _ _ _ (Hm _ _ _ H1) (Hk a _ _ _ H2)).
Qed.

Lemma keeps_ret {A} (a : A) : keeps sameIdle (ret a).
Proof. intros w b w' H. unfold ret in H. inv_ret. apply sameIdle_refl. Qed.

Lemma keeps_gets {A} (f : World -> A) : keeps sameIdle (gets f).
Proof. intros w b w' H. unfold gets in H. inv_ret. apply sameIdle_refl. Qed.

Lemma keeps_modify (f : World -> World) :
  (forall w, sameIdle w (f w)) -> keeps sameIdle (modify f).
Proof. intros Hf w b w' H. unfold modify in H. inv_ret. apply Hf. Qed.

Lemma keeps_outOfFuel {A} : keeps sameIdle (@outOfFuel World A).
Proof. intros w b w' H. discriminate H. Qed.

Lemma keeps_load (cn : ptr) : keeps sameIdle (load cn).
Proof. intros w c w' H. apply load_inv in H as [-> _]. apply sameIdle_refl. Qed.

Lemma keeps_store (cn : ptr) (c : Conn) : keeps sameIdle (store cn c).
Proof.
  intros w u w' H. apply store_inv in H as (i & _ & ->).
  now apply sameIdle_fields.
Qed.

Lemma keeps_onConn {A} (cn : ptr) (m : M Conn A) : keeps sameIdle (onConn cn m).
Proof.
  intros w a w' H. apply onConn_inv in H as (i & c & c' & _ & _ & _ & ->).
  now apply sameIdle_fields.
Qed.

Lemma keeps_closeConn (cn : ptr) : keeps sameIdle (closeConn cn).
Proof.
  intros w u w' H. apply closeConn_inv in H as (i & c & _ & _ & ->).
  now apply sameIdle_fields.
Qed.

Lemma keeps_closed : keeps sameIdle Pool.closed.
Proof. apply keeps_gets. Qed.

Lemma keeps_isStaleConn (cn : ptr) : keeps sameIdle (isStaleConn cn).
Proof.
  intros w b w' H. apply isStaleConn_inv in H as ->. apply sameIdle_refl.
Qed.

Lemma keeps_sleep (d : Z) : keeps sameIdle (sleep d).
Proof. apply keeps_modify. intro w. now apply sameIdle_fields. Qed.

Lemma keeps_getTurn : keeps sameIdle getTurn.
Proof.
  intros w u w' H. unfold getTurn in H.
  destruct (queue (pool w) <? PoolSize (opt (pool w))); inv_ret.
  now apply sameIdle_fields.
Qed.

Lemma keeps_freeTurn : keeps sameIdle freeTurn.
Proof.
  intros w u w' H. apply freeTurn_inv in H as [_ ->].
  now apply sameIdle_fields.
Qed.

Lemma keeps_withPool (f : ConnPool -> ConnPool) :
  (forall p, _closed (f p) = _closed p) ->
  (forall p, idleConnsLen (f p) = idleConnsLen p) ->
  (forall p, idleConns (f p) = idleConns p) ->
  keeps sameIdle (modify (withPool f)).
Proof.
  intros H1 H2 H3. apply keeps_modify. intro w.
  apply sameIdle_fields; simpl; auto.
Qed.

Lemma pending_app (ts us : list Task) :
  pending (ts ++ us) = pending ts + pending us.
Proof.
  induction ts as [|[] ts IH]; cbn [app pending]; rewrite ?IH; lia.
Qed.

Lemma pending_repeat (n : nat) :
  pending (repeat AddIdleConnTask n) = Z.of_nat n.
Proof. induction n as [|n IH]; simpl repeat; cbn [pending]; lia. Qed.

Lemma keeps_spawn (t : Task) :
  t <> AddIdleConnTask -> keeps sameIdle (spawn t).
Proof.
  intro Ht. apply keeps_modify. intro w. split; [reflexivity|].
  unfold slack. simpl. rewrite pending_app.
  destruct t; [contradiction | |]; cbn [pending]; lia.
Qed.

Lemma missing_nonneg (w : World) : 0 <= missing w.
Proof. unfold missing. destruct (_ =? 0); lia. Qed.

Lemma keeps_checkMinIdleConns : keeps sameIdle checkMinIdleConns.
Proof.
  intros w u w' H. rewrite checkMinIdleConns_counts in H. inv_ret.
  split; [reflexivity|]. unfold slack, reserved. simpl.
  rewrite pending_app, pending_repeat.
  pose proof (missing_nonneg w). lia.
Qed.

Lemma keeps_alloc (c : Conn) : keeps sameIdle (alloc c).
Proof.
  intros w a w' H. unfold alloc in H. inv_ret. now apply sameIdle_fields.
Qed.

Ltac keeps_step :=
  first
    [ assumption
    | match goal with
      | K : forall _, keeps _ _ |- keeps _ _ => apply K
      end
    | apply keeps_ret | apply keeps_gets | apply keeps_outOfFuel
    | apply keeps_load | apply keeps_store | apply keeps_onConn
    | apply keeps_closeConn | apply keeps_closed | apply keeps_isStaleConn
    | apply keeps_sleep | apply keeps_getTurn | apply keeps_freeTurn
    | apply keeps_checkMinIdleConns | apply keeps_alloc
    | (apply keeps_withPool; intro; reflexivity)
    | (apply keeps_spawn; discriminate)
    | (apply keeps_bind; [|intro])
    | match goal with
      | |- keeps _ (if ?c then _ else _) => destruct c
      | |- keeps _ (match ?x with _ => _ end) => destruct x
      end ].

Ltac keeps_in H :=
  match type of H with
  | ?m ?w = Returned (_, _) =>
      let K := fresh "K" in
      assert (K : keeps sameIdle m);
      [repeat keeps_step | exact (K _ _ _ H)]
  end.

Lemma length_removelast_cons {A} (x : A) (l : list A) :
  length (removelast (x :: l)) = length l.
Proof.
  rewrite removelast_firstn_len, length_firstn. simpl. lia.
Qed.

Lemma keeps_popIdle : keeps sameIdle popIdle.
Proof.
  intros w cn w' H. unfold popIdle in H.
  destruct (idleConns (pool w)) as [|x l] eqn:Hi;
    [inv_ret; apply sameIdle_refl|].
  apply bind_Returned in H as (u & w1 & H1 & H).
  unfold modify in H1. inv_ret.
  eapply sameIdle_trans; [|keeps_in H].
  split; [reflexivity|]. unfold slack. simpl.
  rewrite Hi, length_removelast_cons. simpl length. lia.
Qed.

Lemma keeps_removeConn (cn : ptr) : keeps sameIdle (removeConn cn).
Proof.
  intros w u w' H. unfold removeConn in H.
  destruct (removeFirst cn (conns (pool w))) as [cs|];
    [|inv_ret; apply sameIdle_refl].
  keeps_in H.
Qed.

Lemma keeps_Remove (cn : ptr) (reason : option error) :
  keeps sameIdle (Remove cn reason).
Proof.
  unfold Remove. pose proof (keeps_removeConn cn). repeat keeps_step.
Qed.

Lemma keeps_CloseConn (cn : ptr) : keeps sameIdle (CloseConn cn).
Proof.
  unfold CloseConn. pose proof (keeps_removeConn cn). repeat keeps_step.
Qed.

Lemma keeps_Put (cn : ptr) : keeps sameIdle (Put cn).
Proof.
  unfold Put. pose proof (keeps_Remove cn). 
  apply keeps_bind; [apply keeps_onConn|intro b].
  destruct (0 <? b); [apply H|].
  apply keeps_bind; [apply keeps_load|intro c].
  destruct (negb (pooled c)); [apply H|].
  apply keeps_bind; [|intro; apply keeps_freeTurn].
  apply keeps_modify. intro w. split; [reflexivity|].
  unfold slack. simpl. rewrite length_app. simpl. lia.
Qed.

Lemma keeps_setLastDialError (e : error) : keeps sameIdle (setLastDialError e).
Proof. unfold setLastDialError. repeat keeps_step. Qed.

Lemma keeps_dialConn (pooled : bool) : keeps sameIdle (dialConn pooled).
Proof.
  unfold dialConn. apply keeps_bind; [apply keeps_closed|intro cl].
  destruct cl; [apply keeps_ret|].
  intros w r w' H.
  destruct (uint32 (PoolSize (opt (pool w))) <=? dialErrorsNum (pool w)).
  { destruct (lastDialError (pool w)); inv_ret; apply sameIdle_refl. }
  pose proof (keeps_setLastDialError) as Hs.
  assert (H1 : sameIdle w (mkWorld (pool w) (heap w) (now w) (S (dials w))
                                   (tasks w)))
    by now apply sameIdle_fields.
  destruct (Dialer (opt (pool w)) (dials w)) as [nc|e].
  - destruct (Connection.NewConn (now w) nc (channel (opt (pool w)))
                (password (opt (pool w)))) as [[cn|e]| | |];
      try discriminate.
    + eapply sameIdle_trans; [exact H1 | keeps_in H].
    + inv_ret. exact H1.
  - eapply sameIdle_trans; [exact H1 | keeps_in H].
Qed.

Lemma keeps_tryDial (fuel : nat) : keeps sameIdle (tryDial fuel).
Proof.
  induction fuel as [|fuel IH]; cbn [tryDial];
    (apply keeps_bind; [apply keeps_closed|intro cl]);
    (destruct cl; [apply keeps_ret|]);
    intros w r w' H;
    pose proof (keeps_setLastDialError) as Hs;
    assert (H1 : sameIdle w (mkWorld (pool w) (heap w) (now w) (S (dials w))
                                     (tasks w)))
      by (now apply sameIdle_fields);
    (destruct (Dialer (opt (pool w)) (dials w)) as [nc|e];
     (eapply sameIdle_trans; [exact H1 | keeps_in H])).
Qed.

Lemma keeps_newConn (pooled : bool) : keeps sameIdle (newConn pooled).
Proof.
  unfold newConn. apply keeps_bind; [apply keeps_dialConn|intros [cn|e]];
    [|apply keeps_ret].
  apply keeps_bind; [repeat keeps_step|intro].
  apply keeps_bind; [|intro; apply keeps_ret].
  destruct pooled; [|apply keeps_ret].
  intros w u w' H.
  destruct (PoolSize (opt (pool w)) <=? poolSize (pool w)).
  - keeps_in H.
  - inv_ret. now apply sameIdle_fields.
Qed.

Lemma addIdleConnTask_slack (w w' : World) :
  addIdleConnTask w = Returned (tt, w') ->
  _closed (pool w') = _closed (pool w) /\ slack w' = slack w - 1.
Proof.
  unfold addIdleConnTask, addIdleConn. intro H.
  apply bind_Returned in H as (err & w1 & H1 & H).
  apply bind_Returned in H1 as (r & w2 & H2 & H1).
  apply keeps_dialConn in H2 as [Hc Hs].
  destruct r as [cn|e].
  - apply bind_Returned in H1 as (u & w3 & H3 & H1).
    inv_ret.
    split; [exact Hc|]. rewrite <- Hs. unfold slack. simpl.
    rewrite length_app. simpl. lia.
  - inv_ret.
    split; [exact Hc|]. rewrite <- Hs. unfold slack. simpl. lia.
Qed.

Lemma keeps_idleLoop (fuel : nat) : keeps sameIdle (idleLoop fuel).
Proof.
  pose proof keeps_popIdle. pose proof keeps_CloseConn.
  induction fuel as [|fuel IH]; cbn [idleLoop]; repeat keeps_step.
Qed.

Lemma keeps_waitTurn (ctx : Ctx) : keeps sameIdle (waitTurn ctx).
Proof.
  intros w r w' H. unfold waitTurn in H.
  destruct ctx as [| |d]; [|inv_ret; apply sameIdle_refl|];
    (destruct (queue (pool w) <? PoolSize (opt (pool w)));
     [inv_ret; now apply sameIdle_fields|]);
    try destruct (Z.pos d <? PoolTimeout (opt (pool w)));
    keeps_in H.
Qed.

Lemma keeps_Get (ctx : Ctx) : keeps sameIdle (Get ctx).
Proof.
  pose proof (keeps_waitTurn ctx). pose proof keeps_idleLoop.
  pose proof (keeps_newConn true).
  unfold Get. repeat keeps_step.
Qed.

Lemma keeps_reapStaleConn : keeps sameIdle reapStaleConn.
Proof.
  intros w cn w' H. unfold reapStaleConn in H.
  destruct (idleConns (pool w)) as [|x l] eqn:Hi;
    [inv_ret; apply sameIdle_refl|].
  apply bind_Returned in H as (stale & w1 & H1 & H).
  apply isStaleConn_inv in H1 as ->.
  destruct stale; [|unfold ret in H; inv_ret; apply sameIdle_refl].
  apply bind_Returned in H as (u & w1 & H1 & H).
  unfold modify in H1. inv_ret.
  pose proof (keeps_removeConn x).
  eapply sameIdle_trans; [|keeps_in H].
  split; [reflexivity|]. unfold slack. simpl. rewrite Hi. simpl length. lia.
Qed.

Lemma keeps_reapLoop (fuel : nat) : forall n, keeps sameIdle (reapLoop fuel n).
Proof.
  pose proof keeps_reapStaleConn.
  induction fuel as [|fuel IH]; intro n; cbn [reapLoop]; repeat keeps_step.
Qed.

Lemma keeps_ReapStaleConns : keeps sameIdle ReapStaleConns.
Proof.
  unfold ReapStaleConns.
  apply keeps_bind; [apply keeps_gets|intro k].
  apply keeps_bind; [apply keeps_reapLoop|intro n].
  repeat keeps_step.
Qed.

Lemma keeps_reaperTick : keeps sameIdle reaperTick.
Proof.
  pose proof keeps_ReapStaleConns. unfold reaperTick. repeat keeps_step.
Qed.

Lemma keeps_closeAll (cs : list ptr) :
  forall firstErr, keeps sameIdle (closeAll cs firstErr).
Proof.
  induction cs as [|cn cs IH]; intro firstErr; cbn [closeAll];
    repeat keeps_step.
Qed.

Lemma keeps_runTask (fuel : nat) : keeps sameIdle (runTask fuel).
Proof.
  intros w u w' H. unfold runTask in H.
  destruct (tasks w) as [|t ts] eqn:Ht; [inv_ret; apply sameIdle_refl|].
  destruct t.
  - destruct u. apply addIdleConnTask_slack in H as [Hc Hs].
    split; [exact Hc|]. rewrite Hs. unfold slack. simpl. rewrite Ht.
    cbn [pending]. lia.
  - apply keeps_tryDial in H. destruct H as [Hc Hs].
    split; [exact Hc|]. rewrite Hs. unfold slack. simpl. rewrite Ht.
    cbn [pending]. lia.
  - apply keeps_reaperTick in H. destruct H as [Hc Hs].
    split; [exact Hc|]. rewrite Hs. unfold slack. simpl. rewrite Ht.
    cbn [pending]. lia.
Qed.

Lemma Close_closed (w w' : World) (r : option error) :
  Pool.Close w = Returned (r, w') -> w' = w \/ _closed (pool w') = 1.
Proof.
  unfold Pool.Close. destruct (_closed (pool w) =? 0);
    [|intro H; inv_ret; now left].
  intro H. right.
  apply bind_Returned in H as (u & w1 & H1 & H).
  unfold modify in H1. inv_ret.
  apply bind_Returned in H as (cs & w2 & H2 & H).
  unfold gets in H2. inv_ret.
  apply bind_Returned in H as (u & w3 & H3 & H).
  apply keeps_closeAll in H3 as [Hc _].
  apply bind_Returned in H as (u' & w4 & H4 & H).
  unfold modify in H4. unfold ret in H. inv_ret.
  simpl. rewrite Hc. reflexivity.
Qed.

(** One call leaves an open pool open before it, with the same count. *)
Lemma poolCall_idle (w w' : World) :
  poolCall w w' -> _closed (pool w') = 0 -> sameIdle w w'.
Proof.
  intros Hcall Hopen.
  destruct Hcall as [ctx w r w' H | x w w' H | x reason w w' H | x w r w' H
                     | w r w' H | w n w' H | w r w' H | fuel w w' H
                     | x w r w' H | x str w r w' H | d w w' H].
  - exact (keeps_Get _ _ _ _ H).
  - exact (keeps_Put _ _ _ _ H).
  - exact (keeps_Remove _ _ _ _ _ H).
  - exact (keeps_CloseConn _ _ _ _ H).
  - exact (keeps_newConn _ _ _ _ H).
  - exact (keeps_ReapStaleConns _ _ _ H).
  - apply Close_closed in H as [->|H]; [apply sameIdle_refl|].
    rewrite H in Hopen. discriminate.
  - exact (keeps_runTask _ _ _ _ H).
  - exact (keeps_onConn _ _ _ _ _ H).
  - exact (keeps_onConn _ _ _ _ _ H).
  - exact (keeps_sleep _ _ _ _ H).
Qed.

Lemma NewConnPool_slack (o : Options) (t : Z) (w : World) :
  NewConnPool o t = Returned w -> _closed (pool w) = 0 /\ slack w = 0.
Proof.
  unfold NewConnPool. unfold bind at 1.
  rewrite checkMinIdleConns_counts.
  set (w0 := mkWorld _ _ _ _ _).
  pose proof (missing_nonneg w0) as Hk.
  destruct ((0 <? IdleTimeout o) && (0 <? IdleCheckFrequency o));
    unfold spawn, modify, ret; intro H; inv_ret;
    (split; [reflexivity|]); unfold slack; simpl;
    rewrite ?pending_app, pending_repeat; cbn [pending]; lia.
Qed.

(** X18.  The count of idle connections of an open pool: for a pool
    built by [NewConnPool] with a pool size that is not negative, after any
    calls on the pool and its connections and any runs of its goroutines,
    as long as the pool was not closed, [IdleLen] is the number of
    connections in [idleConns] plus the number of [addIdleConn] goroutines
    that were started and have not run yet. *)
Theorem IdleLen_counts_idle_connections_and_reservations
        (o : Options) (t : Z) (w0 w : World) :
  0 <= PoolSize o ->
  NewConnPool o t = Returned w0 ->
  later w0 w ->
  _closed (pool w) = 0 ->
  IdleLen w
  = Returned (Z.of_nat (length (idleConns (pool w))) + pending (tasks w), w).
Proof.
  intros _ Hnew Hlater Hopen.
  destruct (NewConnPool_slack _ _ _ Hnew) as [Hc0 Hs0].
  assert (H : _closed (pool w) = 0 -> slack w = 0).
  { clear Hopen. induction Hlater as [|w1 w2 _ IH Hcall]; [auto|].
    intro Hopen. destruct (poolCall_idle _ _ Hcall Hopen) as [Hc Hs].
    rewrite Hs. apply IH. congruence. }
  specialize (H Hopen). unfold slack in H.
  unfold IdleLen, gets. do 2 f_equal. lia.
Qed.

Lemma IdleLen_counts_idle_connections_and_reservations_witness :
  let w1 := after (runTask 0) searchWorld in
  let w := after (Get Background) w1 in
  0 <= 40
  /\ later searchWorld w
  /\ _closed (pool w) = 0
  /\ length (idleConns (pool w1)) = 1%nat
  /\ length (idleConns (pool w)) = 0%nat
  /\ pending (tasks w) = 10
  /\ IdleLen w
     = Returned (Z.of_nat (length (idleConns (pool w))) + pending (tasks w), w).
Proof.
  intros w1 w.
  assert (Hp : 0 <= 40) by lia.
  assert (Hnew : NewConnPool
                   (facadeOptions
                      (fun _ => Ok (sonic (bytes "search")
                                      [Line (bytes "PENDING abc123") O;
                                       Line (bytes "EVENT QUERY abc123 id1 id2 id3") O]))
                      (bytes "search") (bytes "SecretPassword")) 0
                 = Returned searchWorld) by (vm_compute; reflexivity).
  assert (H1 : runTask 0 searchWorld = Returned (tt, w1))
    by (vm_compute; reflexivity).
  assert (H2 : Get Background w1 = Returned (Ok (Some O), w))
    by (vm_compute; reflexivity).
  assert (Hl : later searchWorld w).
  { eapply later_call; [eapply later_call; [apply later_now|]|].
    - eapply call_task; exact H1.
    - eapply call_Get; exact H2. }
  assert (Hopen : _closed (pool w) = 0) by (vm_compute; reflexivity).
  split; [exact Hp | split; [exact Hl | split; [exact Hopen|]]].
  split; [vm_compute; reflexivity|].
  split; [vm_compute; reflexivity|].
  split; [vm_compute; reflexivity|].
  refine (IdleLen_counts_idle_connections_and_reservations _ 0 searchWorld w
            _ Hnew Hl Hopen).
  exact Hp.
Defined.

(** ** What [Get] hands out *)

Lemma popIdle_last (w : World) (l : list ptr) (x : ptr) :
  idleConns (pool w) = l ++ [x] ->
  exists w',
    popIdle w = Returned (x, w')
    /\ idleConns (pool w') = l
    /\ heap w' = heap w /\ now w' = now w /\ dials w' = dials w
    /\ opt (pool w') = opt (pool w) /\ queue (pool w') = queue (pool w)
    /\ conns (pool w') = conns (pool w) /\ stats (pool w') = stats (pool w)
    /\ _closed (pool w') = _closed (pool w)
    /\ dialErrorsNum (pool w') = dialErrorsNum (pool w).
Proof.
  intro Hi. unfold popIdle.
  destruct (idleConns (pool w)) as [|y l'] eqn:Hl; [now destruct l|].
  unfold bind at 1. unfold modify at 1.
  unfold bind at 1. rewrite checkMinIdleConns_counts. unfold ret.
  rewrite Hi, last_last.
  eexists. split; [reflexivity|]. simpl.
  rewrite Hl, Hi, removelast_last. repeat split; reflexivity.
Qed.

Lemma waitTurn_run (ctx : Ctx) (w : World) :
  ctx <> Canceled ->
  queue (pool w) < PoolSize (opt (pool w)) ->
  waitTurn ctx w
  = Returned (None, withPool (setQueue (queue (pool w) + 1)) w).
Proof.
  intros Hctx Hq. unfold waitTurn.
  destruct ctx; [|contradiction|];
    now replace (queue (pool w) <? PoolSize (opt (pool w))) with true
      by (symmetry; apply Z.ltb_lt; exact Hq).
Qed.

(** The loop of [Get] stops at the last idle connection when it is not
    stale. *)
Lemma idleLoop_hit (w : World) (l : list ptr) (i : nat) :
  idleConns (pool w) = l ++ [Some i] ->
  isStaleConn (Some i) w = Returned (false, w) ->
  exists w',
    idleLoop (length (idleConns (pool w))) w = Returned (Some i, w')
    /\ idleConns (pool w') = l
    /\ heap w' = heap w /\ now w' = now w /\ dials w' = dials w
    /\ queue (pool w') = queue (pool w)
    /\ conns (pool w') = conns (pool w) /\ stats (pool w') = stats (pool w).
Proof.
  intros Hi Hst.
  destruct (popIdle_last w l (Some i) Hi)
    as (w2 & H2 & Hi2 & Hh2 & Hn2 & Hd2 & Ho2 & Hq2 & Hc2 & Hs2 & _).
  assert (H3 : isStaleConn (Some i) w2 = Returned (false, w2))
    by (apply (isStaleConn_ext (Some i) w w2 false); assumption).
  exists w2. split; [|repeat split; assumption].
  rewrite Hi, length_app, Nat.add_comm. cbn [length Nat.add idleLoop].
  now rewrite (bind_run _ _ _ _ _ H2), (bind_run _ _ _ _ _ H3).
Qed.

(** X19.  [Get] reuses the connection that was put back last: on an open
    pool with a token left, with a context that is not done, when the
    last of the idle connections is not stale, [Get] returns it, takes it
    off [idleConns], takes one token and counts a hit.  It dials nothing
    and looks at nothing else of the connection: not at whether it is
    closed. *)
Theorem Get_reuses_the_last_idle_connection
        (ctx : Ctx) (w : World) (l : list ptr) (i : nat) :
  _closed (pool w) <> 1 ->
  ctx <> Canceled ->
  queue (pool w) < PoolSize (opt (pool w)) ->
  idleConns (pool w) = l ++ [Some i] ->
  isStaleConn (Some i) w = Returned (false, w) ->
  exists w',
    Get ctx w = Returned (Ok (Some i), w')
    /\ idleConns (pool w') = l
    /\ queue (pool w') = queue (pool w) + 1
    /\ Hits (stats (pool w')) = uint32 (Hits (stats (pool w)) + 1)
    /\ heap w' = heap w /\ dials w' = dials w /\ now w' = now w
    /\ conns (pool w') = conns (pool w).
Proof.
  intros Hcl Hctx Hq Hi Hst.
  assert (Hc : (_closed (pool w) =? 1) = false) by (apply Z.eqb_neq; exact Hcl).
  set (w1 := withPool (setQueue (queue (pool w) + 1)) w).
  destruct (idleLoop_hit w1 l i Hi)
    as (w2 & H2 & Hi2 & Hh2 & Hn2 & Hd2 & Hq2 & Hc2 & Hs2).
  { apply (isStaleConn_ext (Some i) w w1 false); auto. }
  eexists. split.
  { unfold Get. unfold bind at 1. unfold Pool.closed, gets at 1. rewrite Hc.
    rewrite (bind_run _ _ _ _ _ (waitTurn_run ctx w Hctx Hq)). fold w1.
    unfold bind at 1. unfold gets at 1.
    rewrite (bind_run _ _ _ _ _ H2). reflexivity. }
  simpl. rewrite Hs2, Hq2, Hc2.
  repeat split; try assumption; reflexivity.
Qed.

Lemma Get_reuses_the_last_idle_connection_witness :
  let w := after (bind (Get Background) (fun _ =>
                  bind (Get Background) (fun _ =>
                  bind (Put (Some O)) (fun _ => Put (Some 1%nat)))))
                 searchWorld in
  idleConns (pool w) = [Some O; Some 1%nat]
  /\ exists w',
       Get Background w = Returned (Ok (Some 1%nat), w')
       /\ idleConns (pool w') = [Some O].
Proof.
  intro w.
  assert (Hi : idleConns (pool w) = [Some O] ++ [Some 1%nat])
    by (vm_compute; reflexivity).
  assert (Hcl : _closed (pool w) <> 1) by (vm_compute; discriminate).
  assert (Hq : queue (pool w) < PoolSize (opt (pool w)))
    by (vm_compute; reflexivity).
  assert (Hst : isStaleConn (Some 1%nat) w = Returned (false, w))
    by (vm_compute; reflexivity).
  split; [exact Hi|].
  destruct (Get_reuses_the_last_idle_connection Background w [Some O] 1
              Hcl ltac:(discriminate) Hq Hi Hst) as (w' & HG & Hi' & _).
  exists w'. split; assumption.
Defined.

Lemma setNth_last {A} (l : list A) (x y : A) :
  setNth (length l) x (l ++ [y]) = l ++ [x].
Proof. induction l as [|a l IH]; simpl; [reflexivity | now rewrite IH]. Qed.

Lemma nth_error_last {A} (l : list A) (y : A) :
  nth_error (l ++ [y]) (length l) = Some y.
Proof. rewrite nth_error_app2, Nat.sub_diag by lia. reflexivity. Qed.

(** X20.  [Get] with no idle connection dials: on an open pool with a
    token left, a context that is not done, fewer dial errors than the
    pool size, a dial that succeeds and a handshake that gives the
    connection [cn], [Get] returns a new connection, recorded in [conns],
    takes one token and counts a miss.  The connection is pooled, and
    counted in [poolSize], when [poolSize] is below [PoolSize]; otherwise
    it is marked as not pooled, for [Put] to discard. *)
Theorem Get_dials_when_nothing_is_idle
        (ctx : Ctx) (w : World) (nc : NetConn) (cn : Conn) :
  _closed (pool w) <> 1 ->
  ctx <> Canceled ->
  queue (pool w) < PoolSize (opt (pool w)) ->
  idleConns (pool w) = [] ->
  dialErrorsNum (pool w) < uint32 (PoolSize (opt (pool w))) ->
  Dialer (opt (pool w)) (dials w) = Ok nc ->
  Connection.NewConn (now w) nc (channel (opt (pool w)))
                     (password (opt (pool w)))
  = Returned (Ok cn) ->
  exists w',
    Get ctx w = Returned (Ok (Some (length (heap w))), w')
    /\ heap w'
       = heap w
         ++ [setPooled (poolSize (pool w) <? PoolSize (opt (pool w))) cn]
    /\ conns (pool w') = conns (pool w) ++ [Some (length (heap w))]
    /\ poolSize (pool w')
       = (if poolSize (pool w) <? PoolSize (opt (pool w))
          then poolSize (pool w) + 1 else poolSize (pool w))
    /\ queue (pool w') = queue (pool w) + 1
    /\ Misses (stats (pool w')) = uint32 (Misses (stats (pool w)) + 1)
    /\ dials w' = S (dials w)
    /\ idleConns (pool w') = [].
Proof.
  intros Hcl Hctx Hq Hi He Hd Hn.
  assert (Hc : (_closed (pool w) =? 1) = false) by (apply Z.eqb_neq; exact Hcl).
  set (w1 := withPool (setQueue (queue (pool w) + 1)) w).
  assert (H1 : waitTurn ctx w = Returned (None, w1)).
  { unfold waitTurn.
    destruct ctx; [|contradiction|];
      now replace (queue (pool w) <? PoolSize (opt (pool w))) with true
        by (symmetry; apply Z.ltb_lt; exact Hq). }
  assert (H2 : idleLoop (length (idleConns (pool w1))) w1
               = Returned (None, w1)) by (apply idleLoop_empty; exact Hi).
  set (w2 := withPool (fun p => setStats (addMiss (stats p)) p) w1).
  set (c0 := setPooled true cn).
  set (w3 := mkWorld (pool w2) (heap w2 ++ [c0]) (now w2) (S (dials w2))
                     (tasks w2)).
  assert (H3 : dialConn true w2 = Returned (Ok (Some (length (heap w))), w3)).
  { unfold dialConn. unfold bind at 1. unfold Pool.closed, gets at 1.
    change (_closed (pool w2)) with (_closed (pool w)). rewrite Hc.
    change (opt (pool w2)) with (opt (pool w)).
    change (dialErrorsNum (pool w2)) with (dialErrorsNum (pool w)).
    change (dials w2) with (dials w). change (now w2) with (now w).
    replace (uint32 (PoolSize (opt (pool w))) <=? dialErrorsNum (pool w))
      with false by (symmetry; apply Z.leb_gt; exact He).
    rewrite Hd, Hn. reflexivity. }
  assert (H4 : exists w4,
             newConn true w2 = Returned (Ok (Some (length (heap w))), w4)
             /\ heap w4
                = heap w
                  ++ [setPooled (poolSize (pool w) <? PoolSize (opt (pool w)))
                                cn]
             /\ conns (pool w4) = conns (pool w) ++ [Some (length (heap w))]
             /\ poolSize (pool w4)
                = (if poolSize (pool w) <? PoolSize (opt (pool w))
                   then poolSize (pool w) + 1 else poolSize (pool w))
             /\ queue (pool w4) = queue (pool w) + 1
             /\ stats (pool w4) = addMiss (stats (pool w))
             /\ dials w4 = S (dials w)
             /\ idleConns (pool w4) = idleConns (pool w)).
  { unfold newConn. rewrite (bind_run _ _ _ _ _ H3).
    unfold bind at 1. unfold modify at 1. unfold bind at 1.
    subst w3 w2 w1.
    cbn [pool heap now dials tasks withPool opt poolSize setConns setStats
         setQueue].
    destruct (Z.ltb_spec (poolSize (pool w)) (PoolSize (opt (pool w)))) as [Hp|Hp].
    - replace (PoolSize (opt (pool w)) <=? poolSize (pool w)) with false
        by (symmetry; apply Z.leb_gt; exact Hp).
      eexists. split; [reflexivity|]. simpl. repeat split; reflexivity.
    - replace (PoolSize (opt (pool w)) <=? poolSize (pool w)) with true
        by (symmetry; apply Z.leb_le; exact Hp).
      unfold bind at 1. unfold load.
      cbn [heap withPool]. rewrite nth_error_last.
      unfold store. cbn [heap pool withPool now dials tasks].
      rewrite setNth_last.
      eexists. split; [reflexivity|]. simpl. repeat split; reflexivity. }
  destruct H4 as (w4 & H4 & Hh4 & Hc4 & Hp4 & Hq4 & Hs4 & Hd4 & Hi4).
  exists w4. split.
  { unfold Get. unfold bind at 1. unfold Pool.closed, gets at 1. rewrite Hc.
    rewrite (bind_run _ _ _ _ _ H1).
    unfold bind at 1. unfold gets at 1.
    rewrite (bind_run _ _ _ _ _ H2).
    unfold bind at 1. unfold modify at 1. fold w2.
    rewrite (bind_run _ _ _ _ _ H4). reflexivity. }
  rewrite Hs4, Hi4, Hi. repeat split; assumption.
Qed.

Lemma Get_dials_when_nothing_is_idle_witness :
  idleConns (pool searchWorld) = []
  /\ exists w',
       Get Background searchWorld = Returned (Ok (Some O), w')
       /\ poolSize (pool w') = 11
       /\ conns (pool w') = [Some O]
       /\ dials w' = 1%nat.
Proof.
  set (w := searchWorld).
  assert (Hi : idleConns (pool w) = []) by (vm_compute; reflexivity).
  assert (Hcl : _closed (pool w) <> 1) by (vm_compute; discriminate).
  assert (Hq : queue (pool w) < PoolSize (opt (pool w)))
    by (vm_compute; reflexivity).
  assert (He : dialErrorsNum (pool w) < uint32 (PoolSize (opt (pool w))))
    by (vm_compute; reflexivity).
  assert (Hd : exists nc, Dialer (opt (pool w)) (dials w) = Ok nc)
    by (eexists; vm_compute; reflexivity).
  destruct Hd as [nc Hd].
  assert (Hn : exists cn,
             Connection.NewConn (now w) nc (channel (opt (pool w)))
                                (password (opt (pool w)))
             = Returned (Ok cn)).
  { injection Hd as <-. eexists. vm_compute. reflexivity. }
  destruct Hn as [cn Hn].
  split; [exact Hi|].
  destruct (Get_dials_when_nothing_is_idle Background w nc cn
              Hcl ltac:(discriminate) Hq Hi He Hd Hn)
    as (w' & HG & _ & Hc & Hp & _ & _ & Hdl & _).
  exists w'. split; [exact HG|].
  split; [rewrite Hp; vm_compute; reflexivity|].
  split; [rewrite Hc; vm_compute; reflexivity|].
  rewrite Hdl. vm_compute. reflexivity.
Defined.

(** ** A query from end to end *)

Lemma onConn_run {A} (i : nat) (m : M Conn A) (w : World) (c c' : Conn) (a : A) :
  nth_error (heap w) i = Some c ->
  m c = Returned (a, c') ->
  onConn (Some i) m w
  = Returned (a, mkWorld (pool w) (setNth i c' (heap w)) (now w) (dials w)
                         (tasks w)).
Proof.
  intros Hc Hm. unfold onConn, bind, load, store, ret. now rewrite Hc, Hm.
Qed.

Lemma read_line (c : Conn) (nc : NetConn) (n ahead : nat) (s : gostring)
      (rest : list ReadEvent) :
  Connection.closed c = false -> Reader c = Some n -> netConn c = Some nc ->
  incoming nc = Line s ahead :: rest ->
  HasPrefix s (bytes "ERR ") = false ->
  read c
  = Returned (Ok s, setIO (Some ahead)
                          (Some (mkNetConn rest (writeErrs nc) (sent nc))) c).
Proof.
  intros Hcl Hr Hn Hi He. unfold read. now rewrite Hcl, Hr, Hn, Hi, He.
Qed.

Lemma Split_event_line (eventType id : gostring) (results : list gostring) :
  ~ In " "%char eventType ->
  ~ In " "%char id ->
  Forall (fun r => ~ In " "%char r) results ->
  Split (bytes "EVENT " ++ eventType ++ bytes " " ++ id
         ++ concat (map (cons " "%char) results)) " "%char
  = bytes "EVENT" :: eventType :: id :: results.
Proof.
  intros He Hi Hr.
  change (bytes "EVENT " ++ ?x) with (bytes "EVENT" ++ " "%char :: x).
  rewrite Split_field by (simpl; intuition discriminate).
  change (bytes " " ++ ?x) with (" "%char :: x).
  rewrite Split_field by exact He.
  now rewrite (Split_fields _ _ Hr) by exact Hi.
Qed.

(** X21.  A query from end to end.  [Query] on a connection that [Get]
    gave, open, on which the write succeeds and the server answers one
    line that is no error, then the event line of the query with its
    identifier and results: it writes the one command, reads the two
    lines and returns the results in their order.  The connection stays
    with what the server sent after the event line. *)
Theorem Query_returns_the_results_of_the_event
        (ctx : Ctx) (w w1 : World) (i n a1 a2 : nat) (c : Conn) (nc : NetConn)
        (collection bucket term pending id : gostring) (limit offset : Z)
        (results : list gostring) (rest : list ReadEvent) :
  Get ctx w = Returned (Ok (Some i), w1) ->
  nth_error (heap w1) i = Some c ->
  Connection.closed c = false -> Reader c = Some n -> netConn c = Some nc ->
  hd None (writeErrs nc) = None ->
  incoming nc
  = Line pending a1
    :: Line (bytes "EVENT " ++ bytes "QUERY" ++ bytes " " ++ id
             ++ concat (map (cons " "%char) results)) a2
    :: rest ->
  HasPrefix pending (bytes "ERR ") = false ->
  ~ In " "%char id ->
  Forall (fun r => ~ In " "%char r) results ->
  exists w',
    Query ctx collection bucket term limit offset w = Returned (Ok results, w')
    /\ pool w' = pool w1
    /\ nth_error (heap w') i
       = Some (setIO (Some a2)
                 (Some (mkNetConn rest (tl (writeErrs nc))
                          (sent nc
                           ++ [(bytes "QUERY" ++ sp ++ collection ++ sp
                                ++ bucket ++ sp ++ quote ++ term ++ quote
                                ++ bytes "LIMIT(" ++ Itoa limit
                                ++ bytes ") OFFSET(" ++ Itoa offset
                                ++ bytes ")") ++ crlf])))
                 c).
Proof.
  intros HGet Hc Hcl Hr Hn Hw Hin Hp Hid Hres.
  set (buf := bytes "QUERY" ++ sp ++ collection ++ sp ++ bucket ++ sp ++ quote
              ++ term ++ quote ++ bytes "LIMIT(" ++ Itoa limit
              ++ bytes ") OFFSET(" ++ Itoa offset ++ bytes ")").
  set (line := bytes "EVENT " ++ bytes "QUERY" ++ bytes " " ++ id
               ++ concat (map (cons " "%char) results)) in *.
  set (nc1 := mkNetConn (incoming nc) (tl (writeErrs nc))
                        (sent nc ++ [buf ++ crlf])).
  set (c1 := setIO (Reader c) (Some nc1) c).
  set (c2 := setIO (Some a1)
               (Some (mkNetConn (Line line a2 :: rest) (writeErrs nc1)
                                (sent nc1))) c1).
  set (c3 := setIO (Some a2)
               (Some (mkNetConn rest (writeErrs nc1) (sent nc1))) c2).
  assert (H1 : write buf c = Returned (None, c1))
    by (apply write_first_ok; assumption).
  assert (H2 : read c1 = Returned (Ok pending, c2)).
  { apply (read_line c1 nc1 n a1 pending (Line line a2 :: rest));
      try reflexivity; try assumption. }
  assert (H3 : read c2 = Returned (Ok line, c3)).
  { apply (read_line c2 (mkNetConn (Line line a2 :: rest) (writeErrs nc1)
                                   (sent nc1)) a1 a2 line rest);
      try reflexivity; try assumption. }
  assert (H4 : getSearchResults line (bytes "QUERY") = Returned results).
  { unfold getSearchResults, line.
    rewrite app_assoc, HasPrefix_app, <- app_assoc.
    rewrite Split_event_line;
      [reflexivity | simpl; intuition discriminate | exact Hid | exact Hres]. }
  set (w2 := mkWorld (pool w1) (setNth i c1 (heap w1)) (now w1) (dials w1)
                     (tasks w1)).
  set (w3 := mkWorld (pool w2) (setNth i c2 (heap w2)) (now w2) (dials w2)
                     (tasks w2)).
  set (w4 := mkWorld (pool w3) (setNth i c3 (heap w3)) (now w3) (dials w3)
                     (tasks w3)).
  assert (Hc1 : nth_error (heap w2) i = Some c1)
    by exact (nth_error_setNth_same _ _ _ _ Hc).
  assert (Hc2 : nth_error (heap w3) i = Some c2)
    by exact (nth_error_setNth_same _ _ _ _ Hc1).
  exists w4. split.
  { unfold Query. rewrite (bind_run _ _ _ _ _ HGet). fold buf.
    rewrite (bind_run _ _ _ _ _ (onConn_run i _ w1 c c1 None Hc H1)).
    rewrite (bind_run _ _ _ _ _ (onConn_run i _ w2 c1 c2 _ Hc1 H2)).
    rewrite (bind_run _ _ _ _ _ (onConn_run i _ w3 c2 c3 _ Hc2 H3)).
    unfold bind, Facade.lift. rewrite H4. reflexivity. }
  split; [reflexivity|].
  exact (nth_error_setNth_same _ _ _ _ Hc2).
Qed.

Lemma Query_returns_the_results_of_the_event_witness :
  exists w',
    Query Background (bytes "col") (bytes "buck") (bytes "cat") 10 0 searchWorld
    = Returned (Ok [bytes "id1"; bytes "id2"; bytes "id3"], w').
Proof.
  set (w1 := after (Get Background) searchWorld).
  set (c := nth 0 (heap w1) zeroConn).
  assert (HGet : Get Background searchWorld = Returned (Ok (Some O), w1))
    by (vm_compute; reflexivity).
  assert (Hc : nth_error (heap w1) 0 = Some c) by (vm_compute; reflexivity).
  assert (Hn : exists nc, netConn c = Some nc
                          /\ hd None (writeErrs nc) = None
                          /\ incoming nc
                             = [Line (bytes "PENDING abc123") O;
                                Line (bytes "EVENT " ++ bytes "QUERY"
                                      ++ bytes " " ++ bytes "abc123"
                                      ++ concat (map (cons " "%char)
                                                   [bytes "id1"; bytes "id2";
                                                    bytes "id3"])) O])
    by (eexists; vm_compute; repeat split; reflexivity).
  destruct Hn as (nc & Hn & Hw & Hin).
  destruct (Query_returns_the_results_of_the_event Background searchWorld w1
              O O O O c nc (bytes "col") (bytes "buck") (bytes "cat")
              (bytes "PENDING abc123") (bytes "abc123") 10 0
              [bytes "id1"; bytes "id2"; bytes "id3"] []
              HGet Hc eq_refl eq_refl Hn Hw Hin eq_refl)
    as (w' & HQ & _).
  - simpl; intuition discriminate.
  - repeat constructor; simpl; intuition discriminate.
  - exists w'. exact HQ.
Defined.

(** ** [Filter] *)

Lemma filterLoop_closes (fn : Conn -> bool) (cs : list ptr) :
  forall w acc,
    NoDup cs ->
    (forall x, In x cs -> exists i, x = Some i /\ (i < length (heap w))%nat) ->
    exists w',
      filterLoop fn cs acc w
      = Returned (fold_left keepFirst (map (filterErrAt fn w) cs) acc, w')
      /\ pool w' = pool w /\ now w' = now w /\ dials w' = dials w
      /\ tasks w' = tasks w
      /\ length (heap w') = length (heap w)
      /\ forall i c,
           nth_error (heap w) i = Some c ->
           nth_error (heap w') i
           = Some (if existsb (ptr_eqb (Some i)) cs && fn c
                   then Connection.Close c else c).
Proof.
  induction cs as [|cn cs IH]; intros w acc Hnd Hv.
  - exists w. simpl. unfold ret. repeat split; auto.
  - inversion Hnd as [|x l Hnotin Hnd']; subst x l.
    destruct (Hv cn (or_introl eq_refl)) as (i0 & -> & Hi0).
    destruct (nth_error (heap w) i0) as [c0|] eqn:Hc0;
      [|apply nth_error_None in Hc0; lia].
    set (w1 := if fn c0
               then mkWorld (pool w) (setNth i0 (Connection.Close c0) (heap w))
                            (now w) (dials w) (tasks w)
               else w).
    assert (H1 : (if fn c0 then closeConn (Some i0) else ret None) w
                 = Returned (if fn c0 then closeErr c0 else None, w1)).
    { subst w1. destruct (fn c0); [|reflexivity].
      exact (closeConn_run i0 c0 w Hc0). }
    assert (Hp1 : pool w1 = pool w /\ now w1 = now w /\ dials w1 = dials w
                  /\ tasks w1 = tasks w /\ length (heap w1) = length (heap w))
      by (subst w1; destruct (fn c0); simpl; rewrite ?length_setNth; auto).
    destruct Hp1 as (Hp1 & Hn1 & Hd1 & Ht1 & Hl1).
    assert (Hh1 : forall j d, nth_error (heap w) j = Some d ->
                    nth_error (heap w1) j
                    = Some (if Nat.eqb i0 j && fn d
                            then Connection.Close d else d)).
    { intros j d Hj. subst w1.
      destruct (Nat.eqb_spec i0 j) as [Heq|Hne].
      - subst j. rewrite Hj in Hc0. injection Hc0 as ->.
        destruct (fn c0); simpl; [|exact Hj].
        exact (nth_error_setNth_same _ _ _ _ Hj).
      - destruct (fn c0); simpl; [|exact Hj].
        rewrite nth_error_setNth, Hj.
        now replace (Nat.eqb i0 j) with false
          by (symmetry; apply Nat.eqb_neq; exact Hne). }
    destruct (IH w1 (keepFirst acc (if fn c0 then closeErr c0 else None)) Hnd')
      as (w' & H' & Hp & Hn & Hd & Ht & Hl & Hh).
    { intros x Hx. destruct (Hv x (or_intror Hx)) as (j & -> & Hj).
      exists j. split; [reflexivity | lia]. }
    exists w'. split.
    { cbn [filterLoop]. unfold bind at 1. unfold load. rewrite Hc0.
      rewrite (bind_run _ _ _ _ _ H1), H'. do 2 f_equal.
      cbn [map fold_left]. unfold filterErrAt at 3. rewrite Hc0.
      f_equal. apply map_ext_in. intros x Hx.
      destruct (Hv x (or_intror Hx)) as (j & -> & Hj).
      destruct (nth_error (heap w) j) as [d|] eqn:Hd';
        [|apply nth_error_None in Hd'; lia].
      unfold filterErrAt. rewrite (Hh1 _ _ Hd'), Hd'.
      destruct (Nat.eqb_spec i0 j) as [Heq|_]; [|reflexivity].
      subst j. contradiction. }
    repeat (split; [congruence|]).
    intros j d Hj. rewrite (Hh _ _ (Hh1 _ _ Hj)).
    cbn [existsb ptr_eqb]. rewrite (Nat.eqb_sym j i0).
    destruct (Nat.eqb_spec i0 j) as [Heq|Hne]; [|reflexivity].
    subst j.
    replace (existsb (ptr_eqb (Some i0)) cs) with false.
    + cbn [andb orb]. destruct (fn d); reflexivity.
    + symmetry. apply not_true_is_false. intro He.
      apply existsb_ptr in He. contradiction.
Qed.

(** X22.  [Filter] closes the connections of the pool that [fn] picks,
    and takes none of them out: on a pool whose connections are distinct
    and exist, it returns the first error that closing one of them gave,
    in the order of [conns], nil when none gave one; it leaves [conns],
    [idleConns], the counts and the queue as they were, and closes exactly
    the connections of [conns] for which [fn] holds.  A connection it
    closed while idle is still idle afterwards. *)
Theorem Filter_closes_without_removing (fn : Conn -> bool) (w : World) :
  NoDup (conns (pool w)) ->
  (forall x, In x (conns (pool w)) ->
             exists i, x = Some i /\ (i < length (heap w))%nat) ->
  exists w',
    Filter fn w
    = Returned (firstErr (map (filterErrAt fn w) (conns (pool w))), w')
    /\ pool w' = pool w
    /\ (forall i c,
          nth_error (heap w) i = Some c ->
          nth_error (heap w') i
          = Some (if existsb (ptr_eqb (Some i)) (conns (pool w)) && fn c
                  then Connection.Close c else c))
    /\ (forall i c,
          In (Some i) (idleConns (pool w)) -> In (Some i) (conns (pool w)) ->
          nth_error (heap w) i = Some c -> fn c = true ->
          In (Some i) (idleConns (pool w'))
          /\ nth_error (heap w') i = Some (Connection.Close c)).
Proof.
  intros Hnd Hv.
  destruct (filterLoop_closes fn (conns (pool w)) w None Hnd Hv)
    as (w' & H' & Hp & _ & _ & _ & _ & Hh).
  exists w'. split.
  { unfold Filter. unfold bind at 1. unfold gets at 1. exact H'. }
  split; [exact Hp|]. split; [exact Hh|].
  intros i c Hidle Hin Hc Hfn. split; [now rewrite Hp|].
  rewrite (Hh _ _ Hc), Hfn, (proj2 (existsb_ptr _ _) Hin). reflexivity.
Qed.

Lemma Filter_closes_without_removing_witness :
  let w := after (bind (Get Background) (fun _ => Put (Some O))) searchWorld in
  exists w' w'',
    Filter (fun _ => true) w = Returned (None, w')
    /\ idleConns (pool w') = [Some O]
    /\ Get Background w' = Returned (Ok (Some O), w'')
    /\ onConn (Some O) read w'' = Returned (Err ErrClosed, w'').
Proof.
  intro w.
  assert (Hc : conns (pool w) = [Some O]) by (vm_compute; reflexivity).
  assert (Hnd : NoDup (conns (pool w)))
    by (rewrite Hc; repeat constructor; simpl; tauto).
  assert (Hv : forall x, In x (conns (pool w)) ->
                         exists i, x = Some i /\ (i < length (heap w))%nat).
  { rewrite Hc. intros x [<-|[]]. exists O. split; [reflexivity|].
    vm_compute. apply le_n. }
  assert (He : firstErr (map (filterErrAt (fun _ => true) w) (conns (pool w)))
               = None) by (vm_compute; reflexivity).
  destruct (Filter_closes_without_removing (fun _ => true) w Hnd Hv)
    as (w' & HF & Hp & _ & _).
  rewrite He in HF.
  assert (Hw' : w' = after (Filter (fun _ => true)) w)
    by (unfold after; now rewrite HF).
  exists w', (after (Get Background) w').
  split; [exact HF|]. rewrite Hw'.
  split; [vm_compute; reflexivity|].
  split; vm_compute; reflexivity.
Defined.

Lemma Put_pools (i : nat) (c : Conn) (w : World) :
  nth_error (heap w) i = Some c ->
  Reader c = Some O -> pooled c = true ->
  0 < queue (pool w) ->
  Put (Some i) w
  = Returned (tt,
              withPool (setQueue (queue (pool w) - 1))
                (withPool (fun p => setIdleConnsLen (idleConnsLen p + 1)
                                      (setIdleConns (idleConns p ++ [Some i]) p))
                          w)).
Proof.
  intros Hc Hr Hp Hq. unfold Put.
  rewrite (bind_run _ _ _ _ _ (onConn_Buffered_run i c O w Hc Hr)).
  cbn [Z.of_nat Z.ltb Z.compare].
  unfold bind at 1. unfold load. rewrite Hc, Hp. cbn [negb].
  unfold bind at 1. unfold modify at 1.
  rewrite freeTurn_run by exact Hq. reflexivity.
Qed.

(** X23.  Put, then Get: a connection given back is the one the next
    [Get] returns.  On an open pool, for a pooled connection with nothing
    unread in its reader that is not stale, held with a token, [Put]
    makes it the last idle connection and frees the token, and a [Get]
    that follows, with a context that is not done, returns that same
    connection; the idle connections, the queue, [conns] and the
    connections themselves are then as they were before the [Put]. *)
Theorem Put_then_Get_returns_the_same_connection
        (ctx : Ctx) (w : World) (i : nat) (c : Conn) :
  _closed (pool w) <> 1 ->
  ctx <> Canceled ->
  0 < queue (pool w) <= PoolSize (opt (pool w)) ->
  nth_error (heap w) i = Some c ->
  Reader c = Some O -> pooled c = true ->
  isStaleConn (Some i) w = Returned (false, w) ->
  exists w1 w',
    Put (Some i) w = Returned (tt, w1)
    /\ idleConns (pool w1) = idleConns (pool w) ++ [Some i]
    /\ queue (pool w1) = queue (pool w) - 1
    /\ Get ctx w1 = Returned (Ok (Some i), w')
    /\ idleConns (pool w') = idleConns (pool w)
    /\ queue (pool w') = queue (pool w)
    /\ conns (pool w') = conns (pool w)
    /\ heap w' = heap w /\ now w' = now w /\ dials w' = dials w.
Proof.
  intros Hcl Hctx Hq Hc Hr Hp Hst.
  assert (Hcb : (_closed (pool w) =? 1) = false) by (apply Z.eqb_neq; exact Hcl).
  set (w1 := withPool (setQueue (queue (pool w) - 1))
               (withPool (fun p => setIdleConnsLen (idleConnsLen p + 1)
                                     (setIdleConns (idleConns p ++ [Some i]) p))
                         w)).
  assert (HP : Put (Some i) w = Returned (tt, w1))
    by (apply (Put_pools i c); [assumption.. | lia]).
  set (w2 := withPool (setQueue (queue (pool w1) + 1)) w1).
  destruct (idleLoop_hit w2 (idleConns (pool w)) i eq_refl)
    as (w3 & H3 & Hi3 & Hh3 & Hn3 & Hd3 & Hq3 & Hc3 & Hs3).
  { apply (isStaleConn_ext (Some i) w w2 false); auto. }
  exists w1. eexists.
  split; [exact HP|]. split; [reflexivity|]. split; [reflexivity|].
  split.
  { unfold Get. unfold bind at 1. unfold Pool.closed, gets at 1.
    change (_closed (pool w1)) with (_closed (pool w)). rewrite Hcb.
    rewrite (bind_run _ _ _ _ _ (waitTurn_run ctx w1 Hctx ltac:(simpl; lia))).
    fold w2. unfold bind at 1. unfold gets at 1.
    rewrite (bind_run _ _ _ _ _ H3). reflexivity. }
  simpl. rewrite Hq3, Hc3. simpl.
  repeat split; try assumption; lia.
Qed.

Lemma Put_then_Get_returns_the_same_connection_witness :
  let w := after (Get Background) searchWorld in
  exists w1 w',
    Put (Some O) w = Returned (tt, w1)
    /\ idleConns (pool w1) = [Some O]
    /\ Get Background w1 = Returned (Ok (Some O), w')
    /\ idleConns (pool w') = []
    /\ queue (pool w') = 1.
Proof.
  intro w.
  assert (Hc : nth_error (heap w) 0 = Some (nth 0 (heap w) zeroConn))
    by (vm_compute; reflexivity).
  assert (Hcl : _closed (pool w) <> 1) by (vm_compute; discriminate).
  assert (Hq : 0 < queue (pool w) <= PoolSize (opt (pool w)))
    by (vm_compute; split; [reflexivity | discriminate]).
  assert (Hr : Reader (nth 0 (heap w) zeroConn) = Some O)
    by (vm_compute; reflexivity).
  assert (Hp : pooled (nth 0 (heap w) zeroConn) = true)
    by (vm_compute; reflexivity).
  assert (Hst : isStaleConn (Some O) w = Returned (false, w))
    by (vm_compute; reflexivity).
  destruct (Put_then_Get_returns_the_same_connection Background w O _
              Hcl ltac:(discriminate) Hq Hc Hr Hp Hst)
    as (w1 & w' & HP & H1 & _ & HG & Hi & Hq' & _).
  exists w1, w'.
  split; [exact HP|]. split; [rewrite H1; vm_compute; reflexivity|].
  split; [exact HG|]. split; [rewrite Hi; vm_compute; reflexivity|].
  rewrite Hq'. vm_compute. reflexivity.
Defined.
